(* ===== verification/_CoqProject ===== *)
-Q . S2P
Prelude.v
JsString.v
Act.v
Model.v
SortEngine.v
Actions.v
Fixture.v
Sorting.v
Listing.v
FileContract.v
HistoryStack.v
Recovery.v
Zipper.v
Explorer.v
Place.v
Moves.v
Protocol.v
Typed.v
Activation.v
Ordered.v
Selection.v
Bounds.v
Preference.v
Dispatch.v
Liveness.v
Simulation.v
View.v
