(* ===== verification/Prelude.v ===== *)
(** * Verification of the picty explorer store

    The program is [src/js/renderer/store/explorer.js]: the Vuex module that
    is the navigation-and-listing core of the picty image browser.  It keeps
    a navigation history with a cursor, the listing of the current
    directory, one sort preference per directory, a text query and a
    single selection, and it re-lists the directory whenever the filesystem
    watch of that directory fires.

    ** How the program is modelled

    JavaScript values are modelled at the types the program uses them at:
    array indices, offsets and scroll positions are integers ([Z]),
    strings are [string], arrays are [list], the object used as a map from
    directory to sort option is a [gmap string _].  [undefined] is modelled
    where the program itself can produce it: a history record built by
    [setScrollTop] from a missing record has no [directory], so
    [History.directory], the root store's [directory] and [directoryInput]
    are [option string] with [None] for [undefined].  The fields of a
    payload coming from the view are taken at their intended types; the
    payload itself and the fields with a default in the parameter list may
    be missing ([Dispatch.v]).

    A Vuex action is a computation in the state-and-exception monad of
    [Act.v]: [commit] applies a mutation to the module state, [dispatch] of
    a sibling action is a call (Vuex runs handlers synchronously, and a
    throw leaves through the dispatching action), a [TypeError] raised by
    reading a property of [undefined] is [throw], and [try]/[catch] is
    [try_catch].  The computation runs on a [Store]: the module state, the
    root store's [directory], the module variable [watcher], the operating
    system's live watches, the environment (filesystem, shell, home
    directory) and the trace of calls made to collaborators outside the
    module (viewer, notifier, focus hook).

    ** Files

    - [Prelude.v] (this file): JavaScript array primitives on integers
      ([js_slice], [js_nth], [js_findIndex]), string truthiness and property
      keys, their lemmas, the tactics and the hint database [explorer].
    - [JsString.v]: [toLowerCase], [indexOf] and the relational operators on
      strings, with the order laws the sort engine needs.
    - [Act.v]: the monad of actions, its notation and laws, the pointwise
      equality of computations with its [Proper] instances, and a Hoare
      logic with a normal and an exceptional postcondition, in which
      [Listing.v] shows that [load] never raises and [Explorer.v] composes
      the triples of the actions.
    - [Model.v]: the data ([Entry], [File], [History], [SortOption],
      [State], [Env], [Store], [Event], [Exn]), the initial state, the table
      [sortReversed] (source lines 5-9), the mutations (lines 189-224) and
      the getters (lines 225-262).
    - [SortEngine.v]: the comparator of the [sort] action (lines 150-167),
      the interface [ArraySort] of [Array.prototype.sort] with two
      implementations (insertion sort and merge sort), the class
      [OrderCmp] of three-way comparisons, and the proof that the
      comparator is consistent for every key and option.
    - [Actions.v]: every action of the module (lines 25-188), composed as
      the code composes them, over any [ArraySort].
    - [Fixture.v]: a concrete in-memory environment (directories [/a],
      [/a/b], [/a/c], [/a/d] and their entries) and the stores reached by
      visiting them, on which the witnesses and examples are evaluated.
    - [Listing.v]: the filter, the selection cursor, the reload ([load]
      on both exits of its [try]), the shell and the viewer.
    - [FileContract.v]: the class [FileContract] of what the module relies
      on of the File utility, and what follows for the entries [load]
      stores; the environment of [Fixture.v] is an instance.
    - [HistoryStack.v]: the history invariant [wf], the behaviour of
      [changeDirectory], [backDirectory], [forwardDirectory],
      [restoreDirectory] and [setScrollTop] on every branch, and the raise
      of an offset that leaves the array.
    - [Recovery.v]: the navigation dispatched again while it raises
      ([retry], by fuel), from a cursor below the array.
    - [Zipper.v]: the abstract browser history (records behind, current
      record, records ahead), the abstraction [abs] from [histories] and
      [historyIndex], and the refinement lemmas of the navigation
      actions and of the getters.
    - [Explorer.v]: the explorer as a transition system (an intent of the
      view, a firing watch, a change of the environment), a Hoare triple
      for every action composed by the rules of [Act.v], the invariants
      of every reachable store, and the end-to-end scenario of the
      specification as an example.
    - [Place.v]: the equivalence [same_place] of stores that differ in
      their items only, the transitions [background] the user did not ask
      for (a callback of the watch, a change of the filesystem), and the
      scenario of scrolling, leaving a directory and coming back.
    - [Moves.v]: the relation [move] of the commits an action is made of,
      the class [Stable] of invariants every move keeps, the
      decomposition of the run of every admissible intent into moves, and
      the induction [stable_reachable] that takes a [Stable] invariant to
      every reachable store.  The commit of a sort option and the [sort]
      after it are one move, so that the order of the items is an
      invariant of the class.
    - [Protocol.v]: a monitor of the calls to the watcher on the trace, and
      the proof that every run follows the protocol.
    - [Typed.v]: three [Stable] invariants over the runs: [typed] (no
      [undefined] where a string is expected), [listing_ok] (the items are
      directories and images with distinct paths, under [FileContract])
      and [fresh] (the items are the listing of the committed directory).
    - [Activation.v]: the listing composed with the selection and the
      navigation: entering the selected row, activating a row, the
      selection left behind by a move in the history.
    - [Selection.v]: the selection as an index cursor ([Cursor], clamped
      arithmetic on the index) and the proof that every sequence of
      selection actions implements it.
    - [Bounds.v]: the counters of the store (records, watches opened, sort
      options stored) against the number of transitions, the safe
      integers of a double, and the preorder [persists] of what no
      transition takes back.
    - [Preference.v]: the key under which [changeSortKey] stores an option
      and the key the getter [sortOption] reads, over the runs.
    - [Dispatch.v]: the actions as they are dispatched, each with the
      payload of its parameter list ([Request.t], [dispatch]): missing
      payloads, the defaults of lines 44, 59 and 66, the invariants
      through every dispatch, and the decomposition of every dispatch
      into moves.
    - [Liveness.v]: infinite runs, weak fairness and the leads-to rule for
      one helpful transition, proved for any transition system and used
      for the callback of the watch.
    - [Simulation.v]: the history machine on zippers with its labelled
      moves, the move [label_of] assigns to an intent, the transitions of
      the explorer with that move on each ([labelled], [labelled_run]),
      and the simulation of the explorer by the machine, step by step and
      over runs.
    - [View.v]: the equivalence [view_eq] of stores that agree on what the
      view can read, the [Proper] instances that make every action
      respect it, and the runs with callbacks of the watch among the
      intents ([Input], [react_all]).
    - [Sorting.v]: the order of the listing after [sort] for each key and
      direction, the uniqueness of the result across implementations of
      [ArraySort], and what [changeSortKey] stores against what the getter
      [sortOption] reads.
    - [Ordered.v]: the invariant [ordered] (the items are sorted by the
      option the getter returns) over every run, and the table as the
      sorted listing of the committed directory.

    ** What the theorems show

    - History ([HistoryStack.v]): a navigation that goes keeps the records
      up to the cursor, drops the forward branch and appends the new
      record; back and forward with an offset taken from the lists the
      getters show land on the shown directory and are inverse to each
      other; navigating to the committed directory without [force] is a
      no-op; [setScrollTop] rewrites the record at the cursor.  The commit
      of the cursor in [changeDirectory] repeats the one
      [restoreDirectory] makes first.
    - Refinement ([Zipper.v], [Simulation.v]): [histories] with its cursor
      stands for a zipper; the run of every admissible intent makes on it
      the move of the history machine that [label_of] names
      ([Zipper.visit], [Zipper.left] and [Zipper.right] repeated,
      [Zipper.scroll], or none); the moves of every run of the explorer,
      in the order of its transitions, are a run of the machine from the
      empty history that ends in the zipper the reached store stands for;
      every possible move of the machine except the visit of [undefined]
      is made by an admissible intent; and the five history getters are
      the projections.
    - Errors: [restoreDirectory] on an index outside the array writes the
      index and then raises a [TypeError], so an overshooting offset leaves
      the cursor out of range and the store not well formed, and while the
      cursor is below -1 every
      navigation raises and is lost; where the getter [canBackDirectory]
      or [canForwardDirectory] is false the action returns with the store
      as it was, whatever the offset; [setScrollTop] before any navigation
      inserts a record without directory, and every further report doubles
      the number of records; [showViewer] lets a failing listing through;
      [load] never raises.
    - Termination ([Recovery.v]): from a cursor [k] places below -1 the
      navigation repeated while it raises returns at attempt [k + 1], with
      a well-formed store whose history holds the new directory alone;
      fewer repeats still raise.
    - Types ([Typed.v]): started on a directory, every reachable store has
      a defined committed directory, directory input and record
      directories; while the filesystem keeps [FileContract], its items
      are directories and images with distinct paths, which is what the
      cursor of [Selection.v] needs.
    - Watcher protocol ([Protocol.v]): on the trace of every reachable
      store a watch is armed only on a fresh handle while no watch is
      live and a close names the handle the module holds; after a failed
      arm the closed handle is closed again by the next reload.
    - Liveness ([Liveness.v]): in every infinite run from the initial store
      in which the callback of the watch is weakly fair, a live watch
      leads to a store whose items are the listing of the committed
      directory in the filesystem as it then is, in the order of the sort
      option.
    - Composition ([Activation.v]): with fresh items under the contract,
      [selectIndex] then [changeSelectedDirectory] commits the directory of
      the selected row, and [action] on a row navigates into a directory
      or opens the viewer on every child of the committed directory.
      Going back or forward keeps the selected path, so
      [changeSelectedDirectory] can enter a directory that the table does
      not show as selected.  Every navigation clears the committed query
      and keeps the query input, so the next [search] applies the text
      typed in another directory.
    - Invariants ([Explorer.v]): every store reachable by admissible
      intents, watch events and environment changes satisfies [wf] (the
      cursor is -1 with no record, or indexes a record of the committed
      directory) and [watch_inv] (at most one watch is live, the one
      [watcher] holds, on the committed directory).  An intent is
      [admissible] when a back or forward offset is one the getters show
      and a scroll position is reported with the cursor on a record; the
      theorems on overshooting show what happens otherwise.  From such a
      store an admissible intent never raises a [TypeError]; only the two
      intents that open the viewer can raise, with the error of the
      listing.  The same holds for every dispatch ([Dispatch.v]), of the
      actions the view does not call directly ([restoreDirectory], [load],
      [sort]) as well, except that a handler dispatched without the
      payload its parameter list destructures raises a [TypeError] and
      leaves the store untouched; no dispatch but that of [action] or
      [showViewer] raises the error of the listing.  A dispatch is a
      sequence of moves,
      and keeps every [Stable] invariant, unless it gives
      [changeDirectory] a payload without [dirpath]: that dispatch
      navigates to [undefined].
    - The place of the user ([Place.v]): callbacks of the watch and
      changes of the filesystem write [items] and nothing else of the
      module state, so the records, the cursor, the scroll offsets, the
      query, the sort options and the selected path are kept, and an
      entry that is still listed stays the selected row; the scroll
      offset reported in a directory is the one the getter [scrollTop]
      returns when the user comes back to it, whatever happened in the
      background in between.
    - Independence ([View.v]): the module state and the committed directory
      after any sequence of intents, and the exit of the next intent, do
      not depend on the trace, on the variable [watcher] or on the handles
      of the watches; going back and then forward leaves the view as a
      fresh visit of the current record would; any number of reloads in an
      unchanged filesystem leaves the view of a single reload, and the
      view of before when the items were fresh and in order; callbacks of
      the watch anywhere among the intents of a run, in a filesystem that
      stays as it is, leave the view the intents alone leave.
    - Sort ([Sorting.v]): [sort] replaces [items] by a permutation ordered
      by the comparator; the result does not depend on the implementation
      of [Array.prototype.sort] when names are distinct; [descending]
      reverses it; the key [mtime] shows newest first.  In every
      reachable store the items are in the order of the option the getter
      [sortOption] returns, and fresh items under the contract of the
      File utility are the sorted listing of the committed directory,
      whatever implementation sorts it ([Ordered.v]).  The getter
      [sortOption] reads the key ["undefined"] (the module state has no
      [directory]), so a stored preference is read back only when the
      committed directory has that string; in a run that stays in
      directories with other names the getter returns the default in
      every store and the table is sorted by name, whatever the user
      clicks ([Preference.v]).
    - Filter and selection ([Listing.v]): [filteredItems] keeps exactly the
      entries whose lower-cased name contains the lower-cased query, in
      order; [selectIndex] outside the filtered list changes nothing and
      never raises; [selectNext] and [selectPrevious] stop at the ends.
      On entries with distinct paths the five selection actions implement
      the index cursor of [Selection.v]: [selectedIndex] after any
      sequence of them is the index the cursor computes, and the selected
      path is the path of the entry there.

    ** Bounds

    The actions use no fuel: every action is a finite composition of total
    functions, and the reload triggered by a watch event is one transition
    of the step relation, not a recursive call, so every run of an action
    returns an outcome.  The one loop is [retry] of [Recovery.v], the user
    who repeats a navigation; its fuel is the number of repeats, and
    [navigation_recovers] shows that [k] repeats are enough and that fewer
    are not.  Infinite runs are functions from [nat] to stores.  Numbers
    are exact integers (sizes, times, indices; no [NaN], no fractions).
    [counters_bounded] of [Bounds.v] shows that this loses nothing for the
    history: after [n] transitions the cursor and the number of records
    are at most [n], so in any run shorter than 2^53 transitions the
    indices the program computes are safe integers, on which the
    arithmetic of doubles is exact.  It also shows that nothing is reset:
    no transition, [initDirectory] included, takes the cursor off the
    records, removes a stored sort option or gives a watch handle out
    again.
    Strings are sequences of 8-bit characters compared by code;
    [toLowerCase] maps [A-Z] only.

    ** Not modelled

    The classes and functions the module imports ([File], [fs.watch],
    [shell.openItem], [remote.app.getPath], the root store) are outside
    [src/]; they appear as the record [Env] (what a call returns, or that
    it raises) and as events of the trace.  Of the File utility only the
    contract [FileContract] is stated, from the specification; how it
    reads the disk and classifies a file is not modelled.  What is
    assumed of these collaborators: [new File(x)] and [.parent.path]
    return for every [x], [undefined] included, and [watcher.close()]
    returns; only [listFiles] and [fs.watch] may raise, and whether
    [fs.watch] does depends on the filesystem and the directory alone.
    The handles of the watches, the set of live watches, the counter of
    handles and the trace of calls are instrumentation: the program holds
    one opaque watcher object and cannot read them, which [view_determined]
    of [View.v] shows.  The root store changes [directory] only through
    the commits of this module.  The view layer,
    which decides when an intent is dispatched, is the step relation's
    choice of the next intent.  [Array.prototype.sort] is the interface
    [ArraySort].  Promises returned by [dispatch], Vuex plugins and
    subscriptions are not modelled: the module awaits nothing.  A payload
    whose fields have another type than the handler expects (a string
    where an index is expected, a field other than [dirpath] that is
    [undefined] where the parameter list has no default) is not
    modelled: the record [State] would need every field at every type.
    Everything else of the source file is modelled; the lines the
    definitions do not cover are the imports, the [export default] and
    the braces that close the objects. *)

From stdpp Require Import base list strings.
From Stdlib Require Import ZArith Lia.

#[local] Open Scope Z_scope.

(** ** JavaScript array primitives *)

(** The relative-index rule of [Array.prototype.slice]: a negative index
    counts from the end, and the result is clamped to [[0, len]]. *)
Definition js_clamp (len i : Z) : Z :=
  if i <? 0 then Z.max (len + i) 0 else Z.min i len.

(** [arr.slice(start, end)]. *)
Definition js_slice {A} (l : list A) (start end_ : Z) : list A :=
  let len := Z.of_nat (length l) in
  let k := js_clamp len start in
  let final := js_clamp len end_ in
  take (Z.to_nat (final - k)) (drop (Z.to_nat k) l).

(** [arr[i]] for an integer [i]: [undefined] outside the array. *)
Definition js_nth {A} (l : list A) (i : Z) : option A :=
  if i <? 0 then None else l !! Z.to_nat i.

(** [arr.findIndex(p)]: the first index whose element satisfies [p], or -1. *)
Fixpoint js_findIndex {A} (p : A → bool) (l : list A) : Z :=
  match l with
  | [] => -1
  | x :: l' =>
      if p x then 0
      else let r := js_findIndex p l' in if r <? 0 then -1 else r + 1
  end.

(** Truthiness of a string: only the empty string is falsy. *)
Definition js_truthy (s : string) : bool :=
  match s with EmptyString => false | _ => true end.

(** [String(v)] for a value that is a string or [undefined]: what a
    template literal and a computed property key make of it. *)
Definition js_to_string (v : option string) : string :=
  match v with Some s => s | None => "undefined" end.

(** ** Tactics *)

(** Case analysis on the integer tests of the code, leaving linear facts. *)
Ltac case_Z_tests :=
  repeat match goal with
    | |- context [?a <? ?b] => destruct (Z.ltb_spec a b)
    | |- context [?a >? ?b] => rewrite (Z.gtb_ltb a b)
    | |- context [?a <=? ?b] => destruct (Z.leb_spec a b)
    | |- context [?a =? ?b] => destruct (Z.eqb_spec a b)
    | H : context [?a <? ?b] |- _ => destruct (Z.ltb_spec a b)
    | H : context [?a >? ?b] |- _ => rewrite (Z.gtb_ltb a b) in H
    | H : context [?a <=? ?b] |- _ => destruct (Z.leb_spec a b)
    | H : context [?a =? ?b] |- _ => destruct (Z.eqb_spec a b)
    end.

Create HintDb explorer discriminated.
Create Rewrite HintDb explorer.

(** ** Lemmas on the primitives *)

Section Slice.
Context {A : Type}.
Implicit Types (l : list A) (i j n : Z).

Lemma js_clamp_range len i : 0 ≤ len → 0 ≤ js_clamp len i ≤ len.
Proof. unfold js_clamp. case_Z_tests; lia. Qed.

Lemma js_clamp_in len i : 0 ≤ i ≤ len → js_clamp len i = i.
Proof. unfold js_clamp. case_Z_tests; lia. Qed.

Lemma js_clamp_neg len i : i < 0 → js_clamp len i = Z.max (len + i) 0.
Proof. unfold js_clamp. case_Z_tests; lia. Qed.

Lemma js_clamp_ge len i : 0 ≤ len ≤ i → js_clamp len i = len.
Proof. unfold js_clamp. case_Z_tests; lia. Qed.

(** [l.slice(0, n)] with [n] in range is the first [n] elements. *)
Lemma js_slice_prefix l n :
  0 ≤ n → js_slice l 0 n = take (Z.to_nat n) l.
Proof.
  intros Hn. unfold js_slice. rewrite (js_clamp_in _ 0) by lia.
  rewrite Z.sub_0_r. change (Z.to_nat 0) with 0%nat. rewrite drop_0.
  destruct (Z.le_ge_cases n (Z.of_nat (length l))).
  - by rewrite js_clamp_in by lia.
  - rewrite js_clamp_ge by lia. rewrite Nat2Z.id.
    rewrite !take_ge; [done | lia | lia].
Qed.

(** [l.slice(i, l.length)] with [i >= 0] drops the first [i] elements. *)
Lemma js_slice_suffix l i :
  0 ≤ i → js_slice l i (Z.of_nat (length l)) = drop (Z.to_nat i) l.
Proof.
  intros Hi. unfold js_slice. rewrite (js_clamp_in _ (Z.of_nat _)) by lia.
  destruct (Z.le_ge_cases i (Z.of_nat (length l))).
  - rewrite js_clamp_in by lia. apply take_ge. rewrite length_drop. lia.
  - rewrite js_clamp_ge by lia. rewrite Z.sub_diag, Nat2Z.id.
    rewrite !drop_ge; [done | lia | lia].
Qed.

Lemma js_slice_length l i j :
  Z.of_nat (length (js_slice l i j)) =
  Z.max 0 (js_clamp (Z.of_nat (length l)) j - js_clamp (Z.of_nat (length l)) i).
Proof.
  unfold js_slice. rewrite length_take, length_drop.
  pose proof (js_clamp_range (Z.of_nat (length l)) i).
  pose proof (js_clamp_range (Z.of_nat (length l)) j). lia.
Qed.

Lemma js_slice_nil i j : js_slice (@nil A) i j = [].
Proof. unfold js_slice. by rewrite drop_nil, take_nil. Qed.

Lemma js_nth_Some l i x :
  js_nth l i = Some x ↔ 0 ≤ i ∧ l !! Z.to_nat i = Some x.
Proof.
  unfold js_nth. destruct (Z.ltb_spec i 0).
  - split; [done | intros [? _]; lia].
  - split; [by intros ? | by intros [_ ?]].
Qed.

Lemma js_nth_in_range l i :
  is_Some (js_nth l i) ↔ 0 ≤ i < Z.of_nat (length l).
Proof.
  unfold js_nth. case_Z_tests.
  - split; [by intros [? ?] | lia].
  - rewrite lookup_lt_is_Some. lia.
Qed.

Lemma js_nth_lt l i x : js_nth l i = Some x → 0 ≤ i < Z.of_nat (length l).
Proof. intros Hx. apply js_nth_in_range. eauto. Qed.

Lemma js_nth_None l i :
  js_nth l i = None ↔ i < 0 ∨ Z.of_nat (length l) ≤ i.
Proof.
  rewrite eq_None_not_Some, js_nth_in_range. lia.
Qed.

Lemma js_nth_nat l (k : nat) : js_nth l (Z.of_nat k) = l !! k.
Proof. unfold js_nth. case_Z_tests; [lia|]. by rewrite Nat2Z.id. Qed.

Lemma js_nth_insert l i x :
  0 ≤ i < Z.of_nat (length l) → js_nth (<[Z.to_nat i := x]> l) i = Some x.
Proof. intros Hi. apply js_nth_Some. split; [lia|]. apply list_lookup_insert_eq. lia. Qed.

Lemma js_nth_app_last l x : js_nth (l ++ [x]) (Z.of_nat (length l)) = Some x.
Proof. rewrite js_nth_nat. apply list_lookup_middle. done. Qed.

(** A slice is a part of the array, and an index read one of its elements. *)
Lemma js_slice_sublist l i j : js_slice l i j `sublist_of` l.
Proof. unfold js_slice. etrans; [apply sublist_take | apply sublist_drop]. Qed.

Lemma js_slice_Forall (P : A → Prop) l i j : Forall P l → Forall P (js_slice l i j).
Proof.
  rewrite !Forall_forall. intros Hl x Hx. eapply Hl, elem_of_sublist, js_slice_sublist.
  done.
Qed.

Lemma js_nth_elem_of l i x : js_nth l i = Some x → x ∈ l.
Proof. intros [_ Hx]%js_nth_Some. by eapply list_elem_of_lookup_2. Qed.
End Slice.

Section FindIndex.
Context {A : Type} (p : A → bool).
Implicit Types (l : list A).

Lemma js_findIndex_range l : -1 ≤ js_findIndex p l < Z.of_nat (length l).
Proof.
  induction l as [|x l IH]; simpl; [lia|].
  destruct (p x); case_Z_tests; lia.
Qed.

(** A found index points at the first element satisfying [p]. *)
Lemma js_findIndex_found l i :
  0 ≤ i → js_findIndex p l = i →
  ∃ x, l !! Z.to_nat i = Some x ∧ p x = true ∧
       ∀ j y, (j < Z.to_nat i)%nat → l !! j = Some y → p y = false.
Proof.
  revert i. induction l as [|x l IH]; simpl; intros i Hi Hf; [lia|].
  destruct (p x) eqn:Hp.
  - subst i. exists x. split_and!; [done..|]. intros j y Hj. simpl in Hj. lia.
  - destruct (Z.ltb_spec (js_findIndex p l) 0); [lia|].
    destruct (IH (i - 1)) as (y & Hy & Hpy & Hmin); [lia..|].
    exists y. replace (Z.to_nat i) with (S (Z.to_nat (i - 1))) by lia.
    split_and!; [done..|]. intros [|j] z Hj Hz; simplify_eq/=; [done|].
    eapply Hmin; [|done]. lia.
Qed.

(** -1 is returned exactly when no element satisfies [p]. *)
Lemma js_findIndex_none l :
  js_findIndex p l = -1 ↔ Forall (λ x, p x = false) l.
Proof.
  induction l as [|x l IH]; simpl; [by split|].
  pose proof (js_findIndex_range l).
  rewrite Forall_cons, <- IH.
  destruct (p x); case_Z_tests; split; intros; destruct_and?; try done; lia.
Qed.
End FindIndex.

Lemma js_truthy_false s : js_truthy s = false ↔ s = "".
Proof. by destruct s. Qed.

Lemma js_truthy_true s : js_truthy s = true ↔ s ≠ "".
Proof. by destruct s. Qed.

(** ** [Array.prototype.filter] *)

Section Filter.
Context {A : Type} (p : A → bool).
Implicit Types (l : list A).

Lemma elem_of_List_filter l x : x ∈ List.filter p l ↔ x ∈ l ∧ p x = true.
Proof. by rewrite !list_elem_of_In, filter_In. Qed.

Lemma List_filter_sublist l : List.filter p l `sublist_of` l.
Proof. induction l as [|x l IH]; simpl; [done|]. destruct (p x); by constructor. Qed.

Lemma List_filter_Forall l : Forall (λ x, p x = true) (List.filter p l).
Proof. apply Forall_forall. by intros x [_ ?]%elem_of_List_filter. Qed.

(** Filtering keeps the images under [f] distinct. *)
Lemma List_filter_NoDup {B} (f : A → B) l :
  NoDup (f <$> l) → NoDup (f <$> List.filter p l).
Proof. intros Hd. eapply sublist_NoDup; [done|]. apply fmap_sublist, List_filter_sublist. Qed.
End Filter.

(** Adds the range of every index that is known to hold an element. *)
Ltac js_bounds :=
  repeat match goal with
    | H : js_nth ?l ?i = Some _ |- _ =>
        lazymatch goal with
        | _ : 0 ≤ i < Z.of_nat (length l) |- _ => fail
        | _ => pose proof (js_nth_lt _ _ _ H)
        end
    end.

#[export] Hint Rewrite @js_slice_nil @js_nth_app_last : explorer.
