(* ===== verification/JsString.v ===== *)
(** * JavaScript string operations used by the explorer store

    [toLowerCase] and [indexOf] (the query filter, source line 249) and the
    relational operators [<] and [>] on strings (the comparator of [sort],
    lines 153-163).  Strings are sequences of 8-bit characters; the
    operators compare them character by character by code, as JavaScript
    compares code units.  [toLowerCase] maps the letters [A] to [Z]. *)

From stdpp Require Import base tactics list strings.
From Stdlib Require Import ZArith Lia String Ascii.
From S2P Require Import Prelude.

#[local] Open Scope Z_scope.

Definition lower_ascii (c : ascii) : ascii :=
  let n := N_of_ascii c in
  if ((65 <=? n) && (n <=? 90))%N then ascii_of_N (n + 32) else c.

(** [s.toLowerCase()] *)
Fixpoint toLowerCase (s : string) : string :=
  match s with
  | EmptyString => EmptyString
  | String c s' => String (lower_ascii c) (toLowerCase s')
  end.

(** The scan of [indexOf]: [i] is the position of [s] in the whole string. *)
Fixpoint indexOf_from (i : Z) (s q : string) : Z :=
  if String.prefix q s then i
  else match s with
       | EmptyString => -1
       | String _ s' => indexOf_from (i + 1) s' q
       end.

(** [s.indexOf(q)]: the position of the first occurrence of [q], or -1. *)
Definition indexOf (s q : string) : Z := indexOf_from 0 s q.

(** [a < b] and [a > b] on strings. *)
Definition js_str_lt (a b : string) : bool :=
  match String.compare a b with Lt => true | _ => false end.

Definition js_str_gt (a b : string) : bool :=
  match String.compare a b with Gt => true | _ => false end.

(** ** [toLowerCase] *)

Lemma lower_ascii_idemp c : lower_ascii (lower_ascii c) = lower_ascii c.
Proof.
  unfold lower_ascii. pose proof (N_ascii_bounded c).
  destruct ((65 <=? N_of_ascii c) && (N_of_ascii c <=? 90))%N eqn:Hc; [|by rewrite Hc].
  apply andb_prop in Hc as [?%N.leb_le ?%N.leb_le].
  rewrite N_ascii_embedding by lia.
  destruct (N.leb_spec (N_of_ascii c + 32) 90); [lia|].
  by rewrite andb_false_r.
Qed.

Lemma toLowerCase_idemp s : toLowerCase (toLowerCase s) = toLowerCase s.
Proof. induction s as [|c s IH]; simpl; [done|]. by rewrite lower_ascii_idemp, IH. Qed.

Lemma toLowerCase_length s : String.length (toLowerCase s) = String.length s.
Proof. induction s as [|c s IH]; simpl; [done|]. by rewrite IH. Qed.

Lemma toLowerCase_app s t : toLowerCase (s +:+ t) = toLowerCase s +:+ toLowerCase t.
Proof. induction s as [|c s IH]; simpl; [done|]. by rewrite IH. Qed.

(** ** [indexOf] *)

Lemma str_app_cons c s t : String c s +:+ t = String c (s +:+ t).
Proof. done. Qed.

Lemma prefix_app q s : String.prefix q s = true ↔ ∃ post, s = q +:+ post.
Proof.
  revert s. induction q as [|a q IH]; intros s.
  - split; [intros _; by exists s | by destruct s].
  - destruct s as [|b s]; simpl; [split; [done | by intros [? ?]]|].
    destruct (ascii_dec a b) as [->|Hne].
    + rewrite IH. split; intros [post Hp]; exists post;
        rewrite str_app_cons in *; congruence.
    + split; [done|]. intros [post Hp]. rewrite str_app_cons in Hp. congruence.
Qed.

Lemma indexOf_from_nil i q :
  indexOf_from i "" q = if String.prefix q "" then i else -1.
Proof. done. Qed.

Lemma indexOf_from_cons i c s q :
  indexOf_from i (String c s) q =
  if String.prefix q (String c s) then i else indexOf_from (i + 1) s q.
Proof. done. Qed.

#[local] Opaque String.prefix.

Lemma indexOf_from_shift i s q :
  indexOf_from i s q = if indexOf_from 0 s q <? 0 then -1 else i + indexOf_from 0 s q.
Proof.
  revert i. induction s as [|c s IH]; intros i.
  - rewrite !indexOf_from_nil. destruct (String.prefix q ""); case_Z_tests; lia.
  - rewrite !indexOf_from_cons.
    destruct (String.prefix q (String c s)); [case_Z_tests; lia|].
    rewrite (IH (i + 1)), (IH (0 + 1)). case_Z_tests; lia.
Qed.

Lemma indexOf_range s q : -1 ≤ indexOf s q ≤ Z.of_nat (String.length s).
Proof.
  unfold indexOf. induction s as [|c s IH].
  - rewrite indexOf_from_nil. destruct (String.prefix q ""); simpl; lia.
  - rewrite indexOf_from_cons. cbn [String.length].
    destruct (String.prefix q (String c s)); [lia|].
    rewrite indexOf_from_shift. case_Z_tests; lia.
Qed.

(** An occurrence that is not at the head is in the tail. *)
Lemma occurs_cons c s q :
  String.prefix q (String c s) = false →
  (∃ pre post, String c s = pre +:+ q +:+ post) → ∃ pre post, s = pre +:+ q +:+ post.
Proof.
  intros Hp (pre & post & Heq). destruct pre as [|c' pre].
  - assert (String.prefix q (String c s) = true) by (apply prefix_app; eauto).
    congruence.
  - rewrite str_app_cons in Heq. simplify_eq. eauto.
Qed.

(** [indexOf] finds an occurrence exactly when there is one. *)
Lemma indexOf_found s q :
  0 ≤ indexOf s q ↔ ∃ pre post, s = pre +:+ q +:+ post.
Proof.
  unfold indexOf. induction s as [|c s IH].
  - rewrite indexOf_from_nil. destruct (String.prefix q "") eqn:Hp.
    + apply prefix_app in Hp as [post Hp]. split; [|lia]. intros _. by exists "", post.
    + split; [lia|]. intros (pre & post & Heq). destruct pre; [|done].
      assert (String.prefix q "" = true) by (apply prefix_app; eauto). congruence.
  - rewrite indexOf_from_cons. destruct (String.prefix q (String c s)) eqn:Hp.
    + apply prefix_app in Hp as [post Hp]. split; [|lia]. intros _. by exists "", post.
    + rewrite indexOf_from_shift.
      destruct (Z.ltb_spec (indexOf_from 0 s q) 0) as [Hneg|Hpos].
      * split; [lia|]. intros Hocc%occurs_cons; [|done]. apply IH in Hocc. lia.
      * split; [|lia]. intros _. apply IH in Hpos as (pre & post & ->).
        by exists (String c pre), post.
Qed.

#[local] Transparent String.prefix.

Lemma indexOf_empty s : indexOf s "" = 0.
Proof. unfold indexOf. by destruct s. Qed.

(** ** The order on strings *)

Lemma ascii_compare_spec a b :
  CompareSpec (a = b) (N_of_ascii a < N_of_ascii b)%N
    (N_of_ascii b < N_of_ascii a)%N (Ascii.compare a b).
Proof.
  unfold Ascii.compare. destruct (N.compare_spec (N_of_ascii a) (N_of_ascii b)) as [Heq| |];
    constructor; try done.
  by rewrite <- (ascii_N_embedding a), <- (ascii_N_embedding b), Heq.
Qed.

Lemma str_compare_refl s : String.compare s s = Eq.
Proof.
  induction s as [|c s IH]; simpl; [done|].
  destruct (ascii_compare_spec c c); [done | lia | lia].
Qed.

Lemma str_compare_eq s t : String.compare s t = Eq ↔ s = t.
Proof. split; [apply String.compare_eq_iff | intros ->; apply str_compare_refl]. Qed.

Lemma str_compare_lt_gt s t : String.compare s t = Lt ↔ String.compare t s = Gt.
Proof. rewrite (String.compare_antisym t s). by destruct (String.compare s t). Qed.

Lemma str_compare_lt_trans s t u :
  String.compare s t = Lt → String.compare t u = Lt → String.compare s u = Lt.
Proof.
  revert t u. induction s as [|a s IH]; intros [|b t] [|c u]; simpl; try done.
  destruct (ascii_compare_spec a b), (ascii_compare_spec b c),
    (ascii_compare_spec a c); subst; try done; try lia; eauto.
Qed.

Lemma js_str_lt_irrefl s : js_str_lt s s = false.
Proof. unfold js_str_lt. by rewrite str_compare_refl. Qed.

Lemma js_str_gt_lt a b : js_str_gt a b = js_str_lt b a.
Proof.
  unfold js_str_gt, js_str_lt. rewrite (String.compare_antisym a b).
  by destruct (String.compare b a).
Qed.

Lemma js_str_lt_trans a b c :
  js_str_lt a b = true → js_str_lt b c = true → js_str_lt a c = true.
Proof.
  unfold js_str_lt. intros H1 H2.
  rewrite (str_compare_lt_trans a b c); [done|..].
  - by destruct (String.compare a b).
  - by destruct (String.compare b c).
Qed.

Lemma js_str_lt_asym a b : js_str_lt a b = true → js_str_lt b a = false.
Proof.
  unfold js_str_lt. rewrite (String.compare_antisym a b).
  by destruct (String.compare b a).
Qed.

(** Neither [a < b] nor [a > b] only for equal strings. *)
Lemma js_str_trichotomy a b :
  js_str_lt a b = false → js_str_gt a b = false → a = b.
Proof.
  unfold js_str_lt, js_str_gt. destruct (String.compare a b) eqn:Hc; try done.
  intros _ _. by apply str_compare_eq.
Qed.

Lemma js_truthy_toLowerCase s : js_truthy (toLowerCase s) = js_truthy s.
Proof. by destruct s. Qed.

#[export] Hint Rewrite toLowerCase_idemp js_truthy_toLowerCase indexOf_empty
  js_str_lt_irrefl : explorer.
