(* ===== verification/Act.v ===== *)
(** * The monad of Vuex actions

    An action handler reads and writes the store and may raise.  A raise
    does not undo the mutations committed before it, so an outcome carries
    the store in both cases.  [try_catch] models [try { } catch (e) { }].
    The file also gives the pointwise equality of computations with its
    [Proper] instances, and a small Hoare logic used for invariants. *)

From stdpp Require Import base tactics.
From S2P Require Import Prelude.

Inductive outcome (S E A : Type) : Type :=
| Done (a : A) (s : S)
| Raised (e : E) (s : S).
Arguments Done {S E A} a s.
Arguments Raised {S E A} e s.

Definition act (S E A : Type) : Type := S → outcome S E A.

Definition final {S E A} (o : outcome S E A) : S :=
  match o with Done _ s => s | Raised _ s => s end.

Definition raised {S E A} (o : outcome S E A) : bool :=
  match o with Done _ _ => false | Raised _ _ => true end.

Definition ret {S E A} (a : A) : act S E A := λ s, Done a s.

Definition bind {S E A B} (m : act S E A) (k : A → act S E B) : act S E B :=
  λ s, match m s with
       | Done a s' => k a s'
       | Raised e s' => Raised e s'
       end.

Definition gets {S E A} (f : S → A) : act S E A := λ s, Done (f s) s.

Definition modify {S E} (f : S → S) : act S E unit := λ s, Done tt (f s).

Definition throw {S E A} (e : E) : act S E A := λ s, Raised e s.

Definition try_catch {S E A} (m : act S E A) (h : E → act S E A) : act S E A :=
  λ s, match m s with
       | Done a s' => Done a s'
       | Raised e s' => h e s'
       end.

(** [if (b) { m }] *)
Definition when {S E} (b : bool) (m : act S E unit) : act S E unit :=
  if b then m else ret tt.

Declare Scope act_scope.
Delimit Scope act_scope with act.
Bind Scope act_scope with act.

Notation "'let*' x ':=' m 'in' k" := (bind m (λ x, k))
  (at level 10, x name, m at level 100, k at level 200,
   format "'[v' 'let*'  x  ':='  m  'in' '/' k ']'") : act_scope.
Notation "m ;; k" := (bind m (λ _, k))
  (at level 100, k at level 200, right associativity) : act_scope.

(** Pointwise equality of computations. *)
Definition act_eq {S E A} (m1 m2 : act S E A) : Prop := ∀ s, m1 s = m2 s.
Infix "≃" := act_eq (at level 70, no associativity) : act_scope.

#[local] Open Scope act_scope.

(** A Hoare triple with a normal and an exceptional postcondition. *)
Definition hoare {S E A} (P : S → Prop) (m : act S E A)
    (Q : A → S → Prop) (R : E → S → Prop) : Prop :=
  ∀ s, P s → match m s with Done a s' => Q a s' | Raised e s' => R e s' end.

(** [m] never raises from a store satisfying [P]. *)
Definition no_raise {S E A} (P : S → Prop) (m : act S E A) : Prop :=
  ∀ s, P s → raised (m s) = false.

(** [m] keeps [I] whether it returns or raises. *)
Definition preserves {S E A} (I : S → Prop) (m : act S E A) : Prop :=
  ∀ s, I s → I (final (m s)).

Section Laws.
Context {S E : Type}.

#[export] Instance act_eq_equiv {A} : Equivalence (@act_eq S E A).
Proof.
  split.
  - by intros m s.
  - by intros m1 m2 H s.
  - intros m1 m2 m3 H1 H2 s. by rewrite H1.
Qed.

#[export] Instance bind_proper {A B} :
  Proper (act_eq ==> pointwise_relation A act_eq ==> act_eq) (@bind S E A B).
Proof.
  intros m1 m2 Hm k1 k2 Hk s. unfold bind. rewrite Hm.
  destruct (m2 s); [apply Hk | done].
Qed.

#[export] Instance try_catch_proper {A} :
  Proper (act_eq ==> pointwise_relation E act_eq ==> act_eq) (@try_catch S E A).
Proof.
  intros m1 m2 Hm h1 h2 Hh s. unfold try_catch. rewrite Hm.
  destruct (m2 s); [done | apply Hh].
Qed.

Lemma bind_ret_l {A B} (a : A) (k : A → act S E B) : bind (ret a) k ≃ k a.
Proof. done. Qed.

Lemma bind_ret_r {A} (m : act S E A) : bind m ret ≃ m.
Proof. intros s. unfold bind. by destruct (m s). Qed.

Lemma bind_assoc {A B C} (m : act S E A) (k : A → act S E B) (h : B → act S E C) :
  bind (bind m k) h ≃ bind m (λ a, bind (k a) h).
Proof. intros s. unfold bind. by destruct (m s). Qed.

Lemma bind_throw {A B} (e : E) (k : A → act S E B) : bind (throw e) k ≃ throw e.
Proof. done. Qed.

Lemma try_catch_ret {A} (a : A) (h : E → act S E A) : try_catch (ret a) h ≃ ret a.
Proof. done. Qed.

Lemma try_catch_throw {A} (e : E) (h : E → act S E A) :
  try_catch (throw e) h ≃ h e.
Proof. done. Qed.

(** Running a bind when the first computation's outcome is known. *)
Lemma bind_Done {A B} (m : act S E A) (k : A → act S E B) s a s' :
  m s = Done a s' → bind m k s = k a s'.
Proof. unfold bind. by intros ->. Qed.

Lemma bind_Raised {A B} (m : act S E A) (k : A → act S E B) s e s' :
  m s = Raised e s' → bind m k s = Raised e s'.
Proof. unfold bind. by intros ->. Qed.

(** The rules of the Hoare logic. *)
Lemma hoare_ret {A} (Q : A → S → Prop) (R : E → S → Prop) (a : A) : hoare (Q a) (ret a) Q R.
Proof. by intros s. Qed.

Lemma hoare_throw {A} (Q : A → S → Prop) (R : E → S → Prop) e :
  hoare (R e) (throw e) Q R.
Proof. by intros s. Qed.

Lemma hoare_gets {A} (f : S → A) (Q : A → S → Prop) (R : E → S → Prop) :
  hoare (λ s, Q (f s) s) (gets f) Q R.
Proof. by intros s. Qed.

Lemma hoare_modify (f : S → S) (Q : unit → S → Prop) (R : E → S → Prop) :
  hoare (λ s, Q tt (f s)) (modify f) Q R.
Proof. by intros s. Qed.

Lemma hoare_bind {A B} P (m : act S E A) (k : A → act S E B) M Q R :
  hoare P m M R → (∀ a, hoare (M a) (k a) Q R) → hoare P (bind m k) Q R.
Proof.
  intros Hm Hk s Hs. unfold bind. specialize (Hm s Hs).
  destruct (m s); [by apply Hk | done].
Qed.

Lemma hoare_try_catch {A} P (m : act S E A) h Q R R' :
  hoare P m Q R' → (∀ e, hoare (R' e) (h e) Q R) → hoare P (try_catch m h) Q R.
Proof.
  intros Hm Hh s Hs. unfold try_catch. specialize (Hm s Hs).
  destruct (m s); [done | by apply Hh].
Qed.

Lemma hoare_when P (b : bool) (m : act S E unit) (Q : unit → S → Prop) R :
  (b = true → hoare P m Q R) → (b = false → ∀ s, P s → Q tt s) →
  hoare P (when b m) Q R.
Proof. destruct b; simpl; intros Ht Hf; [by apply Ht | intros s Hs; by apply Hf]. Qed.

Lemma hoare_conseq {A} (P P' : S → Prop) (m : act S E A)
    (Q Q' : A → S → Prop) (R R' : E → S → Prop) :
  hoare P' m Q' R' → (∀ s, P s → P' s) →
  (∀ a s, Q' a s → Q a s) → (∀ e s, R' e s → R e s) → hoare P m Q R.
Proof.
  intros Hm HP HQ HR s Hs. specialize (Hm s (HP s Hs)).
  destruct (m s); [by apply HQ | by apply HR].
Qed.

(** Every computation ends in one of its two exits. *)
Lemma hoare_any {A} (P : S → Prop) (m : act S E A) :
  hoare P m (λ _ _, True) (λ _ _, True).
Proof. intros s _. by destruct (m s). Qed.

(** A write never raises. *)
Lemma hoare_modify_any (P : S → Prop) (f : S → S) (R : E → S → Prop) :
  hoare P (modify f) (λ _ _, True) R.
Proof. by intros s _. Qed.

(** A computation that does not raise returns its final state. *)
Lemma no_raise_Done (m : act S E unit) s :
  no_raise (λ _, True) m → m s = Done tt (final (m s)).
Proof. intros Hm. specialize (Hm s I). by destruct (m s) as [[] ?|]. Qed.

Lemma hoare_weaken {A} (P P' : S → Prop) (m : act S E A) Q R :
  hoare P' m Q R → (∀ s, P s → P' s) → hoare P m Q R.
Proof. intros Hm HP. by apply (hoare_conseq P P' m Q Q R R). Qed.

(** Reading the store names the value read in the precondition. *)
Lemma hoare_bind_gets {A B} (f : S → A) (k : A → act S E B) P Q R :
  (∀ x, hoare (λ s, P s ∧ f s = x) (k x) Q R) → hoare P (bind (gets f) k) Q R.
Proof. intros Hk s Hs. unfold bind, gets. by apply (Hk (f s)). Qed.

Lemma hoare_if {A} (b : bool) (m1 m2 : act S E A) P Q R :
  (b = true → hoare P m1 Q R) → (b = false → hoare P m2 Q R) →
  hoare P (if b then m1 else m2) Q R.
Proof. destruct b; auto. Qed.

(** A computation known to return satisfies any exceptional postcondition. *)
Lemma hoare_returns {A} P (m : act S E A) (I : S → Prop) R :
  (∀ s, P s → raised (m s) = false ∧ I (final (m s))) → hoare P m (λ _, I) R.
Proof. intros H s Hs. destruct (H s Hs) as [Hr Hi]. by destruct (m s). Qed.

(** What a triple says of the final store and of a raise. *)
Lemma hoare_final {A} P (m : act S E A) (I : S → Prop) R s :
  hoare P m (λ _, I) R → (∀ e s', R e s' → I s') → P s → I (final (m s)).
Proof. intros Hm HR Hs. specialize (Hm s Hs). destruct (m s); [done | by eapply HR]. Qed.

Lemma hoare_raised {A} P (m : act S E A) Q R s e s' :
  hoare P m Q R → P s → m s = Raised e s' → R e s'.
Proof. intros Hm Hs Heq. specialize (Hm s Hs). by rewrite Heq in Hm. Qed.

Lemma hoare_proper {A} P (m1 m2 : act S E A) Q R :
  m1 ≃ m2 → hoare P m1 Q R → hoare P m2 Q R.
Proof. intros Hm H s Hs. rewrite <- Hm. by apply H. Qed.

(** An invariant kept on both exits is kept. *)
Lemma hoare_preserves {A} (I : S → Prop) (m : act S E A) :
  hoare I m (λ _, I) (λ _, I) ↔ preserves I m.
Proof.
  unfold hoare, preserves.
  split; intros H s Hs; specialize (H s Hs); by destruct (m s).
Qed.

Lemma hoare_no_raise {A} (P : S → Prop) (m : act S E A) :
  hoare P m (λ _ _, True) (λ _ _, False) ↔ no_raise P m.
Proof.
  unfold hoare, no_raise.
  split; intros H s Hs; specialize (H s Hs); by destruct (m s).
Qed.
End Laws.

#[export] Hint Resolve hoare_ret hoare_throw hoare_gets hoare_modify : explorer.
