(* ===== verification/Model.v ===== *)
(** * Data, mutations and getters of the explorer store

    The module state (source lines 15-24), its mutations (lines 189-224)
    and its getters (lines 225-262), with the values that live outside the
    module: the root store's [directory], the module variable [watcher]
    (line 11), the table [sortReversed] (lines 5-9), and the collaborators
    the module imports, as the record [Env]. *)

From stdpp Require Import base tactics list strings gmap.
From Stdlib Require Import ZArith Lia.
From S2P Require Import Prelude JsString Act.

#[local] Open Scope Z_scope.

(** ** Data *)

(** What [File.prototype.toObject] returns for one filesystem node. *)
Module Entry.
Record t := mk {
  path : string;
  name : string;
  size : Z;
  mtime : Z;
  isDirectory : bool;
  isImage : bool
}.
End Entry.

(** A [File] object, by what the module reads of it: [file.path],
    [file.parent.path], [file.isDirectory()], [file.isImage()] and
    [file.toObject()]. *)
Module File.
Record t := mk {
  path : string;
  parentPath : string;
  isDirectory : bool;
  isImage : bool;
  toObject : Entry.t
}.
End File.

(** A history record.  [directory] is [None] when the record has no such
    property, which [setScrollTop] produces from a missing record. *)
Module History.
Record t := mk {
  directory : option string;
  scrollTop : Z
}.
End History.

Module SortOption.
Record t := mk {
  key : string;
  descending : bool
}.
End SortOption.

(** The module state, lines 15-24. *)
Record State := mkState {
  items : list Entry.t;
  directoryInput : option string;
  query : string;
  queryInput : string;
  selectedFilepath : string;
  histories : list History.t;
  historyIndex : Z;
  sortOptions : gmap string SortOption.t
}.

Definition init_state : State :=
  {| items := []; directoryInput := Some ""; query := ""; queryInput := "";
     selectedFilepath := ""; histories := []; historyIndex := -1;
     sortOptions := ∅ |}.

(** The names every object literal inherits from [Object.prototype]; a
    lookup of one of them in a literal that does not define it finds the
    inherited function or object, which is truthy. *)
Definition object_prototype_keys : list string :=
  ["constructor"; "hasOwnProperty"; "isPrototypeOf"; "propertyIsEnumerable";
   "toLocaleString"; "toString"; "valueOf"; "__proto__"; "__defineGetter__";
   "__defineSetter__"; "__lookupGetter__"; "__lookupSetter__"].

(** The table of lines 5-9: [sortReversed[key]] as a truth value. *)
Definition sortReversed (key : string) : bool :=
  if decide (key = "name") then false
  else if decide (key = "size") then false
  else if decide (key = "mtime") then true
  else bool_decide (key ∈ object_prototype_keys).

(** The collaborators outside the module.  A [None] argument is
    [undefined]; [listFiles] returns [None] when it raises. *)
Record Env := mkEnv {
  new_File : option string → File.t;
  listFiles : option string → bool → option (list File.t);
  fs_watch_ok : option string → bool;
  home : string;
  openItem : option string → bool
}.

(** Calls that leave the module, in the order they are made. *)
Inductive Event :=
| WatchClosed (h : nat)
| WatchOpened (h : nat) (dir : option string)
| FocusExplorerTable
| ShowMessage (message : string)
| ViewerShow (filepathes : list string) (currentFilepath : option string)
| OpenItem (dir : option string).

Inductive Exn :=
| TypeError (reading : string)
| FsError (dir : option string).

(** Everything an action can read or write. *)
Record Store := mkStore {
  state : State;
  directory : option string;
  watcher : option nat;
  live : gmap nat (option string);
  next_watch : nat;
  env : Env;
  trace : list Event
}.

Definition init_store (dir : option string) (e : Env) : Store :=
  {| state := init_state; directory := dir; watcher := None; live := ∅;
     next_watch := 0; env := e; trace := [] |}.

#[export] Instance Event_eq_dec : EqDecision Event.
Proof. solve_decision. Defined.
#[export] Instance Exn_eq_dec : EqDecision Exn.
Proof. solve_decision. Defined.
#[export] Instance History_eq_dec : EqDecision History.t.
Proof. solve_decision. Defined.
#[export] Instance SortOption_eq_dec : EqDecision SortOption.t.
Proof. solve_decision. Defined.
#[export] Instance Entry_eq_dec : EqDecision Entry.t.
Proof. solve_decision. Defined.

(** ** Mutations, lines 189-224 *)

Definition setItems (its : list Entry.t) (s : State) : State :=
  {| items := its; directoryInput := directoryInput s; query := query s;
     queryInput := queryInput s; selectedFilepath := selectedFilepath s;
     histories := histories s; historyIndex := historyIndex s;
     sortOptions := sortOptions s |}.

Definition setDirectoryInput (d : option string) (s : State) : State :=
  {| items := items s; directoryInput := d; query := query s;
     queryInput := queryInput s; selectedFilepath := selectedFilepath s;
     histories := histories s; historyIndex := historyIndex s;
     sortOptions := sortOptions s |}.

Definition setQuery (q : string) (s : State) : State :=
  {| items := items s; directoryInput := directoryInput s; query := q;
     queryInput := queryInput s; selectedFilepath := selectedFilepath s;
     histories := histories s; historyIndex := historyIndex s;
     sortOptions := sortOptions s |}.

Definition setQueryInput (q : string) (s : State) : State :=
  {| items := items s; directoryInput := directoryInput s; query := query s;
     queryInput := q; selectedFilepath := selectedFilepath s;
     histories := histories s; historyIndex := historyIndex s;
     sortOptions := sortOptions s |}.

Definition setSelectedFilepath (p : string) (s : State) : State :=
  {| items := items s; directoryInput := directoryInput s; query := query s;
     queryInput := queryInput s; selectedFilepath := p;
     histories := histories s; historyIndex := historyIndex s;
     sortOptions := sortOptions s |}.

Definition setHistories (hs : list History.t) (s : State) : State :=
  {| items := items s; directoryInput := directoryInput s; query := query s;
     queryInput := queryInput s; selectedFilepath := selectedFilepath s;
     histories := hs; historyIndex := historyIndex s;
     sortOptions := sortOptions s |}.

(** Lines 205-211: the record at [index] is replaced by splicing two
    slices around the new record. *)
Definition setHistory (history : History.t) (index : Z) (s : State) : State :=
  setHistories
    (js_slice (histories s) 0 index ++ [history] ++
     js_slice (histories s) (index + 1) (Z.of_nat (length (histories s)))) s.

Definition setHistoryIndex (i : Z) (s : State) : State :=
  {| items := items s; directoryInput := directoryInput s; query := query s;
     queryInput := queryInput s; selectedFilepath := selectedFilepath s;
     histories := histories s; historyIndex := i;
     sortOptions := sortOptions s |}.

(** Lines 218-223: the computed key is the string of the directory. *)
Definition setSortOption (o : SortOption.t) (key : option string) (s : State) : State :=
  {| items := items s; directoryInput := directoryInput s; query := query s;
     queryInput := queryInput s; selectedFilepath := selectedFilepath s;
     histories := histories s; historyIndex := historyIndex s;
     sortOptions := <[js_to_string key := o]> (sortOptions s) |}.

(** The root store's mutation [setDirectory]. *)
Definition setDirectory (d : option string) (σ : Store) : Store :=
  {| state := state σ; directory := d; watcher := watcher σ; live := live σ;
     next_watch := next_watch σ; env := env σ; trace := trace σ |}.

(** ** Getters, lines 225-262 *)

Definition backDirectories (s : State) : list (option string) :=
  History.directory <$> reverse (js_slice (histories s) 0 (historyIndex s)).

Definition forwardDirectories (s : State) : list (option string) :=
  History.directory <$>
    js_slice (histories s) (historyIndex s + 1) (Z.of_nat (length (histories s))).

Definition canBackDirectory (s : State) : bool := historyIndex s >? 0.

Definition canForwardDirectory (s : State) : bool :=
  historyIndex s <? Z.of_nat (length (histories s)) - 1.

(** Line 239 reads a property of [histories[historyIndex]]: a [TypeError]
    when there is no such record. *)
Definition scrollTop (s : State) : Exn + Z :=
  match js_nth (histories s) (historyIndex s) with
  | Some h => inr (History.scrollTop h)
  | None => inl (TypeError "scrollTop")
  end.

(** [state.directory] in the getter of line 242: the module state of lines
    15-24 has no property [directory], so the read gives [undefined]. *)
Definition state_directory (s : State) : option string := None.

Definition default_sortOption : SortOption.t :=
  {| SortOption.key := "name"; SortOption.descending := false |}.

Definition sortOption (s : State) : SortOption.t :=
  default default_sortOption (sortOptions s !! js_to_string (state_directory s)).

Definition matches_query (q : string) (file : Entry.t) : bool :=
  negb (js_truthy q) || (indexOf (toLowerCase (Entry.name file)) (toLowerCase q) >? -1).

Definition filteredItems (s : State) : list Entry.t :=
  List.filter (matches_query (query s)) (items s).

Definition isSelected (s : State) (filepath : string) : bool :=
  bool_decide (selectedFilepath s = filepath).

Definition selectedIndex (s : State) : Z :=
  js_findIndex (λ file, isSelected s (Entry.path file)) (filteredItems s).
