(* ===== verification/SortEngine.v ===== *)
(** * The sort engine

    The comparator of the [sort] action (source lines 150-167) and
    [Array.prototype.sort], which the language leaves to its
    implementation: the interface [ArraySort] states what every
    implementation guarantees for a consistent comparator, and two
    implementations discharge it.  The theorems on the order of the listing
    are proved against the interface. *)

From stdpp Require Import base tactics list strings gmap sorting.
From Stdlib Require Import ZArith Lia.
From S2P Require Import Prelude JsString Act Model.

#[local] Open Scope Z_scope.

(** ** The comparator *)

(** A property of an entry, by the type of its values. *)
Inductive Field :=
| FStr (get : Entry.t → string)
| FNum (get : Entry.t → Z)
| FBool (get : Entry.t → bool)
| FNone.

(** [a[key]]: the properties an entry has; any other key reads [undefined]
    or an inherited function, the same for both operands. *)
Definition field_of_key (key : string) : Field :=
  if decide (key = "path") then FStr Entry.path
  else if decide (key = "name") then FStr Entry.name
  else if decide (key = "size") then FNum Entry.size
  else if decide (key = "mtime") then FNum Entry.mtime
  else if decide (key = "isDirectory") then FBool Entry.isDirectory
  else if decide (key = "isImage") then FBool Entry.isImage
  else FNone.

(** [a[key] > b[key]] and [a[key] < b[key]]. *)
Definition field_gt (key : string) (a b : Entry.t) : bool :=
  match field_of_key key with
  | FStr get => js_str_gt (get a) (get b)
  | FNum get => get a >? get b
  | FBool get => Z.b2z (get a) >? Z.b2z (get b)
  | FNone => false
  end.

Definition field_lt (key : string) (a b : Entry.t) : bool :=
  match field_of_key key with
  | FStr get => js_str_lt (get a) (get b)
  | FNum get => get a <? get b
  | FBool get => Z.b2z (get a) <? Z.b2z (get b)
  | FNone => false
  end.

(** The function passed to [sort], lines 150-167. *)
Definition compareItems (o : SortOption.t) (a b : Entry.t) : Z :=
  let key := SortOption.key o in
  let result :=
    if field_gt key a b then 1
    else if field_lt key a b then -1
    else 0 in
  let result :=
    if result =? 0 then
      if js_str_gt (Entry.name a) (Entry.name b) then 1
      else if js_str_lt (Entry.name a) (Entry.name b) then -1
      else 0
    else result in
  let result := if sortReversed key then -1 * result else result in
  if SortOption.descending o then -1 * result else result.

(** ** [Array.prototype.sort] *)

(** A consistent comparator: its sign is antisymmetric and [≤ 0] is
    transitive. *)
Definition consistent {A} (cmp : A → A → Z) : Prop :=
  (∀ a b, Z.sgn (cmp a b) = - Z.sgn (cmp b a)) ∧
  (∀ a b c, cmp a b ≤ 0 → cmp b c ≤ 0 → cmp a c ≤ 0).

(** The order a comparator denotes: [a] may stand before [b]. *)
Definition cmp_le {A} (cmp : A → A → Z) : relation A := λ a b, cmp a b ≤ 0.

#[export] Instance cmp_le_dec {A} (cmp : A → A → Z) : RelDecision (cmp_le cmp).
Proof. intros a b. unfold cmp_le. apply _. Defined.

(** What the language promises of [sort] with a consistent comparator. *)
Class ArraySort := {
  array_sort : ∀ {A}, (A → A → Z) → list A → list A;
  array_sort_perm : ∀ {A} (cmp : A → A → Z) l, array_sort cmp l ≡ₚ l;
  array_sort_sorted : ∀ {A} (cmp : A → A → Z) l,
    consistent cmp → StronglySorted (cmp_le cmp) (array_sort cmp l)
}.

(** Insertion sort, stable: an element goes before the first one it does
    not exceed. *)
Fixpoint insert_sorted {A} (cmp : A → A → Z) (x : A) (l : list A) : list A :=
  match l with
  | [] => [x]
  | y :: l' => if cmp x y <=? 0 then x :: l else y :: insert_sorted cmp x l'
  end.

Definition insertion_sort {A} (cmp : A → A → Z) (l : list A) : list A :=
  foldr (insert_sorted cmp) [] l.

(** Merge sort, by the order [cmp a b ≤ 0]. *)
Definition merge_sort_by {A} (cmp : A → A → Z) (l : list A) : list A :=
  merge_sort (cmp_le cmp) l.

(** ** The two implementations satisfy the interface *)

Section Implementations.
Context {A : Type} (cmp : A → A → Z).
Implicit Types (l : list A) (x y : A).

Lemma consistent_total : consistent cmp → Total (cmp_le cmp).
Proof.
  intros [Hsgn _] a b. unfold cmp_le. specialize (Hsgn a b).
  destruct (Z.le_gt_cases (cmp a b) 0); [by left | right; lia].
Qed.

Lemma consistent_trans : consistent cmp → Transitive (cmp_le cmp).
Proof. intros [_ Htr] a b c. apply Htr. Qed.

Lemma consistent_refl : consistent cmp → Reflexive (cmp_le cmp).
Proof. intros [Hsgn _] a. unfold cmp_le. specialize (Hsgn a a). lia. Qed.

Lemma insert_sorted_perm x l : insert_sorted cmp x l ≡ₚ x :: l.
Proof.
  induction l as [|y l IH]; simpl; [done|].
  destruct (cmp x y <=? 0); [done|]. by rewrite IH, Permutation_swap.
Qed.

Lemma insertion_sort_perm l : insertion_sort cmp l ≡ₚ l.
Proof.
  induction l as [|x l IH]; simpl; [done|].
  by rewrite insert_sorted_perm, IH.
Qed.

Lemma insert_sorted_sorted x l :
  consistent cmp → StronglySorted (cmp_le cmp) l →
  StronglySorted (cmp_le cmp) (insert_sorted cmp x l).
Proof.
  intros Hc. pose proof (consistent_trans Hc). pose proof (consistent_total Hc).
  induction 1 as [|y l Hl IH Hy]; simpl; [repeat constructor|].
  destruct (Z.leb_spec (cmp x y) 0) as [Hxy|Hxy].
  - constructor; [by constructor|]. constructor; [done|].
    eapply Forall_impl; [done|]. intros z Hz. by trans y.
  - constructor; [done|]. rewrite insert_sorted_perm. constructor; [|done].
    destruct (total (cmp_le cmp) y x); [done|]. unfold cmp_le in *. lia.
Qed.

Lemma insertion_sort_sorted l :
  consistent cmp → StronglySorted (cmp_le cmp) (insertion_sort cmp l).
Proof.
  intros Hc. induction l as [|x l IH]; simpl; [constructor|].
  by apply insert_sorted_sorted.
Qed.

Lemma merge_sort_by_perm l : merge_sort_by cmp l ≡ₚ l.
Proof. apply merge_sort_Permutation. Qed.

Lemma merge_sort_by_sorted l :
  consistent cmp → StronglySorted (cmp_le cmp) (merge_sort_by cmp l).
Proof.
  intros Hc. pose proof (consistent_trans Hc). pose proof (consistent_total Hc).
  by apply StronglySorted_merge_sort.
Qed.
End Implementations.

(** Insertion sort is what the engine runs on short arrays, and the
    implementation the concrete runs use. *)
#[export] Instance insertion_ArraySort : ArraySort :=
  {| array_sort := @insertion_sort;
     array_sort_perm := @insertion_sort_perm;
     array_sort_sorted := @insertion_sort_sorted |}.

Definition merge_ArraySort : ArraySort :=
  {| array_sort := @merge_sort_by;
     array_sort_perm := @merge_sort_by_perm;
     array_sort_sorted := @merge_sort_by_sorted |}.

(** ** The comparator as a lexicographic order *)

(** A three-way comparison that comes from a total preorder: its sign is
    antisymmetric, [Lt] is transitive and [Eq] is a congruence. *)
Class OrderCmp {A} (c : A → A → comparison) := {
  cmp_antisym a b : c a b = CompOpp (c b a);
  cmp_trans a b d : c a b = Lt → c b d = Lt → c a d = Lt;
  cmp_eq_l a b d : c a b = Eq → c a d = c b d
}.
Arguments cmp_antisym {A} c {_} a b.
Arguments cmp_trans {A} c {_} a b d.
Arguments cmp_eq_l {A} c {_} a b d.

(** [a[key]] against [b[key]], three ways. *)
Definition field_compare (key : string) (a b : Entry.t) : comparison :=
  match field_of_key key with
  | FStr get => String.compare (get a) (get b)
  | FNum get => Z.compare (get a) (get b)
  | FBool get => Z.compare (Z.b2z (get a)) (Z.b2z (get b))
  | FNone => Eq
  end.

Definition name_compare (a b : Entry.t) : comparison :=
  String.compare (Entry.name a) (Entry.name b).

Definition lex (c1 c2 : comparison) : comparison :=
  match c1 with Eq => c2 | _ => c1 end.

Definition Z_of_comparison (c : comparison) : Z :=
  match c with Lt => -1 | Eq => 0 | Gt => 1 end.

Definition sign (flip : bool) : Z := if flip then -1 else 1.

Section OrderCmp.
Context {A : Type}.
Implicit Types (c : A → A → comparison) (cmp : A → A → Z).

Lemma cmp_eq_sym c `{!OrderCmp c} a b : c a b = Eq → c b a = Eq.
Proof. rewrite (cmp_antisym c b a). by intros ->. Qed.

Lemma cmp_le_trans c `{!OrderCmp c} a b d :
  c a b ≠ Gt → c b d ≠ Gt → c a d ≠ Gt.
Proof.
  intros Hab Hbd. destruct (c a b) eqn:E1; [| |done].
  - by rewrite (cmp_eq_l c a b d).
  - destruct (c b d) eqn:E2; [| |done].
    + apply cmp_eq_sym in E2; [|done].
      rewrite (cmp_antisym c a d), (cmp_eq_l c d b a E2).
      by rewrite (cmp_antisym c b a), E1.
    + by rewrite (cmp_trans c a b d).
Qed.

#[export] Instance lex_OrderCmp c1 c2 `{!OrderCmp c1, !OrderCmp c2} :
  OrderCmp (λ a b, lex (c1 a b) (c2 a b)).
Proof.
  split.
  - intros a b. rewrite (cmp_antisym c1 a b), (cmp_antisym c2 a b).
    by destruct (c1 b a).
  - intros a b d. unfold lex.
    destruct (c1 a b) eqn:E1, (c1 b d) eqn:E2; try done; intros H1 H2.
    + by rewrite (cmp_eq_l c1 a b d E1), E2, (cmp_trans c2 a b d).
    + by rewrite (cmp_eq_l c1 a b d E1), E2.
    + apply cmp_eq_sym in E2; [|done].
      rewrite (cmp_antisym c1 a d), (cmp_eq_l c1 d b a E2).
      by rewrite (cmp_antisym c1 b a), E1.
    + by rewrite (cmp_trans c1 a b d E1 E2).
  - intros a b d. unfold lex. destruct (c1 a b) eqn:E1; [|done..]. intros E2.
    by rewrite (cmp_eq_l c1 a b d E1), (cmp_eq_l c2 a b d E2).
Qed.

Lemma consistent_ext cmp1 cmp2 :
  (∀ a b, cmp1 a b = cmp2 a b) → consistent cmp2 → consistent cmp1.
Proof.
  intros Heq [Hs Ht]. split; [intros a b | intros a b d]; rewrite !Heq; eauto.
Qed.

Lemma consistent_OrderCmp c `{!OrderCmp c} :
  consistent (λ a b, Z_of_comparison (c a b)).
Proof.
  split.
  - intros a b. rewrite (cmp_antisym c a b). by destruct (c b a).
  - intros a b d Hab Hbd. pose proof (cmp_le_trans c a b d).
    destruct (c a b), (c b d), (c a d); simpl in *; try lia; naive_solver.
Qed.

Lemma consistent_sign flip cmp :
  consistent cmp → consistent (λ a b, sign flip * cmp a b).
Proof.
  intros [Hs Ht]. destruct flip; unfold sign; split.
  - intros a b. specialize (Hs a b). lia.
  - intros a b d Hab Hbd. pose proof (Hs a b). pose proof (Hs b d).
    pose proof (Hs a d). pose proof (Ht d b a). lia.
  - intros a b. specialize (Hs a b). lia.
  - intros a b d Hab Hbd. pose proof (Ht a b d). lia.
Qed.
End OrderCmp.

#[export] Instance string_OrderCmp {A} (get : A → string) :
  OrderCmp (λ a b, String.compare (get a) (get b)).
Proof.
  split.
  - intros a b. apply String.compare_antisym.
  - intros a b d. apply str_compare_lt_trans.
  - intros a b d Heq%str_compare_eq. by rewrite Heq.
Qed.

#[export] Instance Z_OrderCmp {A} (get : A → Z) :
  OrderCmp (λ a b, Z.compare (get a) (get b)).
Proof.
  split.
  - intros a b. apply Z.compare_antisym.
  - intros a b d. rewrite !Z.compare_lt_iff. lia.
  - intros a b d Heq%Z.compare_eq. by rewrite Heq.
Qed.

#[export] Instance const_OrderCmp {A} : OrderCmp (λ _ _ : A, Eq).
Proof. by split. Qed.

#[export] Instance field_OrderCmp key : OrderCmp (field_compare key).
Proof. unfold field_compare. destruct (field_of_key key); apply _. Qed.

#[export] Instance name_OrderCmp : OrderCmp name_compare.
Proof. unfold name_compare. apply _. Qed.

(** The operators [>] and [<] of lines 153-161 read off the three-way
    comparison. *)
Lemma field_gt_compare key a b :
  field_gt key a b = match field_compare key a b with Gt => true | _ => false end.
Proof. unfold field_gt, field_compare. by destruct (field_of_key key). Qed.

Lemma field_lt_compare key a b :
  field_lt key a b = match field_compare key a b with Lt => true | _ => false end.
Proof. unfold field_lt, field_compare. by destruct (field_of_key key). Qed.

(** The comparator is the lexicographic order of the key and then the
    name, with the sign of the reversal table and of [descending]. *)
Lemma compareItems_lex o a b :
  compareItems o a b =
    sign (SortOption.descending o) *
    (sign (sortReversed (SortOption.key o)) *
     Z_of_comparison (lex (field_compare (SortOption.key o) a b) (name_compare a b))).
Proof.
  unfold compareItems, name_compare, js_str_gt, js_str_lt.
  rewrite field_gt_compare, field_lt_compare.
  destruct (field_compare _ a b), (String.compare _ _),
    (sortReversed _), (SortOption.descending o); done.
Qed.

Lemma compareItems_consistent o : consistent (compareItems o).
Proof.
  eapply consistent_ext; [apply compareItems_lex|].
  apply consistent_sign, consistent_sign.
  apply (consistent_OrderCmp (λ a b, lex (field_compare _ a b) (name_compare a b))).
Qed.

(** Entries that compare equal have the same name. *)
Lemma compareItems_zero o a b :
  compareItems o a b = 0 → Entry.name a = Entry.name b.
Proof.
  rewrite compareItems_lex. unfold name_compare.
  destruct (field_compare _ a b), (String.compare _ _) eqn:En,
    (sortReversed _), (SortOption.descending o); try done;
    intros _; by apply str_compare_eq.
Qed.

(** [descending] negates the comparator. *)
Lemma compareItems_descending key a b :
  compareItems {| SortOption.key := key; SortOption.descending := true |} a b =
  - compareItems {| SortOption.key := key; SortOption.descending := false |} a b.
Proof. rewrite !compareItems_lex. unfold sign. simpl. lia. Qed.
