(* ===== verification/Actions.v ===== *)
(** * The actions of the explorer store

    Every action of source lines 25-188, in the monad of [Act.v] over
    [Store].  [commit] applies a mutation of the module, [dispatch] of an
    action of the module is a call of its definition, and a dispatch to the
    root store or a call of the shell is an event of the trace.  The
    filesystem watch of line 88 is a handle of the store's [live] map; its
    callback is the rule [step_watch_fired] of the step relation in
    [Explorer.v]. *)

From stdpp Require Import base tactics list strings gmap.
From Stdlib Require Import ZArith Lia Ascii.
From S2P Require Import Prelude JsString Act Model SortEngine.

#[local] Open Scope Z_scope.
#[local] Open Scope act_scope.

Abbreviation Action := (act Store Exn).

(** ** Access to the store *)

Definition with_state (f : State → State) (σ : Store) : Store :=
  {| state := f (state σ); directory := directory σ; watcher := watcher σ;
     live := live σ; next_watch := next_watch σ; env := env σ;
     trace := trace σ |}.

Definition with_trace (e : Event) (σ : Store) : Store :=
  {| state := state σ; directory := directory σ; watcher := watcher σ;
     live := live σ; next_watch := next_watch σ; env := env σ;
     trace := trace σ ++ [e] |}.

(** [commit(name, payload)] for a mutation of the module. *)
Definition commit (m : State → State) : Action unit := modify (with_state m).

(** A call that leaves the module. *)
Definition emit (e : Event) : Action unit := modify (with_trace e).

(** ** The watcher, lines 85-90 *)

(** [if (watcher) { watcher.close() }] *)
Definition close_watcher : Action unit :=
  let* w := gets watcher in
  match w with
  | Some h =>
      modify (λ σ,
        {| state := state σ; directory := directory σ; watcher := watcher σ;
           live := delete h (live σ); next_watch := next_watch σ;
           env := env σ; trace := trace σ ++ [WatchClosed h] |})
  | None => ret tt
  end.

(** [watcher = fs.watch(dir, callback)]: a fresh handle, or a raise that
    leaves [watcher] as it was. *)
Definition fs_watch (dir : option string) : Action unit :=
  let* e := gets env in
  if fs_watch_ok e dir then
    modify (λ σ,
      {| state := state σ; directory := directory σ;
         watcher := Some (next_watch σ);
         live := <[next_watch σ := dir]> (live σ);
         next_watch := S (next_watch σ); env := env σ;
         trace := trace σ ++ [WatchOpened (next_watch σ) dir] |})
  else throw (FsError dir).

(** Lines 91-93: the listing, filtered to directories and images. *)
Definition list_items (dir : option string) : Action (list Entry.t) :=
  let* e := gets env in
  match listFiles e dir false with
  | Some files =>
      ret (File.toObject <$>
           List.filter (λ file, File.isDirectory file || File.isImage file) files)
  | None => throw (FsError dir)
  end.

Section Actions.
Context `{!ArraySort}.

(** ** Listing, lines 83-100 and 149-169 *)

Definition sort : Action unit :=
  let* s := gets state in
  commit (setItems (array_sort (compareItems (sortOption s)) (items s))).

Definition load : Action unit :=
  try_catch
    (close_watcher ;;
     let* dir := gets directory in
     fs_watch dir ;;
     let* its := list_items dir in
     commit (setItems its))
    (λ _, commit (setItems [])) ;;
  sort ;;
  emit FocusExplorerTable.

(** ** Navigation, lines 26-82 *)

Definition restoreDirectory (historyIndex : Z) : Action unit :=
  let* s := gets state in
  let history := js_nth (histories s) historyIndex in
  commit (setHistoryIndex historyIndex) ;;
  match history with
  | None => throw (TypeError "directory")
  | Some h =>
      modify (setDirectory (History.directory h)) ;;
      commit (setDirectoryInput (History.directory h)) ;;
      commit (setQuery "") ;;
      load
  end.

Definition changeDirectory (dirpath : option string) (force : bool) : Action unit :=
  let* dir := gets directory in
  if bool_decide (dirpath = dir) && negb force then ret tt
  else
    let* s := gets state in
    let historyIndex := historyIndex s + 1 in
    let histories :=
      js_slice (histories s) 0 historyIndex ++
      [{| History.directory := dirpath; History.scrollTop := 0 |}] in
    commit (setSelectedFilepath "") ;;
    commit (setHistories histories) ;;
    commit (setHistoryIndex historyIndex) ;;
    restoreDirectory historyIndex.

Definition initDirectory : Action unit :=
  let* dirpath := gets directory in
  changeDirectory dirpath true.

Definition changeParentDirectory : Action unit :=
  let* e := gets env in
  let* dir := gets directory in
  let dirpath := File.parentPath (new_File e dir) in
  changeDirectory (Some dirpath) false.

Definition changeHomeDirectory : Action unit :=
  let* e := gets env in
  changeDirectory (Some (home e)) false.

Definition changeSelectedDirectory : Action unit :=
  let* e := gets env in
  let* s := gets state in
  when (js_truthy (selectedFilepath s) &&
        File.isDirectory (new_File e (Some (selectedFilepath s))))
    (changeDirectory (Some (selectedFilepath s)) false).

Definition backDirectory (offset : Z) : Action unit :=
  let* s := gets state in
  if negb (canBackDirectory s) then ret tt
  else restoreDirectory (historyIndex s - 1 - offset).

Definition forwardDirectory (offset : Z) : Action unit :=
  let* s := gets state in
  if negb (canForwardDirectory s) then ret tt
  else restoreDirectory (historyIndex s + 1 + offset).

(** Lines 133-139: the record at the cursor with its scroll offset
    replaced; spreading a missing record gives a record without
    [directory]. *)
Definition setScrollTop (scrollTop : Z) : Action unit :=
  let* s := gets state in
  let history :=
    {| History.directory :=
         h ← js_nth (histories s) (historyIndex s); History.directory h;
       History.scrollTop := scrollTop |} in
  commit (setHistory history (historyIndex s)).

(** ** Shell and viewer, lines 101-106 and 170-187 *)

Definition invalid_directory_message (dir : option string) : string :=
  "Invalid directory " +:+ String "034"%char (js_to_string dir) +:+ String "034"%char "".

Definition openDirectory : Action unit :=
  let* e := gets env in
  let* dir := gets directory in
  emit (OpenItem dir) ;;
  when (negb (openItem e dir)) (emit (ShowMessage (invalid_directory_message dir))).

Definition showViewer (filepath : string) : Action unit :=
  let* e := gets env in
  let file := new_File e (Some filepath) in
  if File.isDirectory file then
    match listFiles e (Some filepath) true with
    | Some files => emit (ViewerShow (File.path <$> files) None)
    | None => throw (FsError (Some filepath))
    end
  else
    match listFiles e (Some (File.parentPath file)) false with
    | Some files => emit (ViewerShow (File.path <$> files) (Some filepath))
    | None => throw (FsError (Some (File.parentPath file)))
    end.

Definition action (filepath : string) : Action unit :=
  let* e := gets env in
  let file := new_File e (Some filepath) in
  if File.isDirectory file then changeDirectory (Some (File.path file)) false
  else showViewer (File.path file).

(** ** Selection and query, lines 107-132 *)

Definition select (filepath : string) : Action unit :=
  commit (setSelectedFilepath filepath).

Definition selectIndex (index : Z) : Action unit :=
  let* s := gets state in
  if (index <? 0) || (index >? Z.of_nat (length (filteredItems s)) - 1) then ret tt
  else
    match js_nth (filteredItems s) index with
    | Some file => select (Entry.path file)
    | None => throw (TypeError "path")
    end.

Definition selectFirst : Action unit := selectIndex 0.

Definition selectLast : Action unit :=
  let* s := gets state in
  selectIndex (Z.of_nat (length (filteredItems s)) - 1).

Definition selectPrevious : Action unit :=
  let* s := gets state in
  selectIndex (selectedIndex s - 1).

Definition selectNext : Action unit :=
  let* s := gets state in
  selectIndex (selectedIndex s + 1).

Definition search : Action unit :=
  let* s := gets state in
  commit (setQuery (queryInput s)).

(** ** Sort preference, lines 140-148 *)

Definition changeSortKey (sortKey : string) : Action unit :=
  let* s := gets state in
  let sortDescending :=
    if bool_decide (SortOption.key (sortOption s) = sortKey)
    then negb (SortOption.descending (sortOption s))
    else false in
  let* dir := gets directory in
  commit (setSortOption
            {| SortOption.key := sortKey; SortOption.descending := sortDescending |}
            dir) ;;
  sort.

End Actions.
