(* ===== verification/Fixture.v ===== *)
(** * A concrete environment

    A small filesystem and the stores the witnesses and the end-to-end runs
    start from: directory [/a] holds the directories [/a/b] and [/a/c], two
    images and a text file; [/a/b] holds three images; [/gone] cannot be
    listed or watched. *)

From stdpp Require Import base tactics list strings gmap.
From Stdlib Require Import ZArith Lia.
From S2P Require Import Prelude JsString Act Model SortEngine Actions.

#[local] Open Scope Z_scope.

Definition mkFile (parent name : string) (isDir isImg : bool) (sz mt : Z) : File.t :=
  let p := parent +:+ "/" +:+ name in
  {| File.path := p; File.parentPath := parent; File.isDirectory := isDir;
     File.isImage := isImg;
     File.toObject :=
       {| Entry.path := p; Entry.name := name; Entry.size := sz; Entry.mtime := mt;
          Entry.isDirectory := isDir; Entry.isImage := isImg |} |}.

Definition files_a : list File.t :=
  [ mkFile "/a" "c" true false 0 50;
    mkFile "/a" "x.png" false true 10 300;
    mkFile "/a" "notes.txt" false false 7 100;
    mkFile "/a" "b" true false 0 200;
    mkFile "/a" "Img2.JPG" false true 99 150 ].

Definition files_b : list File.t :=
  [ mkFile "/a/b" "image1.png" false true 5 10;
    mkFile "/a/b" "photo.png" false true 6 30;
    mkFile "/a/b" "imgur.jpg" false true 4 20 ].

Definition dirs : list string := ["/"; "/a"; "/a/b"; "/a/c"; "/a/d"; "/home/u"].

Definition parent_of (p : string) : string :=
  if decide (p = "/a") then "/"
  else if decide (p ∈ ["/a/b"; "/a/c"; "/a/d"; "/a/x.png"; "/a/notes.txt"; "/a/Img2.JPG"]) then "/a"
  else if decide (p ∈ ["/a/b/image1.png"; "/a/b/photo.png"; "/a/b/imgur.jpg"]) then "/a/b"
  else if decide (p = "/gone/x.png") then "/gone"
  else "/".

Definition env0 : Env :=
  {| new_File := λ p,
       {| File.path := js_to_string p;
          File.parentPath := parent_of (js_to_string p);
          File.isDirectory := bool_decide (js_to_string p ∈ dirs);
          File.isImage := false;
          File.toObject :=
            {| Entry.path := js_to_string p; Entry.name := js_to_string p;
               Entry.size := 0; Entry.mtime := 0;
               Entry.isDirectory := bool_decide (js_to_string p ∈ dirs);
               Entry.isImage := false |} |};
     listFiles := λ p _,
       if decide (p = Some "/a") then Some files_a
       else if decide (p = Some "/a/b") then Some files_b
       else if decide (p ∈ (Some <$> dirs)) then Some []
       else None;
     fs_watch_ok := λ p, bool_decide (p ∈ (Some <$> dirs));
     home := "/home/u";
     openItem := λ p, bool_decide (p ∈ (Some <$> dirs)) |}.

(** The store before [initDirectory], with the root directory [/a]. *)
Definition store0 : Store := init_store (Some "/a") env0.

(** After [initDirectory]. *)
Definition store_a : Store := final (initDirectory store0).

(** After navigating to [/a/b] and then to [/a/c]. *)
Definition store_ab : Store := final (changeDirectory (Some "/a/b") false store_a).
Definition store_abc : Store := final (changeDirectory (Some "/a/c") false store_ab).

Example store_abc_histories :
  History.directory <$> histories (state store_abc) =
    [Some "/a"; Some "/a/b"; Some "/a/c"] ∧
  historyIndex (state store_abc) = 2 ∧ directory store_abc = Some "/a/c".
Proof. by vm_compute. Qed.

Example store_a_items :
  Entry.name <$> items (state store_a) = ["Img2.JPG"; "b"; "c"; "x.png"].
Proof. by vm_compute. Qed.
