(* ===== verification/Sorting.v ===== *)
(** * The order of the listing

    What the [sort] action (source lines 149-169) and [changeSortKey]
    (lines 140-148) do, for every implementation of
    [Array.prototype.sort]: the listing becomes the sorted permutation of
    itself, which is unique when names are distinct; [descending] reverses
    it; the key [mtime] lists the newest entry first.  The last part shows
    what the getter [sortOption] reads back of a stored preference. *)

From stdpp Require Import base tactics list strings gmap sorting.
From Stdlib Require Import ZArith Lia.
From S2P Require Import Prelude JsString Act Model SortEngine Actions Fixture.

#[local] Open Scope Z_scope.
#[local] Open Scope act_scope.

(** ** Sorted lists *)

Section Sorted.
Context {A : Type}.
Implicit Types (R : relation A) (l : list A).

Lemma StronglySorted_impl R1 R2 l :
  (∀ a b, a ∈ l → b ∈ l → R1 a b → R2 a b) →
  StronglySorted R1 l → StronglySorted R2 l.
Proof.
  intros Himp Hs. induction Hs as [|x l Hl IH Hx]; constructor.
  - apply IH. intros a b Ha Hb. apply Himp; by right.
  - apply Forall_forall. intros y Hy. rewrite Forall_forall in Hx.
    apply Himp; [by left | by right | by apply Hx].
Qed.

Lemma StronglySorted_reverse R l :
  StronglySorted R l → StronglySorted (flip R) (reverse l).
Proof.
  induction 1 as [|x l Hl IH Hx]; [constructor|].
  rewrite reverse_cons. apply StronglySorted_app_2; [|done|repeat constructor].
  intros a b Ha ->%list_elem_of_singleton. rewrite Forall_forall in Hx.
  apply Hx. by apply elem_of_reverse.
Qed.
End Sorted.

(** Distinct names make the comparator antisymmetric on a listing. *)
Lemma compareItems_antisym o (l : list Entry.t) a b :
  NoDup (Entry.name <$> l) → a ∈ l → b ∈ l →
  cmp_le (compareItems o) a b → cmp_le (compareItems o) b a → a = b.
Proof.
  unfold cmp_le. intros Hnd Ha Hb Hab Hba.
  destruct (compareItems_consistent o) as [Hs _]. specialize (Hs a b).
  assert (compareItems o a b = 0) as Hz%compareItems_zero by lia.
  apply list_elem_of_lookup in Ha as [i Hi], Hb as [j Hj].
  assert (i = j) as -> by
    (eapply NoDup_lookup; [done | by rewrite list_lookup_fmap, Hi
                          | by rewrite list_lookup_fmap, Hj, Hz]).
  congruence.
Qed.

Section Sorting.
Context `{!ArraySort}.
Implicit Types (σ : Store) (o : SortOption.t) (l : list Entry.t).

(** C23: the [sort] action replaces [items] by a permutation of itself that
    is ordered by the comparator of the current sort option, returns
    without raising and changes nothing else of the store. *)
Theorem sort_sorted_permutation σ :
  let cmp := compareItems (sortOption (state σ)) in
  ∃ its, sort σ = Done tt (with_state (setItems its) σ) ∧
         its ≡ₚ items (state σ) ∧ StronglySorted (cmp_le cmp) its.
Proof.
  eexists. split; [done|].
  split; [apply array_sort_perm | apply array_sort_sorted, compareItems_consistent].
Qed.

(** A sorted permutation of a listing with distinct names is what
    [array_sort] returns. *)
Lemma array_sort_characterised o l l' :
  NoDup (Entry.name <$> l) → l' ≡ₚ l →
  StronglySorted (cmp_le (compareItems o)) l' →
  array_sort (compareItems o) l = l'.
Proof.
  intros Hnd Hp Hs. apply (StronglySorted_unique_strong (cmp_le (compareItems o))).
  - intros a b Ha Hb. apply (compareItems_antisym o l); [done| |].
    + by rewrite <- (array_sort_perm (compareItems o) l).
    + by rewrite <- Hp.
  - apply array_sort_sorted, compareItems_consistent.
  - done.
  - by rewrite array_sort_perm, Hp.
Qed.

(** C33: on a listing with distinct names, sorting with [descending] gives
    the reverse of sorting without. *)
Theorem sort_descending_reverse key l :
  NoDup (Entry.name <$> l) →
  array_sort (compareItems {| SortOption.key := key; SortOption.descending := true |}) l =
  reverse (array_sort
             (compareItems {| SortOption.key := key; SortOption.descending := false |}) l).
Proof.
  intros Hnd. apply array_sort_characterised; [done | |].
  - by rewrite reverse_Permutation, array_sort_perm.
  - eapply StronglySorted_impl;
      [|apply StronglySorted_reverse, array_sort_sorted, compareItems_consistent].
    unfold cmp_le, flip. intros a b _ _. rewrite compareItems_descending.
    destruct (compareItems_consistent
      {| SortOption.key := key; SortOption.descending := false |}) as [Hs _].
    specialize (Hs a b). lia.
Qed.

(** With the key [mtime] and [descending] false, the first click of the
    column, the comparator puts the newer entry first, because the
    reversal table inverts this key; with the key [name] it puts the
    smaller name first. *)
Lemma cmp_le_mtime (a b : Entry.t) :
  cmp_le (compareItems {| SortOption.key := "mtime"; SortOption.descending := false |}) a b →
  Entry.mtime b ≤ Entry.mtime a.
Proof.
  unfold cmp_le. rewrite compareItems_lex. unfold field_compare. simpl.
  destruct (Z.compare_spec (Entry.mtime a) (Entry.mtime b)); simpl; lia.
Qed.

Lemma cmp_le_name (a b : Entry.t) :
  cmp_le (compareItems default_sortOption) a b →
  js_str_gt (Entry.name a) (Entry.name b) = false.
Proof.
  unfold cmp_le. rewrite compareItems_lex.
  unfold field_compare, name_compare, js_str_gt. simpl.
  by destruct (String.compare _ _).
Qed.

(** Sorted by the comparator of an option, in the terms of the view. *)
Lemma sorted_mtime_newest_first l :
  StronglySorted
    (cmp_le (compareItems {| SortOption.key := "mtime"; SortOption.descending := false |}))
    l →
  StronglySorted (λ a b, Entry.mtime b ≤ Entry.mtime a) l.
Proof. apply StronglySorted_impl. intros a b _ _. apply cmp_le_mtime. Qed.

Lemma sorted_name_ascending l :
  StronglySorted (cmp_le (compareItems default_sortOption)) l →
  StronglySorted (λ a b, js_str_gt (Entry.name a) (Entry.name b) = false) l.
Proof. apply StronglySorted_impl. intros a b _ _. apply cmp_le_name. Qed.

End Sorting.

(** On a listing with distinct names, every implementation of the
    interface returns what the reference insertion sort returns. *)
Lemma array_sort_reference (S : ArraySort) o (l : list Entry.t) :
  NoDup (Entry.name <$> l) →
  @array_sort S _ (compareItems o) l = insertion_sort (compareItems o) l.
Proof.
  intros Hnd. apply (@array_sort_characterised S); [done|..].
  - apply (array_sort_perm (ArraySort:=insertion_ArraySort)).
  - apply (array_sort_sorted (ArraySort:=insertion_ArraySort)), compareItems_consistent.
Qed.

(** Two implementations of [Array.prototype.sort] that meet the
    interface return the same listing for the comparator of any sort
    option, when the names of the listing are distinct (as the entries of
    one directory are). *)
Theorem array_sort_unique (S1 S2 : ArraySort) o (l : list Entry.t) :
  NoDup (Entry.name <$> l) →
  @array_sort S1 _ (compareItems o) l = @array_sort S2 _ (compareItems o) l.
Proof. intros Hnd. by rewrite !array_sort_reference. Qed.

(** ** The stored preference and the getter [sortOption] *)

Section Preference.
Context `{!ArraySort}.
Implicit Types (σ : Store).

(** The getter looks its option up under the string of [undefined]. *)
Lemma sortOption_lookup (s : State) :
  sortOption s = default default_sortOption (sortOptions s !! "undefined").
Proof. done. Qed.

(** The option [changeSortKey] builds from the getter's current option. *)
Definition clicked (sortKey : string) (o : SortOption.t) : SortOption.t :=
  {| SortOption.key := sortKey;
     SortOption.descending :=
       if bool_decide (SortOption.key o = sortKey)
       then negb (SortOption.descending o) else false |}.

Lemma changeSortKey_sortOptions sortKey σ :
  sortOptions (state (final (changeSortKey sortKey σ))) =
    <[js_to_string (directory σ) := clicked sortKey (sortOption (state σ))]>
      (sortOptions (state σ)).
Proof. done. Qed.

Lemma changeSortKey_items sortKey σ :
  items (state (final (changeSortKey sortKey σ))) =
    array_sort (compareItems (sortOption (state (final (changeSortKey sortKey σ)))))
      (items (state σ)).
Proof. done. Qed.

Lemma changeSortKey_directory sortKey σ :
  directory (final (changeSortKey sortKey σ)) = directory σ.
Proof. done. Qed.

Lemma clicked_default sortKey :
  clicked sortKey default_sortOption =
    {| SortOption.key := sortKey;
       SortOption.descending := bool_decide (sortKey = "name") |}.
Proof. unfold clicked. simpl. f_equal. repeat case_bool_decide; congruence. Qed.

(** [changeSortKey] stores, under the committed directory, the key with
    [descending] negated when the getter [sortOption] already has that
    key and false otherwise, then sorts [items] by the getter's option of
    the new state; it does not raise. *)
Theorem changeSortKey_stores sortKey σ :
  let σ' := final (changeSortKey sortKey σ) in
  raised (changeSortKey sortKey σ) = false ∧
  sortOptions (state σ') =
    <[js_to_string (directory σ) := clicked sortKey (sortOption (state σ))]>
      (sortOptions (state σ)) ∧
  items (state σ') =
    array_sort (compareItems (sortOption (state σ'))) (items (state σ)).
Proof. done. Qed.

(** Without an entry under "undefined" the getter gives the default. *)
Lemma sortOption_default (s : State) :
  sortOptions s !! "undefined" = None → sortOption s = default_sortOption.
Proof. intros Hu. by rewrite sortOption_lookup, Hu. Qed.

(** Stored under a directory that is not the string "undefined", with
    nothing stored under that string, the option is not the one the getter
    returns afterwards. *)
Lemma changeSortKey_elsewhere sortKey d σ :
  directory σ = Some d → d ≠ "undefined" →
  sortOptions (state σ) !! "undefined" = None →
  let σ' := final (changeSortKey sortKey σ) in
  sortOption (state σ') = default_sortOption ∧
  sortOptions (state σ') !! d =
    Some {| SortOption.key := sortKey;
            SortOption.descending := bool_decide (sortKey = "name") |} ∧
  items (state σ') = array_sort (compareItems default_sortOption) (items (state σ)) ∧
  sortOptions (state (final (changeSortKey sortKey σ'))) = sortOptions (state σ').
Proof.
  intros Hd Hne Hund σ'.
  assert (sortOptions (state σ') =
          <[d := clicked sortKey default_sortOption]> (sortOptions (state σ))) as Hso.
  { unfold σ'. by rewrite changeSortKey_sortOptions, Hd, (sortOption_default _ Hund). }
  assert (sortOption (state σ') = default_sortOption) as Ho'.
  { apply sortOption_default. by rewrite Hso, lookup_insert_ne. }
  split_and!.
  - done.
  - by rewrite Hso, lookup_insert_eq, clicked_default.
  - unfold σ'. rewrite changeSortKey_items. fold σ'. by rewrite Ho'.
  - rewrite changeSortKey_sortOptions, Ho'. unfold σ' at 1.
    rewrite changeSortKey_directory, Hd, Hso. apply insert_insert_eq.
Qed.

(** Stored under "undefined", the option is the one the getter returns. *)
Lemma changeSortKey_on_undefined sortKey σ :
  js_to_string (directory σ) = "undefined" →
  let σ1 := final (changeSortKey sortKey σ) in
  let σ2 := final (changeSortKey sortKey σ1) in
  SortOption.key (sortOption (state σ1)) = sortKey ∧
  SortOption.key (sortOption (state σ2)) = sortKey ∧
  SortOption.descending (sortOption (state σ2)) =
    negb (SortOption.descending (sortOption (state σ1))).
Proof.
  intros Hu σ1 σ2.
  assert (∀ σ0, js_to_string (directory σ0) = "undefined" →
            sortOption (state (final (changeSortKey sortKey σ0))) =
            clicked sortKey (sortOption (state σ0))) as Hget.
  { intros σ0 H0.
    by rewrite sortOption_lookup, changeSortKey_sortOptions, H0, lookup_insert_eq. }
  assert (sortOption (state σ2) = clicked sortKey (sortOption (state σ1))) as ->.
  { apply Hget. unfold σ1. by rewrite changeSortKey_directory. }
  unfold σ1. rewrite (Hget σ Hu). simpl. by rewrite bool_decide_eq_true_2.
Qed.

(** C27: what the getter [sortOption] reads back after [changeSortKey].
    The option is stored under the committed directory and read under the
    string of [state.directory], a property the module state does not
    have.  When the committed directory is [undefined] or the string
    "undefined", the getter reads what was stored: the key is the clicked
    one, and a second click on the same key toggles [descending].  On any
    other directory, with nothing stored under "undefined", the getter
    still gives the default (name, ascending), the listing is sorted by
    name whatever the key, and the stored [descending] is true exactly for
    the key [name], so a second click stores the same option again instead
    of toggling it. *)
Theorem changeSortKey_read_back sortKey σ :
  let σ1 := final (changeSortKey sortKey σ) in
  let σ2 := final (changeSortKey sortKey σ1) in
  (js_to_string (directory σ) = "undefined" →
   SortOption.key (sortOption (state σ1)) = sortKey ∧
   SortOption.key (sortOption (state σ2)) = sortKey ∧
   SortOption.descending (sortOption (state σ2)) =
     negb (SortOption.descending (sortOption (state σ1)))) ∧
  (∀ d, directory σ = Some d → d ≠ "undefined" →
   sortOptions (state σ) !! "undefined" = None →
   sortOption (state σ1) = default_sortOption ∧
   sortOptions (state σ1) !! d =
     Some {| SortOption.key := sortKey;
             SortOption.descending := bool_decide (sortKey = "name") |} ∧
   items (state σ1) = array_sort (compareItems default_sortOption) (items (state σ)) ∧
   sortOptions (state σ2) = sortOptions (state σ1)).
Proof.
  split; [apply changeSortKey_on_undefined | intros d; apply changeSortKey_elsewhere].
Qed.

End Preference.

(** ** The theorems at the concrete environment *)

Definition entry (name : string) (sz mt : Z) : Entry.t :=
  {| Entry.path := "/d/" +:+ name; Entry.name := name; Entry.size := sz;
     Entry.mtime := mt; Entry.isDirectory := false; Entry.isImage := true |}.

(** Three entries named b, a, c; b is the newest and the largest. *)
Definition bac : list Entry.t := [entry "b" 30 300; entry "a" 10 100; entry "c" 20 200].

Lemma bac_NoDup : NoDup (Entry.name <$> bac).
Proof. apply (bool_decide_unpack _). by vm_compute. Qed.

Example merge_sort_agrees_on_bac :
  NoDup (Entry.name <$> bac) ∧
  array_sort (ArraySort:=merge_ArraySort) (compareItems default_sortOption) bac =
  array_sort (ArraySort:=insertion_ArraySort) (compareItems default_sortOption) bac.
Proof.
  split; [exact bac_NoDup|].
  exact (array_sort_unique merge_ArraySort insertion_ArraySort default_sortOption
           bac bac_NoDup).
Qed.

Lemma sort_descending_reverse_witness :
  NoDup (Entry.name <$> bac) ∧
  array_sort (compareItems {| SortOption.key := "size"; SortOption.descending := true |})
    bac =
  reverse (array_sort
             (compareItems {| SortOption.key := "size"; SortOption.descending := false |})
             bac).
Proof.
  split; [exact bac_NoDup|]. exact (sort_descending_reverse "size" bac bac_NoDup).
Defined.

(** The examples of the specification: by name ascending, by name
    descending, and by [mtime] on the first click, for every
    implementation of [Array.prototype.sort]. *)
Example sort_bac_by_name (S : ArraySort) :
  Entry.name <$> @array_sort S _ (compareItems default_sortOption) bac = ["a"; "b"; "c"] ∧
  Entry.name <$> @array_sort S _
    (compareItems {| SortOption.key := "name"; SortOption.descending := true |}) bac =
    ["c"; "b"; "a"] ∧
  Entry.name <$> @array_sort S _
    (compareItems {| SortOption.key := "mtime"; SortOption.descending := false |}) bac =
    ["b"; "c"; "a"].
Proof.
  rewrite !(array_sort_reference S _ bac bac_NoDup). by vm_compute.
Qed.

(** In [/a] the clicked key is stored and not read back; before any
    directory is set, a second click toggles the direction. *)
Lemma changeSortKey_read_back_witness :
  sortOption (state (final (changeSortKey "size" store_a))) = default_sortOption ∧
  sortOptions (state (final (changeSortKey "size" store_a))) !! "/a" =
    Some {| SortOption.key := "size"; SortOption.descending := bool_decide ("size" = "name") |} ∧
  SortOption.descending
    (sortOption (state (final (changeSortKey "size"
       (final (changeSortKey "size" (init_store None env0))))))) =
  negb (SortOption.descending
    (sortOption (state (final (changeSortKey "size" (init_store None env0)))))).
Proof.
  assert (directory store_a = Some "/a") as Hd by (vm_compute; reflexivity).
  assert ("/a" ≠ "undefined") as Hne by discriminate.
  assert (sortOptions (state store_a) !! "undefined" = None) as Hu
    by (vm_compute; reflexivity).
  destruct (proj2 (changeSortKey_read_back "size" store_a) "/a" Hd Hne Hu) as (Ho & Hs & _).
  destruct (proj1 (changeSortKey_read_back "size" (init_store None env0)) eq_refl)
    as (_ & _ & H).
  exact (conj Ho (conj Hs H)).
Defined.
