(* ===== verification/Listing.v ===== *)
(** * Listing, filter and selection

    The getters [filteredItems] and [selectedIndex] (source lines 247-256),
    the selection actions (lines 107-128), the reload [load] (lines
    83-100) and the calls to the shell and the viewer (lines 101-106 and
    170-187). *)

From stdpp Require Import base tactics list strings gmap sorting.
From Stdlib Require Import ZArith Lia.
From S2P Require Import Prelude JsString Act Model SortEngine Actions Fixture.

#[local] Open Scope Z_scope.
#[local] Open Scope act_scope.

(** ** The query filter *)

Lemma matches_query_spec q (file : Entry.t) :
  matches_query q file = true ↔
  q = "" ∨ ∃ pre post, toLowerCase (Entry.name file) = pre +:+ toLowerCase q +:+ post.
Proof.
  unfold matches_query. rewrite orb_true_iff, negb_true_iff, js_truthy_false.
  rewrite Z.gtb_ltb, Z.ltb_lt, <- indexOf_found. split; intros [?|?]; eauto; right; lia.
Qed.

(** C34: an entry is in [filteredItems] exactly when it is in [items] and
    the query is empty or its lower-cased name contains the lower-cased
    query. *)
Theorem filteredItems_spec (s : State) (file : Entry.t) :
  file ∈ filteredItems s ↔
  file ∈ items s ∧
  (query s = "" ∨
   ∃ pre post, toLowerCase (Entry.name file) = pre +:+ toLowerCase (query s) +:+ post).
Proof.
  unfold filteredItems. by rewrite elem_of_List_filter, matches_query_spec.
Qed.

(** [filteredItems] keeps the entries in the order of [items]. *)
Theorem filteredItems_sublist (s : State) : filteredItems s `sublist_of` items s.
Proof. apply List_filter_sublist. Qed.

Lemma filteredItems_no_query (s : State) : query s = "" → filteredItems s = items s.
Proof.
  unfold filteredItems. intros ->. induction (items s) as [|x l IH]; simpl; [done|].
  by rewrite IH.
Qed.

(** The filter ignores the case of the query and of the names. *)
Lemma matches_query_case q q' (file : Entry.t) :
  q ≠ "" → q' ≠ "" → toLowerCase q = toLowerCase q' →
  matches_query q file = matches_query q' file.
Proof.
  intros Hq Hq' Heq. unfold matches_query. rewrite Heq.
  by destruct q, q'.
Qed.

(** Lower-casing the query beforehand changes nothing. *)
Lemma matches_query_lower q (file : Entry.t) :
  matches_query (toLowerCase q) file = matches_query q file.
Proof. unfold matches_query. by autorewrite with explorer. Qed.

(** ** The selection cursor *)

Section Selection.
Implicit Types (σ : Store) (s : State) (index : Z).

(** [selectIndex] on every branch: the guard of line 111 lets through
    exactly the indices that have an entry, so the action never raises. *)
Lemma selectIndex_run index σ :
  selectIndex index σ =
    Done tt
      match js_nth (filteredItems (state σ)) index with
      | Some file => with_state (setSelectedFilepath (Entry.path file)) σ
      | None => σ
      end.
Proof.
  unfold selectIndex, bind, gets. simpl.
  destruct (js_nth _ index) as [file|] eqn:Hn.
  - js_bounds. case_Z_tests; simpl; try lia. done.
  - apply js_nth_None in Hn. case_Z_tests; simpl; try lia; done.
Qed.

Lemma selectIndex_skip index σ :
  js_nth (filteredItems (state σ)) index = None → selectIndex index σ = Done tt σ.
Proof. intros Hi. by rewrite selectIndex_run, Hi. Qed.

(** The selection is no input of the filter. *)
Lemma selectIndex_filteredItems index σ :
  filteredItems (state (final (selectIndex index σ))) = filteredItems (state σ).
Proof. rewrite selectIndex_run. by destruct (js_nth _ _). Qed.

(** [selectIndex] with the index of a filtered entry sets the
    selection to that entry's path and changes nothing else. *)
Theorem selectIndex_selects index file σ :
  js_nth (filteredItems (state σ)) index = Some file →
  selectIndex index σ =
    Done tt (with_state (setSelectedFilepath (Entry.path file)) σ).
Proof. intros Hi. by rewrite selectIndex_run, Hi. Qed.

(** In a list with distinct paths, the path of the entry at [i] is found
    at [i]. *)
Lemma js_findIndex_nodup (l : list Entry.t) (i : nat) file :
  NoDup (Entry.path <$> l) → l !! i = Some file →
  js_findIndex (λ f, bool_decide (Entry.path file = Entry.path f)) l = Z.of_nat i.
Proof.
  revert i. induction l as [|x l IH]; intros i Hnd Hi; [done|].
  apply NoDup_cons in Hnd as [Hx Hnd]. destruct i as [|i]; simplify_eq/=.
  - by rewrite bool_decide_eq_true_2.
  - rewrite bool_decide_eq_false_2.
    + rewrite (IH i) by done. case_Z_tests; lia.
    + intros Heq. apply Hx. rewrite <- Heq. apply list_elem_of_fmap.
      exists file. split; [done|]. by eapply list_elem_of_lookup_2.
Qed.

Lemma selectedIndex_selected (i : nat) σ :
  NoDup (Entry.path <$> filteredItems (state σ)) →
  (i < length (filteredItems (state σ)))%nat →
  selectedIndex (state (final (selectIndex (Z.of_nat i) σ))) = Z.of_nat i.
Proof.
  intros Hnd Hi. apply lookup_lt_is_Some in Hi as [file Hf].
  rewrite selectIndex_run, js_nth_nat, Hf. simpl.
  unfold selectedIndex, isSelected. simpl. by apply js_findIndex_nodup.
Qed.

(** C37: the selection stops at the ends of the filtered list.
    [selectIndex] with an index below 0 or beyond the last filtered entry,
    [selectNext] at the last filtered entry or with an empty list, and
    [selectPrevious] at the first entry or with nothing selected return
    without raising and leave the store as it is. *)
Theorem selection_stops_at_ends index σ :
  let n := Z.of_nat (length (filteredItems (state σ))) in
  (index < 0 ∨ n ≤ index → selectIndex index σ = Done tt σ) ∧
  (selectedIndex (state σ) = n - 1 → selectNext σ = Done tt σ) ∧
  (selectedIndex (state σ) ≤ 0 → selectPrevious σ = Done tt σ).
Proof.
  split_and!; intros Hi; unfold selectNext, selectPrevious, bind, gets; simpl;
    apply selectIndex_skip, js_nth_None; lia.
Qed.

(** C35: [selectedIndex] is the position of the first filtered entry whose
    path is the selected one, and -1 exactly when there is none. *)
Theorem selectedIndex_spec s :
  (selectedIndex s = -1 ↔
   ∀ file, file ∈ filteredItems s → Entry.path file ≠ selectedFilepath s) ∧
  (0 ≤ selectedIndex s →
   ∃ file, filteredItems s !! Z.to_nat (selectedIndex s) = Some file ∧
           Entry.path file = selectedFilepath s).
Proof.
  unfold selectedIndex, isSelected. split.
  - rewrite js_findIndex_none, Forall_forall.
    split; intros Hn file Hin; specialize (Hn file Hin).
    + by apply bool_decide_eq_false in Hn.
    + by apply bool_decide_eq_false.
  - intros Hi. destruct (js_findIndex_found _ _ _ Hi eq_refl) as (file & Hf & Hp & _).
    exists file. split; [done|]. by apply bool_decide_eq_true in Hp.
Qed.

(** The selected path is the path of the entry at the selected index. *)
Lemma selectedIndex_path (i : nat) (s : State) :
  selectedIndex s = Z.of_nat i →
  Entry.path <$> filteredItems s !! i = Some (selectedFilepath s).
Proof.
  unfold selectedIndex, isSelected. intros Hi.
  destruct (js_findIndex_found _ _ _ (Nat2Z.is_nonneg i) Hi) as (file & Hf & Hp & _).
  rewrite Nat2Z.id in Hf. apply bool_decide_eq_true in Hp. by rewrite Hf, Hp.
Qed.

(** An entry with the selected path among the filtered ones gives the
    selection an index. *)
Lemma selectedIndex_listed (s : State) file :
  file ∈ filteredItems s → Entry.path file = selectedFilepath s → 0 ≤ selectedIndex s.
Proof.
  intros Hin Hp. unfold selectedIndex.
  set (p := λ file, isSelected s (Entry.path file)).
  pose proof (js_findIndex_range p (filteredItems s)) as Hr.
  destruct (decide (js_findIndex p (filteredItems s) = -1)) as [Hn|]; [|lia].
  apply js_findIndex_none in Hn. rewrite Forall_forall in Hn.
  specialize (Hn file Hin). unfold p, isSelected in Hn.
  by apply bool_decide_eq_false in Hn.
Qed.

Lemma selectFirst_run σ :
  selectFirst σ =
    Done tt
      match filteredItems (state σ) with
      | file :: _ => with_state (setSelectedFilepath (Entry.path file)) σ
      | [] => σ
      end.
Proof. unfold selectFirst. rewrite selectIndex_run. by destruct (filteredItems _). Qed.

Lemma selectLast_run σ :
  selectLast σ =
    Done tt
      match last (filteredItems (state σ)) with
      | Some file => with_state (setSelectedFilepath (Entry.path file)) σ
      | None => σ
      end.
Proof.
  unfold selectLast, bind, gets. simpl. rewrite selectIndex_run.
  destruct (filteredItems (state σ)) as [|x l] using rev_ind; [done|].
  rewrite last_snoc, length_app. simpl.
  replace (Z.of_nat (length l + 1) - 1) with (Z.of_nat (length l)) by lia.
  by autorewrite with explorer.
Qed.

End Selection.

(** ** The reload *)

Section Reload.
Context `{!ArraySort}.
Implicit Types (σ : Store).

(** What the [try] of [load] leaves in [items]: the directories and images
    of the committed directory, or nothing when the watch or the listing
    raised. *)
Definition listed (σ : Store) : list Entry.t :=
  if fs_watch_ok (env σ) (directory σ) then
    match listFiles (env σ) (directory σ) false with
    | Some files =>
        File.toObject <$>
        List.filter (λ file, File.isDirectory file || File.isImage file) files
    | None => []
    end
  else [].

(** [listed] reads the environment and the committed directory. *)
Lemma listed_frame σ σ' :
  env σ' = env σ → directory σ' = directory σ → listed σ' = listed σ.
Proof. unfold listed. by intros -> ->. Qed.

Lemma sort_run σ :
  sort σ = Done tt
    (with_state (setItems (array_sort (compareItems (sortOption (state σ)))
                             (items (state σ)))) σ).
Proof. done. Qed.

(** [load] returns, whatever the filesystem does, and it writes [items],
    the watcher and the trace, and nothing else. *)
Lemma load_run σ :
  ∃ its w lv n tr,
    load σ = Done tt
      {| state := setItems its (state σ); directory := directory σ;
         watcher := w; live := lv; next_watch := n; env := env σ; trace := tr |}.
Proof.
  unfold load, bind, try_catch, close_watcher, fs_watch, list_items, bind, gets.
  destruct (watcher σ); simpl; destruct (fs_watch_ok _ _); simpl;
    try destruct (listFiles _ _ _); simpl; eauto 10.
Qed.

(** The [try] of [load] ends in either exit, the handler returns, and so
    do [sort] and the focus request: [load] never raises. *)
Lemma load_no_raise : no_raise (λ _, True) load.
Proof.
  apply hoare_no_raise.
  apply (hoare_bind _ _ _ (λ _ _, True)); [|intros []].
  - eapply hoare_try_catch; [apply hoare_any | intros e; apply hoare_modify_any].
  - apply (hoare_bind _ _ _ (λ _ _, True)); [|intros []; apply hoare_modify_any].
    apply hoare_bind_gets. intros s. apply hoare_modify_any.
Qed.

Lemma load_Done σ : load σ = Done tt (final (load σ)).
Proof. apply no_raise_Done, load_no_raise. Qed.

Lemma load_state σ :
  state (final (load σ)) = setItems (items (state (final (load σ)))) (state σ).
Proof. by destruct (load_run σ) as (? & ? & ? & ? & ? & ->). Qed.

Lemma load_items σ :
  items (state (final (load σ))) =
    array_sort (compareItems (sortOption (state σ))) (listed σ).
Proof.
  unfold load, listed, bind, try_catch, close_watcher, fs_watch, list_items, bind, gets.
  destruct (watcher σ); simpl; destruct (fs_watch_ok _ _); simpl;
    try destruct (listFiles _ _ _); done.
Qed.

(** What [load] does to the watcher: it closes the handle it holds, and
    opens a fresh one on the committed directory when the watch can be
    armed. *)
Lemma load_watch σ :
  let σ' := final (load σ) in
  let lv := match watcher σ with Some h => delete h (live σ) | None => live σ end in
  directory σ' = directory σ ∧
  if fs_watch_ok (env σ) (directory σ) then
    watcher σ' = Some (next_watch σ) ∧
    live σ' = <[next_watch σ := directory σ]> lv ∧
    next_watch σ' = S (next_watch σ)
  else watcher σ' = watcher σ ∧ live σ' = lv ∧ next_watch σ' = next_watch σ.
Proof.
  unfold load, bind, try_catch, close_watcher, fs_watch, list_items, bind, gets.
  destruct (watcher σ) eqn:Hw; simpl; destruct (fs_watch_ok _ _); simpl;
    try destruct (listFiles _ _ _); done.
Qed.

(** The calls [load] makes, in order: close the watch it holds, arm a
    watch when that is possible, ask for the focus. *)
Lemma load_trace σ :
  trace (final (load σ)) =
    trace σ ++ match watcher σ with Some h => [WatchClosed h] | None => [] end ++
    (if fs_watch_ok (env σ) (directory σ)
     then [WatchOpened (next_watch σ) (directory σ)] else []) ++
    [FocusExplorerTable].
Proof.
  unfold load, bind, try_catch, close_watcher, fs_watch, list_items, bind, gets.
  destruct (watcher σ); simpl; destruct (fs_watch_ok _ _); simpl;
    try destruct (listFiles _ _ _); simpl; by rewrite <- ?(assoc_L (++)).
Qed.

Lemma load_directory σ : directory (final (load σ)) = directory σ.
Proof. by destruct (load_run σ) as (? & ? & ? & ? & ? & ->). Qed.

Lemma load_env σ : env (final (load σ)) = env σ.
Proof. by destruct (load_run σ) as (? & ? & ? & ? & ? & ->). Qed.

Lemma load_histories σ :
  histories (state (final (load σ))) = histories (state σ).
Proof. by rewrite load_state. Qed.

Lemma load_historyIndex σ :
  historyIndex (state (final (load σ))) = historyIndex (state σ).
Proof. by rewrite load_state. Qed.

(** The store after [n] firings of the watch, each one a [load]. *)
Definition reloads (n : nat) (σ : Store) : Store :=
  Nat.iter n (λ σ, final (load σ)) σ.


End Reload.

#[export] Hint Rewrite @load_histories @load_historyIndex @load_directory @load_env
  : explorer.

Section ReloadOutcome.
Context `{!ArraySort}.
Implicit Types (σ : Store).

(** Sorting no entry gives no entry. *)
Lemma array_sort_nil {A} (cmp : A → A → Z) : array_sort cmp [] = [].
Proof. apply Permutation_nil_r, array_sort_perm. Qed.

(** C24: [load] on every branch.  It returns, whatever the filesystem
    does.  It closes the watch the module holds; when the committed
    directory can be watched it arms a watch on a fresh handle and stores
    the directories and images of the listing, converted to entries and
    sorted by the getter's option; when arming the watch or listing the
    directory raises, it swallows the error, stores no item and keeps the
    closed handle in [watcher]; it asks the view to focus at the end, and
    it writes nothing else. *)
Theorem load_outcome σ :
  let σ' := final (load σ) in
  let ok := fs_watch_ok (env σ) (directory σ) in
  load σ = Done tt σ' ∧
  state σ' =
    setItems (array_sort (compareItems (sortOption (state σ))) (listed σ)) (state σ) ∧
  directory σ' = directory σ ∧ env σ' = env σ ∧
  watcher σ' = (if ok then Some (next_watch σ) else watcher σ) ∧
  trace σ' =
    trace σ ++ match watcher σ with Some h => [WatchClosed h] | None => [] end ++
    (if ok then [WatchOpened (next_watch σ) (directory σ)] else []) ++
    [FocusExplorerTable] ∧
  (ok = false ∨ listFiles (env σ) (directory σ) false = None → items (state σ') = []).
Proof.
  destruct (load_watch σ) as [_ Hw].
  split_and!; [apply load_Done | by rewrite load_state, load_items | apply load_directory
              | apply load_env | | apply load_trace |].
  - by destruct (fs_watch_ok _ _); destruct Hw as (-> & _).
  - intros Hf. rewrite load_items. unfold listed.
    destruct Hf as [->| ->]; [|destruct (fs_watch_ok _ _)]; apply array_sort_nil.
Qed.

End ReloadOutcome.

(** ** The shell and the viewer *)

Section Collaborators.
Implicit Types (σ : Store) (filepath : string).

(** [openDirectory] asks the shell to open the committed directory
    and, exactly when the shell reports failure, shows the message
    "Invalid directory" with the directory between double quotes; the
    module state is not touched and nothing is raised. *)
Theorem openDirectory_reports σ :
  openDirectory σ =
    Done tt
      (let σ1 := with_trace (OpenItem (directory σ)) σ in
       if openItem (env σ) (directory σ) then σ1
       else with_trace (ShowMessage (invalid_directory_message (directory σ))) σ1).
Proof.
  unfold openDirectory, bind, gets, when, emit, modify. simpl.
  by destruct (openItem _ _).
Qed.

(** C40: [showViewer] on every branch.  For a directory it lists the
    directory recursively and opens the viewer on the paths of that
    listing with no current path; for a file it lists the parent and opens
    the viewer on the paths of that listing, every child of the parent and
    not the images alone, with the file as current path.  When the listing
    raises, [showViewer] raises too, with the store unchanged: this failure
    is not swallowed. *)
Theorem showViewer_outcome filepath σ :
  let file := new_File (env σ) (Some filepath) in
  let dir := if File.isDirectory file then filepath else File.parentPath file in
  showViewer filepath σ =
    match listFiles (env σ) (Some dir) (File.isDirectory file) with
    | Some files =>
        Done tt
          (with_trace
             (ViewerShow (File.path <$> files)
                (if File.isDirectory file then None else Some filepath)) σ)
    | None => Raised (FsError (Some dir)) σ
    end.
Proof.
  unfold showViewer, bind, gets, emit, modify, throw. simpl.
  destruct (File.isDirectory _); by destruct (listFiles _ _ _).
Qed.

End Collaborators.

(** ** The theorems at the concrete environment *)

(** [store_ab] lists [/a/b], whose entries are image1.png, photo.png and
    imgur.jpg; here with the query "img" typed and committed. *)
Definition store_b_img : Store :=
  final (search (final (commit (setQueryInput "img") store_ab))).

(** Of the three names only imgur.jpg contains "img"; image1.png does
    not, and upper case in the query makes no difference. *)
Example filter_img :
  Entry.name <$> filteredItems (state store_b_img) = ["imgur.jpg"] ∧
  Entry.name <$> filteredItems (setQuery "IMG" (state store_ab)) = ["imgur.jpg"] ∧
  Entry.name <$> filteredItems (setQuery "PNG" (state store_ab)) =
    ["image1.png"; "photo.png"].
Proof. by vm_compute. Qed.

(** imgur.jpg is kept: its name is the query followed by "ur.jpg". *)
Lemma filteredItems_spec_witness :
  File.toObject (mkFile "/a/b" "imgur.jpg" false true 4 20) ∈
    filteredItems (state store_b_img).
Proof.
  apply filteredItems_spec. split.
  - apply (list_elem_of_lookup_2 _ 1). by vm_compute.
  - right. exists "", "ur.jpg". by vm_compute.
Defined.

Lemma selectIndex_selects_witness :
  selectedFilepath (state (final (selectIndex 1 store_ab))) = "/a/b/imgur.jpg" ∧
  selectIndex 1 store_ab =
    Done tt (with_state (setSelectedFilepath "/a/b/imgur.jpg") store_ab).
Proof.
  assert (js_nth (filteredItems (state store_ab)) 1 =
          Some (File.toObject (mkFile "/a/b" "imgur.jpg" false true 4 20))) as Hf
    by (vm_compute; reflexivity).
  pose proof (selectIndex_selects 1 _ store_ab Hf) as Hs.
  split; [rewrite Hs; reflexivity | exact Hs].
Defined.

Lemma store_b_paths_NoDup : NoDup (Entry.path <$> filteredItems (state store_ab)).
Proof. apply (bool_decide_unpack _). by vm_compute. Qed.

(** The store listing [/a/b] with its last entry selected. *)
Definition store_b_last : Store := final (selectLast store_ab).

Lemma selection_stops_at_ends_witness :
  selectedFilepath (state store_b_last) = "/a/b/photo.png" ∧
  selectIndex 3 store_b_last = Done tt store_b_last ∧
  selectNext store_b_last = Done tt store_b_last ∧
  selectPrevious store_ab = Done tt store_ab.
Proof.
  assert (Z.of_nat (length (filteredItems (state store_b_last))) ≤ 3) as H3
    by (by vm_compute).
  assert (selectedIndex (state store_b_last) =
          Z.of_nat (length (filteredItems (state store_b_last))) - 1) as Hl
    by (vm_compute; reflexivity).
  assert (selectedIndex (state store_ab) ≤ 0) as Hf by (by vm_compute).
  split_and!; [vm_compute; reflexivity|..].
  - exact (proj1 (selection_stops_at_ends 3 store_b_last) (or_intror H3)).
  - exact (proj1 (proj2 (selection_stops_at_ends 3 store_b_last)) Hl).
  - exact (proj2 (proj2 (selection_stops_at_ends 0 store_ab)) Hf).
Defined.

(** The store whose committed directory [/gone] cannot be watched. *)
Definition store_gone : Store := init_store (Some "/gone") env0.

Lemma load_outcome_witness :
  Entry.name <$> items (state (final (load store0))) = ["Img2.JPG"; "b"; "c"; "x.png"] ∧
  watcher (final (load store0)) = Some 0%nat ∧
  load store_gone = Done tt (final (load store_gone)) ∧
  items (state (final (load store_gone))) = [] ∧
  trace (final (load store_gone)) = [FocusExplorerTable].
Proof.
  destruct (load_outcome store0) as (_ & Hs & _ & _ & Hw & _).
  destruct (load_outcome store_gone) as (Hrun & _ & _ & _ & _ & Htr & Hnil).
  split_and!; [rewrite Hs| rewrite Hw|exact Hrun|apply Hnil; left|rewrite Htr];
    vm_compute; reflexivity.
Defined.

Lemma showViewer_outcome_witness :
  showViewer "/a/b/photo.png" store_ab =
    Done tt
      (with_trace
         (ViewerShow ["/a/b/image1.png"; "/a/b/photo.png"; "/a/b/imgur.jpg"]
            (Some "/a/b/photo.png")) store_ab) ∧
  showViewer "/gone/x.png" store_ab = Raised (FsError (Some "/gone")) store_ab.
Proof.
  split; (etrans; [apply showViewer_outcome|]); vm_compute; reflexivity.
Defined.
