(* ===== verification/FileContract.v ===== *)
(** * What the module relies on of the File utility

    [utils/file] is imported by the module and lives outside it.  The class
    [FileContract] states the part of its behaviour the explorer depends
    on: the object [toObject] returns repeats the path and the
    classification of its file, a listing names every child once and by a
    non-empty path, the children of one directory have distinct names,
    and a [File] made from the path of a listed child is that child, in
    that directory.  From the contract, the entries [load]
    stores are directories and images with distinct paths; [env0] of
    [Fixture.v] satisfies it. *)

From stdpp Require Import base tactics list strings gmap.
From Stdlib Require Import ZArith Lia.
From S2P Require Import Prelude JsString Act Model SortEngine Actions Fixture Listing.

#[local] Open Scope Z_scope.

(** [toObject] copies the path and the classification. *)
Definition coherent (f : File.t) : Prop :=
  Entry.path (File.toObject f) = File.path f ∧
  Entry.isDirectory (File.toObject f) = File.isDirectory f ∧
  Entry.isImage (File.toObject f) = File.isImage f.

(** [new File(f.path)] is the child [f] of [dir]. *)
Definition stat_agrees (e : Env) (dir : option string) (f : File.t) : Prop :=
  File.isDirectory (new_File e (Some (File.path f))) = File.isDirectory f ∧
  File.parentPath (new_File e (Some (File.path f))) = js_to_string dir.

Class FileContract (e : Env) : Prop := {
  listFiles_coherent dir recursive files :
    listFiles e dir recursive = Some files → Forall coherent files;
  listFiles_distinct dir recursive files :
    listFiles e dir recursive = Some files → NoDup (File.path <$> files);
  listFiles_named dir recursive files :
    listFiles e dir recursive = Some files → Forall (λ f, File.path f ≠ "") files;
  listFiles_stat dir files :
    listFiles e dir false = Some files → Forall (stat_agrees e dir) files;
  listFiles_names dir files :
    listFiles e dir false = Some files →
    NoDup (Entry.name <$> (File.toObject <$> files));
  new_File_path p : File.path (new_File e (Some p)) = p
}.

(** What the table of the explorer shows: a directory or an image. *)
Definition shown (file : Entry.t) : Prop :=
  Entry.isDirectory file || Entry.isImage file = true.

(** The entries are directories and images, no path twice. *)
Record items_ok (l : list Entry.t) : Prop := {
  items_shown : Forall shown l;
  items_distinct : NoDup (Entry.path <$> l)
}.

(** The items are those of the committed directory in the filesystem as
    it is now, in some order. *)
Definition fresh (σ : Store) : Prop := items (state σ) ≡ₚ listed σ.

#[export] Instance coherent_dec f : Decision (coherent f).
Proof. unfold coherent. apply _. Defined.
#[export] Instance stat_agrees_dec e dir f : Decision (stat_agrees e dir f).
Proof. unfold stat_agrees. apply _. Defined.
#[export] Instance shown_dec file : Decision (shown file).
Proof. unfold shown. apply _. Defined.

#[export] Instance items_ok_perm : Proper ((≡ₚ) ==> iff) items_ok.
Proof.
  assert (∀ l l', l ≡ₚ l' → items_ok l → items_ok l') as Himp.
  { intros l l' Hp [Hs Hd]. split; by rewrite <- Hp. }
  intros l l' Hp. split; by apply Himp.
Qed.

Lemma items_ok_nil : items_ok [].
Proof. split; constructor. Qed.

Section Contract.
Context (e : Env) `{!FileContract e}.

(** The paths of the entries are the paths of their files. *)
Lemma toObject_paths dir recursive files :
  listFiles e dir recursive = Some files →
  Entry.path <$> (File.toObject <$> files) = File.path <$> files.
Proof.
  intros Hl%listFiles_coherent. rewrite <- list_fmap_compose.
  apply Forall_fmap_ext_1. eapply Forall_impl; [done|]. by intros f [? _].
Qed.

(** A file the filter of [load] keeps becomes an entry that is shown. *)
Lemma coherent_shown f :
  coherent f → File.isDirectory f || File.isImage f = true → shown (File.toObject f).
Proof. unfold shown. by intros (_ & -> & ->). Qed.

Lemma list_items_ok dir files :
  listFiles e dir false = Some files →
  items_ok (File.toObject <$>
            List.filter (λ file, File.isDirectory file || File.isImage file) files).
Proof.
  intros Hl. pose proof (listFiles_coherent _ _ _ Hl) as Hc.
  pose proof (listFiles_distinct _ _ _ Hl) as Hd. split.
  - apply Forall_fmap, Forall_forall. intros f [Hf Hk]%elem_of_List_filter.
    apply coherent_shown; [|done]. by eapply Forall_forall in Hc.
  - rewrite <- list_fmap_compose.
    rewrite (Forall_fmap_ext_1 (Entry.path ∘ File.toObject) File.path).
    + by apply List_filter_NoDup.
    + apply Forall_forall. intros f [Hf _]%elem_of_List_filter.
      by eapply Forall_forall in Hc as [? _].
Qed.

End Contract.

(** What [load] leaves in [items] satisfies [items_ok]. *)
Lemma listed_items_ok σ : FileContract (env σ) → items_ok (listed σ).
Proof.
  intros He. unfold listed. destruct (fs_watch_ok _ _); [|apply items_ok_nil].
  destruct (listFiles _ _ _) eqn:Hl; [by eapply list_items_ok | apply items_ok_nil].
Qed.

(** A listed entry comes from a file of the committed directory. *)
Lemma listed_file σ file :
  file ∈ listed σ →
  ∃ files f, listFiles (env σ) (directory σ) false = Some files ∧ f ∈ files ∧
             file = File.toObject f.
Proof.
  unfold listed. destruct (fs_watch_ok _ _); [|by intros ?%elem_of_nil].
  destruct (listFiles _ _ _) as [files|]; [|by intros ?%elem_of_nil].
  intros (f & -> & [Hf _]%elem_of_List_filter)%list_elem_of_fmap. eauto.
Qed.

(** The entries [load] lists have distinct names. *)
Lemma listed_names σ : FileContract (env σ) → NoDup (Entry.name <$> listed σ).
Proof.
  intros He. unfold listed. destruct (fs_watch_ok _ _); [|constructor].
  destruct (listFiles _ _ _) as [files|] eqn:Hl; [|constructor].
  rewrite <- list_fmap_compose. apply List_filter_NoDup.
  rewrite list_fmap_compose. by eapply listFiles_names.
Qed.

(** The filter keeps the paths distinct. *)
Lemma items_ok_filtered (s : State) :
  items_ok (items s) → NoDup (Entry.path <$> filteredItems s).
Proof. intros [_ Hd]. by apply List_filter_NoDup. Qed.

(** ** The concrete environment *)

Lemma env0_listings dir recursive files :
  listFiles env0 dir recursive = Some files →
  (dir = Some "/a" ∧ files = files_a) ∨ (dir = Some "/a/b" ∧ files = files_b) ∨
  files = [].
Proof. simpl. repeat case_decide; naive_solver. Qed.

#[export] Instance env0_contract : FileContract env0.
Proof.
  split; [intros dir ? files Hl..|intros dir files Hl|intros dir files Hl|done];
    apply env0_listings in Hl as [[-> ->]|[[-> ->]| ->]];
    by apply (bool_decide_unpack _); vm_compute.
Qed.
