(* ===== verification/HistoryStack.v ===== *)
(** * The history stack and the navigation actions

    What [changeDirectory], [backDirectory], [forwardDirectory],
    [restoreDirectory] and [setScrollTop] do to [histories], to the cursor
    [historyIndex] and to the committed directory: the equations of each
    action on every branch, the cursor invariant, and the raise of
    [restoreDirectory] outside the array. *)

From stdpp Require Import base tactics list strings gmap.
From Stdlib Require Import ZArith Lia.
From S2P Require Import Prelude JsString Act Model SortEngine Actions Fixture Listing.

#[local] Open Scope Z_scope.
#[local] Open Scope act_scope.

(** ** The invariant *)

(** The cursor is -1 with no record at all, or it indexes a record whose
    directory is the committed one. *)
Definition wf (σ : Store) : Prop :=
  (historyIndex (state σ) = -1 ∧ histories (state σ) = []) ∨
  History.directory <$> js_nth (histories (state σ)) (historyIndex (state σ)) =
    Some (directory σ).

#[export] Instance wf_dec σ : Decision (wf σ).
Proof. unfold wf. apply _. Defined.

(** The store [restoreDirectory] hands to [load] when the record exists. *)
Definition restored (i : Z) (h : History.t) (σ : Store) : Store :=
  with_state (setQuery "")
    (with_state (setDirectoryInput (History.directory h))
       (setDirectory (History.directory h)
          (with_state (setHistoryIndex i) σ))).

(** The store [changeDirectory] hands to [restoreDirectory]. *)
Definition pushed (dirpath : option string) (σ : Store) : Store :=
  let s := state σ in
  with_state (setHistoryIndex (historyIndex s + 1))
    (with_state
       (setHistories
          (js_slice (histories s) 0 (historyIndex s + 1) ++
           [{| History.directory := dirpath; History.scrollTop := 0 |}]))
       (with_state (setSelectedFilepath "") σ)).

Section History.
Context `{!ArraySort}.
Implicit Types (σ : Store) (i k offset : Z) (d dirpath : option string).

(** ** The invariant through [load] *)

(** [wf] reads the records, the cursor and the committed directory only. *)
Lemma wf_frame σ σ' :
  histories (state σ') = histories (state σ) →
  historyIndex (state σ') = historyIndex (state σ) →
  directory σ' = directory σ → wf σ → wf σ'.
Proof. unfold wf. by intros -> -> ->. Qed.

Lemma wf_load : preserves wf load.
Proof.
  intros σ. apply wf_frame; by autorewrite with explorer.
Qed.

(** ** [restoreDirectory] *)

Lemma restoreDirectory_Some i h σ :
  js_nth (histories (state σ)) i = Some h →
  restoreDirectory i σ = load (restored i h σ).
Proof. intros Hh. unfold restoreDirectory, bind, gets. simpl. by rewrite Hh. Qed.

Lemma restoreDirectory_None i σ :
  js_nth (histories (state σ)) i = None →
  restoreDirectory i σ =
    Raised (TypeError "directory") (with_state (setHistoryIndex i) σ).
Proof. intros Hh. unfold restoreDirectory, bind, gets. simpl. by rewrite Hh. Qed.

(** [restoreDirectory] commits its index first, so a cursor committed just
    before the dispatch, as line 55 does, is overwritten by the same
    value. *)
Lemma restoreDirectory_overwrites_cursor i j σ :
  restoreDirectory i (with_state (setHistoryIndex j) σ) = restoreDirectory i σ.
Proof. unfold restoreDirectory, bind, gets. simpl. by destruct (js_nth _ _). Qed.

(** A restore inside the array moves the cursor, commits the record's
    directory, clears the query and leaves the records alone. *)
Lemma restoreDirectory_final i h σ :
  js_nth (histories (state σ)) i = Some h →
  let σ' := final (restoreDirectory i σ) in
  raised (restoreDirectory i σ) = false ∧
  histories (state σ') = histories (state σ) ∧
  historyIndex (state σ') = i ∧
  directory σ' = History.directory h ∧
  directoryInput (state σ') = History.directory h ∧
  query (state σ') = "" ∧
  selectedFilepath (state σ') = selectedFilepath (state σ).
Proof.
  intros Hh. rewrite (restoreDirectory_Some _ _ _ Hh), load_Done. simpl.
  by rewrite load_state, load_directory.
Qed.

(** The module state after a restore inside the array, in closed form. *)
Lemma restoreDirectory_state i h σ :
  js_nth (histories (state σ)) i = Some h →
  state (final (restoreDirectory i σ)) =
    setItems
      (array_sort (compareItems (sortOption (state σ)))
         (listed (setDirectory (History.directory h) σ)))
      (setQuery "" (setDirectoryInput (History.directory h)
                      (setHistoryIndex i (state σ)))) ∧
  env (final (restoreDirectory i σ)) = env σ.
Proof.
  intros Hh. rewrite (restoreDirectory_Some _ _ _ Hh), load_env, load_state, load_items.
  done.
Qed.

Lemma wf_restoreDirectory i h σ :
  js_nth (histories (state σ)) i = Some h → wf (final (restoreDirectory i σ)).
Proof.
  intros Hh. destruct (restoreDirectory_final i h σ Hh) as (_ & Hhs & Hi & Hd & _).
  right. by rewrite Hhs, Hi, Hh, Hd.
Qed.

(** ** [changeDirectory] *)

(** The cursor is -1 or inside the array. *)
Definition cursor_ok (s : State) : Prop :=
  -1 ≤ historyIndex s < Z.of_nat (length (histories s)).

Lemma wf_cursor_ok σ : wf σ → cursor_ok (state σ).
Proof.
  unfold wf, cursor_ok. intros [[-> ->]|Hh]; [simpl; lia|].
  destruct (js_nth _ _) eqn:Hn; [|done]. js_bounds. lia.
Qed.

Lemma changeDirectory_same σ :
  changeDirectory (directory σ) false σ = Done tt σ.
Proof.
  unfold changeDirectory, bind, gets. simpl. by rewrite bool_decide_eq_true_2.
Qed.

Lemma changeDirectory_go dirpath force σ :
  dirpath ≠ directory σ ∨ force = true →
  changeDirectory dirpath force σ =
    restoreDirectory (historyIndex (state σ) + 1) (pushed dirpath σ).
Proof.
  intros Hgo. unfold changeDirectory, bind, gets. simpl.
  destruct Hgo as [Hne| ->]; [by rewrite bool_decide_eq_false_2|].
  by rewrite andb_false_r.
Qed.

Lemma pushed_histories dirpath σ :
  cursor_ok (state σ) →
  histories (state (pushed dirpath σ)) =
    take (Z.to_nat (historyIndex (state σ) + 1)) (histories (state σ)) ++
    [{| History.directory := dirpath; History.scrollTop := 0 |}].
Proof. intros [? ?]. simpl. by rewrite js_slice_prefix by lia. Qed.

Lemma pushed_nth dirpath σ :
  cursor_ok (state σ) →
  js_nth (histories (state (pushed dirpath σ))) (historyIndex (state σ) + 1) =
    Some {| History.directory := dirpath; History.scrollTop := 0 |}.
Proof.
  intros Hc. rewrite pushed_histories by done. destruct Hc as [? ?].
  set (l := take _ _).
  replace (historyIndex (state σ) + 1) with (Z.of_nat (length l));
    [apply js_nth_app_last|]. unfold l. rewrite length_take. lia.
Qed.

Lemma changeDirectory_run dirpath force σ :
  cursor_ok (state σ) → dirpath ≠ directory σ ∨ force = true →
  changeDirectory dirpath force σ =
    load (restored (historyIndex (state σ) + 1)
            {| History.directory := dirpath; History.scrollTop := 0 |}
            (pushed dirpath σ)).
Proof.
  intros Hc Hgo. rewrite changeDirectory_go by done.
  apply restoreDirectory_Some. by apply pushed_nth.
Qed.

(** ** The getters [backDirectories] and [forwardDirectories] *)

(** The [k]-th directory shown for "back" is the record [k + 1] places
    before the cursor. *)
Lemma backDirectories_lookup (s : State) (k : nat) :
  0 ≤ historyIndex s ≤ Z.of_nat (length (histories s)) →
  Z.of_nat k < historyIndex s →
  backDirectories s !! k =
    History.directory <$> js_nth (histories s) (historyIndex s - 1 - Z.of_nat k).
Proof.
  intros Hi Hk. unfold backDirectories. rewrite js_slice_prefix by lia.
  rewrite list_lookup_fmap, reverse_lookup by (rewrite length_take; lia).
  rewrite length_take, lookup_take_lt by lia.
  replace (historyIndex s - 1 - Z.of_nat k) with
    (Z.of_nat (Z.to_nat (historyIndex s) `min` length (histories s) - S k)) by lia.
  by rewrite js_nth_nat.
Qed.

Lemma backDirectories_length (s : State) :
  0 ≤ historyIndex s ≤ Z.of_nat (length (histories s)) →
  Z.of_nat (length (backDirectories s)) = historyIndex s.
Proof.
  intros Hi. unfold backDirectories.
  rewrite length_fmap, length_reverse, js_slice_prefix, length_take by lia. lia.
Qed.

(** The [k]-th directory shown for "forward" is the record [k + 1] places
    after the cursor. *)
Lemma forwardDirectories_lookup (s : State) (k : nat) :
  -1 ≤ historyIndex s →
  forwardDirectories s !! k =
    History.directory <$> js_nth (histories s) (historyIndex s + 1 + Z.of_nat k).
Proof.
  intros Hi. unfold forwardDirectories. rewrite js_slice_suffix by lia.
  rewrite list_lookup_fmap, lookup_drop.
  replace (historyIndex s + 1 + Z.of_nat k) with
    (Z.of_nat (Z.to_nat (historyIndex s + 1) + k)) by lia.
  by rewrite js_nth_nat.
Qed.

Lemma forwardDirectories_length (s : State) :
  cursor_ok s →
  Z.of_nat (length (forwardDirectories s)) =
    Z.of_nat (length (histories s)) - 1 - historyIndex s.
Proof.
  intros [? ?]. unfold forwardDirectories.
  rewrite length_fmap, js_slice_suffix, length_drop by lia. lia.
Qed.

(** ** [backDirectory] and [forwardDirectory] *)

Lemma backDirectory_blocked offset σ :
  canBackDirectory (state σ) = false → backDirectory offset σ = Done tt σ.
Proof. intros Hb. unfold backDirectory, bind, gets. simpl. by rewrite Hb. Qed.

Lemma backDirectory_go offset σ :
  canBackDirectory (state σ) = true →
  backDirectory offset σ = restoreDirectory (historyIndex (state σ) - 1 - offset) σ.
Proof. intros Hb. unfold backDirectory, bind, gets. simpl. by rewrite Hb. Qed.

Lemma forwardDirectory_blocked offset σ :
  canForwardDirectory (state σ) = false → forwardDirectory offset σ = Done tt σ.
Proof. intros Hb. unfold forwardDirectory, bind, gets. simpl. by rewrite Hb. Qed.

Lemma forwardDirectory_go offset σ :
  canForwardDirectory (state σ) = true →
  forwardDirectory offset σ = restoreDirectory (historyIndex (state σ) + 1 + offset) σ.
Proof. intros Hb. unfold forwardDirectory, bind, gets. simpl. by rewrite Hb. Qed.

Lemma canBackDirectory_true (s : State) : canBackDirectory s = true ↔ 0 < historyIndex s.
Proof. unfold canBackDirectory. rewrite Z.gtb_ltb. apply Z.ltb_lt. Qed.

Lemma canForwardDirectory_true (s : State) :
  canForwardDirectory s = true ↔ historyIndex s < Z.of_nat (length (histories s)) - 1.
Proof. unfold canForwardDirectory. apply Z.ltb_lt. Qed.

(** What a navigation that goes leaves behind. *)
Lemma changeDirectory_final dirpath force σ :
  cursor_ok (state σ) → dirpath ≠ directory σ ∨ force = true →
  let σ' := final (changeDirectory dirpath force σ) in
  raised (changeDirectory dirpath force σ) = false ∧
  histories (state σ') =
    take (Z.to_nat (historyIndex (state σ) + 1)) (histories (state σ)) ++
    [{| History.directory := dirpath; History.scrollTop := 0 |}] ∧
  historyIndex (state σ') = historyIndex (state σ) + 1 ∧
  directory σ' = dirpath ∧
  selectedFilepath (state σ') = "" ∧ wf σ'.
Proof.
  intros Hc Hgo. rewrite changeDirectory_go by done.
  pose proof (pushed_nth dirpath σ Hc) as Hn.
  destruct (restoreDirectory_final _ _ _ Hn) as (Hr & Hhs & Hi & Hd & _ & _ & Hsel).
  rewrite pushed_histories in Hhs by done. simpl in *.
  split_and!; try done. by eapply wf_restoreDirectory.
Qed.

(** C1: [changeDirectory] on both branches, from a store whose cursor is
    -1 or inside [histories]; it does not raise.  To the committed
    directory and without [force] it is a no-op: no record is added, the
    cursor stays and nothing is reloaded.  Otherwise it keeps the records
    up to the cursor, drops the records after it, appends the record of the
    new directory with scroll offset 0 and moves the cursor to it, commits
    the new directory, and clears the selection; no forward history is
    left. *)
Theorem changeDirectory_push dirpath force σ :
  cursor_ok (state σ) →
  let σ' := final (changeDirectory dirpath force σ) in
  raised (changeDirectory dirpath force σ) = false ∧
  if bool_decide (dirpath = directory σ) && negb force then σ' = σ
  else
    histories (state σ') =
      take (Z.to_nat (historyIndex (state σ) + 1)) (histories (state σ)) ++
      [{| History.directory := dirpath; History.scrollTop := 0 |}] ∧
    historyIndex (state σ') = historyIndex (state σ) + 1 ∧
    directory σ' = dirpath ∧
    selectedFilepath (state σ') = "" ∧
    forwardDirectories (state σ') = [] ∧
    canForwardDirectory (state σ') = false.
Proof.
  intros Hc. destruct (bool_decide (dirpath = directory σ) && negb force) eqn:Hb.
  { unfold changeDirectory, bind, gets. simpl. by rewrite Hb. }
  assert (dirpath ≠ directory σ ∨ force = true) as Hgo
    by (apply andb_false_iff in Hb as [?%bool_decide_eq_false|?%negb_false_iff]; eauto).
  destruct (changeDirectory_final dirpath force σ Hc Hgo) as (Hr & Hhs & Hi & Hd & Hsel & _).
  simpl in *. split_and!; try done.
  - unfold forwardDirectories. rewrite Hhs, Hi, js_slice_suffix by (destruct Hc; lia).
    rewrite drop_ge; [done|]. destruct Hc. rewrite length_app, length_take. simpl. lia.
  - unfold canForwardDirectory. rewrite Hhs, Hi. destruct Hc.
    rewrite length_app, length_take. simpl. case_Z_tests; lia.
Qed.

Lemma backDirectory_final offset h σ :
  canBackDirectory (state σ) = true →
  js_nth (histories (state σ)) (historyIndex (state σ) - 1 - offset) = Some h →
  let σ' := final (backDirectory offset σ) in
  raised (backDirectory offset σ) = false ∧
  histories (state σ') = histories (state σ) ∧
  historyIndex (state σ') = historyIndex (state σ) - 1 - offset ∧
  directory σ' = History.directory h ∧ wf σ'.
Proof.
  intros Hb Hh. rewrite backDirectory_go by done.
  destruct (restoreDirectory_final _ _ _ Hh) as (? & ? & ? & ? & _).
  split_and!; try done. by eapply wf_restoreDirectory.
Qed.

Lemma forwardDirectory_final offset h σ :
  canForwardDirectory (state σ) = true →
  js_nth (histories (state σ)) (historyIndex (state σ) + 1 + offset) = Some h →
  let σ' := final (forwardDirectory offset σ) in
  raised (forwardDirectory offset σ) = false ∧
  histories (state σ') = histories (state σ) ∧
  historyIndex (state σ') = historyIndex (state σ) + 1 + offset ∧
  directory σ' = History.directory h ∧ wf σ'.
Proof.
  intros Hb Hh. rewrite forwardDirectory_go by done.
  destruct (restoreDirectory_final _ _ _ Hh) as (? & ? & ? & ? & _).
  split_and!; try done. by eapply wf_restoreDirectory.
Qed.

(** In a well-formed store a cursor of -1 shows no back directory. *)
Lemma backDirectories_Some_range (k : nat) d σ :
  wf σ → backDirectories (state σ) !! k = Some d →
  Z.of_nat k < historyIndex (state σ) < Z.of_nat (length (histories (state σ))).
Proof.
  intros Hwf Hk. pose proof (wf_cursor_ok _ Hwf) as [Hlo Hhi].
  apply lookup_lt_Some in Hk.
  destruct (decide (historyIndex (state σ) = -1)) as [Hm|Hm].
  - destruct Hwf as [[_ Hnil]|Hh].
    + unfold backDirectories in Hk. rewrite Hnil, js_slice_nil in Hk. simpl in Hk. lia.
    + rewrite Hm in Hh. done.
  - pose proof (backDirectories_length (state σ)). lia.
Qed.

(** C3: in a well-formed store, [backDirectory] with offset [k] commits the
    [k]-th directory that the getter [backDirectories] shows, moves the
    cursor [k + 1] places back, keeps every record, does not raise and
    leaves the store well formed. *)
Theorem backDirectory_lands (k : nat) d σ :
  wf σ → backDirectories (state σ) !! k = Some d →
  let σ' := final (backDirectory (Z.of_nat k) σ) in
  raised (backDirectory (Z.of_nat k) σ) = false ∧
  histories (state σ') = histories (state σ) ∧
  historyIndex (state σ') = historyIndex (state σ) - 1 - Z.of_nat k ∧
  directory σ' = d ∧ wf σ'.
Proof.
  intros Hwf Hk. pose proof (backDirectories_Some_range _ _ _ Hwf Hk) as [? ?].
  rewrite backDirectories_lookup in Hk by lia.
  destruct (js_nth _ _) as [h|] eqn:Hh; simplify_eq/=.
  apply backDirectory_final; [|done]. apply canBackDirectory_true. lia.
Qed.

(** C4: in a store whose cursor is -1 or inside [histories],
    [forwardDirectory] with offset [k] commits the [k]-th directory that
    the getter [forwardDirectories] shows, moves the cursor [k + 1] places
    forward, keeps every record, does not raise and leaves the store well
    formed. *)
Theorem forwardDirectory_lands (k : nat) d σ :
  cursor_ok (state σ) → forwardDirectories (state σ) !! k = Some d →
  let σ' := final (forwardDirectory (Z.of_nat k) σ) in
  raised (forwardDirectory (Z.of_nat k) σ) = false ∧
  histories (state σ') = histories (state σ) ∧
  historyIndex (state σ') = historyIndex (state σ) + 1 + Z.of_nat k ∧
  directory σ' = d ∧ wf σ'.
Proof.
  intros [Hlo Hhi] Hk. pose proof (lookup_lt_Some _ _ _ Hk) as Hlt.
  pose proof (forwardDirectories_length (state σ) (conj Hlo Hhi)).
  rewrite forwardDirectories_lookup in Hk by lia.
  destruct (js_nth _ _) as [h|] eqn:Hh; simplify_eq/=.
  apply forwardDirectory_final; [|done]. apply canForwardDirectory_true. lia.
Qed.

(** Going back with an offset that stays inside the back list and then
    forward with the same offset returns the cursor and the committed
    directory to what they were. *)
Lemma back_forward_inverse offset σ :
  wf σ → 0 ≤ offset < historyIndex (state σ) →
  let σ1 := final (backDirectory offset σ) in
  let σ2 := final (forwardDirectory offset σ1) in
  raised (backDirectory offset σ) = false ∧
  raised (forwardDirectory offset σ1) = false ∧
  histories (state σ2) = histories (state σ) ∧
  historyIndex (state σ2) = historyIndex (state σ) ∧
  directory σ2 = directory σ.
Proof.
  intros Hwf Hoff. pose proof (wf_cursor_ok _ Hwf) as [_ Hhi].
  destruct Hwf as [[? _]|Hcur]; [lia|].
  destruct (js_nth _ (historyIndex _)) as [hc|] eqn:Hc; simplify_eq/=.
  destruct (js_nth_in_range (histories (state σ))
              (historyIndex (state σ) - 1 - offset)) as [_ [h Hh]]; [lia|].
  destruct (backDirectory_final offset h σ) as (Hr1 & Hhs1 & Hi1 & _);
    [apply canBackDirectory_true; lia | done |].
  destruct (forwardDirectory_final offset hc (final (backDirectory offset σ)))
    as (Hr2 & Hhs2 & Hi2 & Hd2 & _).
  - apply canForwardDirectory_true. rewrite Hhs1, Hi1. lia.
  - rewrite Hhs1, Hi1. by replace (_ - 1 - offset + 1 + offset)
      with (historyIndex (state σ)) by lia.
  - split_and!; try done; [congruence | lia | congruence].
Qed.

(** ** Offsets that leave the array *)

(** A cursor outside [-1, length - 1] is not well formed, and neither is
    -1 with records. *)
Lemma not_wf_out_of_range σ :
  historyIndex (state σ) < 0 → histories (state σ) ≠ [] → ¬ wf σ.
Proof.
  intros Hneg Hne [[_ ?]|Hcur]; [done|].
  destruct (js_nth _ _) eqn:Hn; [|done].
  apply js_nth_Some in Hn. lia.
Qed.

Lemma not_wf_past_end σ :
  Z.of_nat (length (histories (state σ))) ≤ historyIndex (state σ) → ¬ wf σ.
Proof.
  intros Hge [[? _]|Hcur]; [lia|].
  destruct (js_nth _ _) eqn:Hn; [|done]. js_bounds. lia.
Qed.

(** C25: outside the range of the history, the guard is all that is
    checked.  When going back is allowed and the offset is at least the
    cursor, [backDirectory] writes the negative target into [historyIndex]
    and then raises a [TypeError]; when going forward is allowed and the
    offset reaches past the last record, [forwardDirectory] writes the
    target past the array and raises.  Nothing else of the store changes,
    and the store that is left is not well formed: its cursor is outside
    the records.  When the getter [canBackDirectory], or
    [canForwardDirectory], is false, that is with the cursor on the first,
    or last, record or on none, the action returns at once with the store
    as it was, whatever the offset. *)
Theorem overshoot_raises offset σ :
  let s := state σ in
  (0 < historyIndex s → historyIndex s ≤ offset →
   let σ' := with_state (setHistoryIndex (historyIndex s - 1 - offset)) σ in
   backDirectory offset σ = Raised (TypeError "directory") σ' ∧
   (wf σ → ¬ wf σ')) ∧
  (historyIndex s < Z.of_nat (length (histories s)) - 1 →
   Z.of_nat (length (histories s)) ≤ historyIndex s + 1 + offset →
   let σ' := with_state (setHistoryIndex (historyIndex s + 1 + offset)) σ in
   forwardDirectory offset σ = Raised (TypeError "directory") σ' ∧
   ¬ wf σ') ∧
  (historyIndex s ≤ 0 → backDirectory offset σ = Done tt σ) ∧
  (Z.of_nat (length (histories s)) - 1 ≤ historyIndex s →
   forwardDirectory offset σ = Done tt σ).
Proof.
  split_and!; [intros Hgo Hoff; cbv zeta; split..| |].
  - rewrite backDirectory_go by by apply canBackDirectory_true.
    apply restoreDirectory_None, js_nth_None; lia.
  - intros Hwf. apply not_wf_out_of_range; simpl; [lia|].
    pose proof (wf_cursor_ok _ Hwf) as [_ Hlen]. intros Hnil. rewrite Hnil in Hlen.
    simpl in Hlen. lia.
  - rewrite forwardDirectory_go by by apply canForwardDirectory_true.
    apply restoreDirectory_None, js_nth_None; lia.
  - by apply not_wf_past_end.
  - intros Hi. apply backDirectory_blocked. unfold canBackDirectory. case_Z_tests; lia.
  - intros Hi. apply forwardDirectory_blocked. unfold canForwardDirectory.
    case_Z_tests; lia.
Qed.

(** ** [setScrollTop] *)

Lemma setScrollTop_run v σ :
  setScrollTop v σ =
    Done tt
      (with_state
         (setHistory
            {| History.directory :=
                 h ← js_nth (histories (state σ)) (historyIndex (state σ));
                 History.directory h;
               History.scrollTop := v |}
            (historyIndex (state σ))) σ).
Proof. done. Qed.

(** Inside the array, the two slices of [setHistory] replace one record. *)
Lemma setHistory_insert h i (s : State) :
  0 ≤ i < Z.of_nat (length (histories s)) →
  histories (setHistory h i s) = <[Z.to_nat i := h]> (histories s).
Proof.
  intros Hi. unfold setHistory. simpl.
  rewrite js_slice_prefix, js_slice_suffix by lia.
  rewrite insert_take_drop by lia. do 3 f_equal. lia.
Qed.

Lemma setScrollTop_final v h σ :
  js_nth (histories (state σ)) (historyIndex (state σ)) = Some h →
  let σ' := final (setScrollTop v σ) in
  histories (state σ') =
    <[Z.to_nat (historyIndex (state σ)) :=
        {| History.directory := History.directory h; History.scrollTop := v |}]>
      (histories (state σ)) ∧
  historyIndex (state σ') = historyIndex (state σ) ∧
  directory σ' = directory σ.
Proof.
  intros Hh. rewrite setScrollTop_run, Hh. js_bounds. split_and!; [|done..].
  by apply (setHistory_insert _ _ (state σ)).
Qed.

Lemma wf_setScrollTop v h σ :
  js_nth (histories (state σ)) (historyIndex (state σ)) = Some h →
  wf σ → wf (final (setScrollTop v σ)).
Proof.
  intros Hh [[Hi Hnil]|Hcur]; [by rewrite Hnil, Hi in Hh|].
  destruct (setScrollTop_final v h σ Hh) as (Hhs & Hi & Hd). js_bounds.
  right. rewrite Hhs, Hi, Hd.
  rewrite js_nth_insert by done. by rewrite Hh in Hcur.
Qed.

(** With the cursor on a record, [setScrollTop v] replaces that record by
    one with the same directory and scroll offset [v]. *)
Lemma setScrollTop_on_record v h σ :
  js_nth (histories (state σ)) (historyIndex (state σ)) = Some h →
  let σ' := final (setScrollTop v σ) in
  histories (state σ') =
    <[Z.to_nat (historyIndex (state σ)) :=
        {| History.directory := History.directory h; History.scrollTop := v |}]>
      (histories (state σ)) ∧
  historyIndex (state σ') = historyIndex (state σ) ∧
  directory σ' = directory σ ∧
  scrollTop (state σ') = inr v ∧
  (wf σ → wf σ').
Proof.
  intros Hh. destruct (setScrollTop_final v h σ Hh) as (Hhs & Hi & Hd). js_bounds.
  split_and!; [done..| |by apply (wf_setScrollTop v h)].
  unfold scrollTop. by rewrite Hhs, Hi, js_nth_insert.
Qed.

(** With the cursor at -1 the two slices of [setHistory] do not replace a
    record: they keep all but the last record, then the new one, then
    every record again. *)
Lemma setScrollTop_unplaced v σ :
  historyIndex (state σ) = -1 →
  let σ' := final (setScrollTop v σ) in
  historyIndex (state σ') = -1 ∧
  length (histories (state σ')) = (1 `max` (2 * length (histories (state σ))))%nat.
Proof.
  intros Hi. rewrite setScrollTop_run, Hi. split; [done|]. simpl.
  rewrite js_slice_suffix by lia. apply Nat2Z.inj.
  rewrite length_app, Nat2Z.inj_add, js_slice_length. simpl.
  rewrite js_clamp_neg, (js_clamp_in _ 0) by lia.
  change (Z.to_nat (-1 + 1)) with 0%nat. rewrite drop_0. lia.
Qed.

(** The store after [n] scroll reports with no navigation in between. *)
Definition scrolled (v : Z) (n : nat) (σ : Store) : Store :=
  Nat.iter n (λ σ, final (setScrollTop v σ)) σ.

Lemma scrolled_length v dir e n :
  historyIndex (state (scrolled v (S n) (init_store dir e))) = -1 ∧
  length (histories (state (scrolled v (S n) (init_store dir e)))) = (2 ^ n)%nat.
Proof.
  induction n as [|n [IHi IHl]]; [done|].
  destruct (setScrollTop_unplaced v _ IHi) as [Hi Hl]. split; [done|].
  change (scrolled v (S (S n)) ?σ) with (final (setScrollTop v (scrolled v (S n) σ))).
  rewrite Hl, IHl. pose proof (Nat.pow_nonzero 2 n). simpl. lia.
Qed.

(** In the initial store [setScrollTop] adds a record that has no
    directory. *)
Lemma setScrollTop_pristine v dir e :
  let σ' := final (setScrollTop v (init_store dir e)) in
  histories (state σ') = [{| History.directory := None; History.scrollTop := v |}] ∧
  historyIndex (state σ') = -1 ∧
  canForwardDirectory (state σ') = true ∧
  ¬ wf σ' ∧
  directory (final (forwardDirectory 0 σ')) = None ∧
  ∀ n, length (histories (state (scrolled v (S n) (init_store dir e)))) = (2 ^ n)%nat.
Proof.
  split_and!; try done.
  - by apply not_wf_out_of_range.
  - rewrite forwardDirectory_go by done.
    by edestruct (restoreDirectory_final (-1 + 1 + 0)) as (_ & _ & _ & -> & _).
  - intros n. apply scrolled_length.
Qed.

(** C38: [setScrollTop] on both branches.  With the cursor on a record,
    [setScrollTop v] replaces that record by one with the same directory
    and scroll offset [v], keeps the other records, the cursor and the
    committed directory, and the getter [scrollTop] then returns [v]; the
    store stays well formed.  In the initial store, before any navigation,
    it adds a record that has no directory and leaves the cursor at -1;
    going forward is then allowed, and [forwardDirectory] commits
    [undefined] as the directory; every further scroll report doubles the
    number of records. *)
Theorem setScrollTop_outcome v :
  (∀ h σ,
     js_nth (histories (state σ)) (historyIndex (state σ)) = Some h →
     let σ' := final (setScrollTop v σ) in
     histories (state σ') =
       <[Z.to_nat (historyIndex (state σ)) :=
           {| History.directory := History.directory h; History.scrollTop := v |}]>
         (histories (state σ)) ∧
     historyIndex (state σ') = historyIndex (state σ) ∧
     directory σ' = directory σ ∧
     scrollTop (state σ') = inr v ∧
     (wf σ → wf σ')) ∧
  (∀ dir e,
     let σ' := final (setScrollTop v (init_store dir e)) in
     histories (state σ') = [{| History.directory := None; History.scrollTop := v |}] ∧
     historyIndex (state σ') = -1 ∧
     canForwardDirectory (state σ') = true ∧
     ¬ wf σ' ∧
     directory (final (forwardDirectory 0 σ')) = None ∧
     ∀ n, length (histories (state (scrolled v (S n) (init_store dir e)))) = (2 ^ n)%nat).
Proof. split; [apply setScrollTop_on_record | apply setScrollTop_pristine]. Qed.

End History.

Lemma changeDirectory_push_witness :
  cursor_ok (state store_ab) ∧
  final (changeDirectory (Some "/a/b") false store_ab) = store_ab ∧
  (let σ' := final (changeDirectory (Some "/a/d") false store_ab) in
   histories (state σ') =
     take (Z.to_nat (historyIndex (state store_ab) + 1)) (histories (state store_ab)) ++
     [{| History.directory := Some "/a/d"; History.scrollTop := 0 |}] ∧
   historyIndex (state σ') = historyIndex (state store_ab) + 1 ∧
   directory σ' = Some "/a/d" ∧
   selectedFilepath (state σ') = "" ∧
   forwardDirectories (state σ') = [] ∧
   canForwardDirectory (state σ') = false).
Proof.
  assert (cursor_ok (state store_ab)) as Hc by (by vm_compute).
  assert (bool_decide (Some "/a/b" = directory store_ab) && negb false = true) as Hsame
    by (vm_compute; reflexivity).
  assert (bool_decide (Some "/a/d" = directory store_ab) && negb false = false) as Hgo
    by (vm_compute; reflexivity).
  pose proof (changeDirectory_push (Some "/a/b") false store_ab Hc) as [_ Hb].
  pose proof (changeDirectory_push (Some "/a/d") false store_ab Hc) as [_ Hd].
  rewrite Hsame in Hb. rewrite Hgo in Hd. exact (conj Hc (conj Hb Hd)).
Defined.

(** ** The theorems at the concrete environment *)

Lemma wf_store_abc : wf store_abc.
Proof. right. vm_compute. reflexivity. Qed.

(** The store after going back twice from [/a/c]: at [/a], with two forward
    records. *)
Definition store_back2 : Store := final (backDirectory 1 store_abc).

Lemma backDirectory_lands_witness :
  wf store_abc ∧
  directory (final (backDirectory (Z.of_nat 1) store_abc)) = Some "/a".
Proof.
  assert (backDirectories (state store_abc) !! 1%nat = Some (Some "/a")) as Hk
    by (vm_compute; reflexivity).
  split; [exact wf_store_abc|].
  destruct (backDirectory_lands 1 (Some "/a") store_abc wf_store_abc Hk)
    as (_ & _ & _ & Hd & _).
  exact Hd.
Defined.

Lemma forwardDirectory_lands_witness :
  cursor_ok (state store_back2) ∧
  directory (final (forwardDirectory (Z.of_nat 1) store_back2)) = Some "/a/c".
Proof.
  assert (cursor_ok (state store_back2)) as Hc by (by vm_compute).
  assert (forwardDirectories (state store_back2) !! 1%nat = Some (Some "/a/c")) as Hk
    by (vm_compute; reflexivity).
  split; [exact Hc|].
  destruct (forwardDirectory_lands 1 (Some "/a/c") store_back2 Hc Hk)
    as (_ & _ & _ & Hd & _).
  exact Hd.
Defined.

Lemma overshoot_raises_witness :
  backDirectory 5 store_abc =
    Raised (TypeError "directory")
      (with_state (setHistoryIndex (historyIndex (state store_abc) - 1 - 5)) store_abc) ∧
  ¬ wf (with_state (setHistoryIndex (historyIndex (state store_abc) - 1 - 5)) store_abc) ∧
  forwardDirectory 2 store_back2 =
    Raised (TypeError "directory")
      (with_state (setHistoryIndex (historyIndex (state store_back2) + 1 + 2)) store_back2) ∧
  backDirectory 3 store_a = Done tt store_a.
Proof.
  assert (historyIndex (state store_a) ≤ 0) as Hfirst by (by vm_compute).
  assert (0 < historyIndex (state store_abc)) as Hpos by (by vm_compute).
  assert (historyIndex (state store_abc) ≤ 5) as Hoff by (by vm_compute).
  assert (historyIndex (state store_back2) <
          Z.of_nat (length (histories (state store_back2))) - 1) as Hfw by (by vm_compute).
  assert (Z.of_nat (length (histories (state store_back2))) ≤
          historyIndex (state store_back2) + 1 + 2) as Hoff2 by (by vm_compute).
  destruct (proj1 (overshoot_raises 5 store_abc) Hpos Hoff) as [Hb Hnwf].
  destruct (proj1 (proj2 (overshoot_raises 2 store_back2)) Hfw Hoff2) as [Hf _].
  pose proof (proj1 (proj2 (proj2 (overshoot_raises 3 store_a))) Hfirst) as Hstay.
  exact (conj Hb (conj (Hnwf wf_store_abc) (conj Hf Hstay))).
Defined.

Lemma setScrollTop_outcome_witness :
  wf store_abc ∧
  scrollTop (state (final (setScrollTop 120 store_abc))) = inr 120.
Proof.
  assert (js_nth (histories (state store_abc)) (historyIndex (state store_abc)) =
          Some {| History.directory := Some "/a/c"; History.scrollTop := 0 |}) as Hh
    by (vm_compute; reflexivity).
  split; [exact wf_store_abc|].
  destruct (proj1 (setScrollTop_outcome 120) _ store_abc Hh) as (_ & _ & _ & Hs & _).
  exact Hs.
Defined.

(** The store an overshooting [backDirectory] leaves: cursor -4. *)
Definition store_overshot : Store := final (backDirectory 5 store_abc).
