(* ===== verification/Recovery.v ===== *)
(** * Recovery from a cursor below the array

    An overshooting [backDirectory] leaves the cursor below -1
    ([HistoryStack.v]).  From there every navigation that goes raises, but
    each attempt moves the cursor up by one (source lines 53-55 and 75
    commit before line 77 raises): dispatching the navigation again until it
    returns is a loop that ends, after as many failed attempts as the cursor
    is below -1, with a history that holds the new directory alone. *)

From stdpp Require Import base tactics list strings gmap.
From Stdlib Require Import ZArith Lia.
From S2P Require Import Prelude JsString Act Model SortEngine Actions Fixture Listing.
From S2P Require Import HistoryStack.

#[local] Open Scope Z_scope.
#[local] Open Scope act_scope.

(** The action dispatched again while it raises, at most [fuel] more
    times. *)
Fixpoint retry {A} (fuel : nat) (m : Action A) : Action A :=
  match fuel with
  | O => m
  | S n => try_catch m (λ _, retry n m)
  end.

Lemma retry_Done {A} fuel (m : Action A) a σ σ' :
  m σ = Done a σ' → retry fuel m σ = Done a σ'.
Proof. intros Hm. destruct fuel; simpl; unfold try_catch; by rewrite Hm. Qed.

Lemma retry_Raised {A} fuel (m : Action A) e σ σ' :
  m σ = Raised e σ' → retry (S fuel) m σ = retry fuel m σ'.
Proof. intros Hm. simpl. unfold try_catch. by rewrite Hm. Qed.

Section Recovery.
Context `{!ArraySort}.
Implicit Types (σ : Store) (d : option string).

(** With a cursor below -1 a navigation that goes raises a [TypeError]:
    the cursor climbs by one, the selection is cleared, and the committed
    directory stays what it was, so the navigation is lost. *)
Lemma changeDirectory_raises d force σ :
  historyIndex (state σ) < -1 → d ≠ directory σ ∨ force = true →
  changeDirectory d force σ =
    Raised (TypeError "directory")
      (with_state (setHistoryIndex (historyIndex (state σ) + 1)) (pushed d σ)).
Proof.
  intros Hlt Hgo. rewrite changeDirectory_go by done.
  rewrite restoreDirectory_None; [done|]. apply js_nth_None. lia.
Qed.

(** With the cursor at -1 the navigation starts the history afresh. *)
Lemma changeDirectory_restart d force σ :
  historyIndex (state σ) = -1 → d ≠ directory σ ∨ force = true →
  let σ' := final (changeDirectory d force σ) in
  changeDirectory d force σ = Done tt σ' ∧
  histories (state σ') = [{| History.directory := d; History.scrollTop := 0 |}] ∧
  historyIndex (state σ') = 0 ∧ directory σ' = d ∧ wf σ'.
Proof.
  intros Hi Hgo. assert (cursor_ok (state σ)) as Hc by (unfold cursor_ok; lia).
  destruct (changeDirectory_final d force σ Hc Hgo) as (Hr & Hhs & Hi' & Hd & _ & Hwf).
  rewrite Hi in Hhs, Hi'. split_and!; try done.
  by destruct (changeDirectory d force σ) as [[]|].
Qed.

(** C18: from a cursor [k] places below -1, dispatching a navigation to
    another directory again while it raises ends: the first [k] attempts
    raise, the next one returns, and the store is well formed again, on the
    new directory, with a history that holds that directory alone.  With
    fewer than [k] repeats the navigation still raises. *)
Theorem navigation_recovers d (k fuel : nat) σ :
  historyIndex (state σ) = -1 - Z.of_nat k → d ≠ directory σ →
  let o := retry fuel (changeDirectory d false) σ in
  if decide (k ≤ fuel)%nat then
    raised o = false ∧ wf (final o) ∧ directory (final o) = d ∧
    histories (state (final o)) =
      [{| History.directory := d; History.scrollTop := 0 |}] ∧
    historyIndex (state (final o)) = 0
  else raised o = true.
Proof.
  revert fuel σ. induction k as [|k IH]; intros fuel σ Hi Hd; cbv zeta.
  - rewrite decide_True by lia.
    destruct (changeDirectory_restart d false σ) as (Hrun & ? & ? & ? & ?);
      [lia | by left |].
    by rewrite (retry_Done _ _ _ _ _ Hrun).
  - pose proof (changeDirectory_raises d false σ) as Hrun.
    destruct fuel as [|fuel].
    + rewrite decide_False by lia. simpl. rewrite Hrun; [done | lia | by left].
    + rewrite (retry_Raised _ _ _ _ _ (Hrun ltac:(lia) ltac:(by left))).
      specialize (IH fuel
        (with_state (setHistoryIndex (historyIndex (state σ) + 1)) (pushed d σ))).
      cbv zeta in IH. destruct (decide (k ≤ fuel)%nat).
      * rewrite decide_True by lia. apply IH; [simpl; lia | done].
      * rewrite decide_False by lia. apply IH; [simpl; lia | done].
Qed.

End Recovery.

(** ** The recovery at the concrete environment *)

(** From the cursor -4 an overshooting [backDirectory 5] leaves, the
    navigation to [/a/d] returns at the fourth attempt. *)
Lemma navigation_recovers_witness :
  historyIndex (state store_overshot) = -1 - Z.of_nat 3 ∧
  raised (retry 3 (changeDirectory (Some "/a/d") false) store_overshot) = false ∧
  raised (retry 2 (changeDirectory (Some "/a/d") false) store_overshot) = true.
Proof.
  assert (historyIndex (state store_overshot) = -1 - Z.of_nat 3) as Hi
    by (vm_compute; reflexivity).
  assert (Some "/a/d" ≠ directory store_overshot) as Hd by (by vm_compute).
  pose proof (navigation_recovers (Some "/a/d") 3 3 store_overshot Hi Hd) as H3.
  pose proof (navigation_recovers (Some "/a/d") 3 2 store_overshot Hi Hd) as H2.
  cbv zeta in H3, H2. rewrite decide_True in H3 by lia. rewrite decide_False in H2 by lia.
  split; [exact Hi|]. split; [exact (proj1 H3) | exact H2].
Defined.
