(* ===== verification/Zipper.v ===== *)
(** * The history as a zipper

    What the history promises, stated without an array and a cursor: the
    records behind the current one (nearest first), the current record, and
    the records ahead of it.  Visiting a directory pushes the current record
    behind and forgets what is ahead; going back and forward move records
    across the current position; scrolling rewrites the current record.

    The abstraction [abs] reads a zipper out of [histories] and
    [historyIndex], and the refinement lemmas show that
    [changeDirectory], [backDirectory], [forwardDirectory], [setScrollTop]
    and the getters of the module compute the zipper operations;
    [Simulation.v] assembles them into a simulation of every transition. *)

From stdpp Require Import base tactics list strings gmap.
From Stdlib Require Import ZArith Lia.
From S2P Require Import Prelude JsString Act Model SortEngine Actions.
From S2P Require Import Fixture Listing HistoryStack.

#[local] Open Scope Z_scope.
#[local] Open Scope act_scope.

(** ** The specification *)

Module Zipper.

Record t := mk {
  back : list History.t;
  here : History.t;
  forward : list History.t
}.

Definition fresh (d : option string) : History.t :=
  {| History.directory := d; History.scrollTop := 0 |}.

(** Visiting [d] from a history that may still be empty. *)
Definition visit (d : option string) (z : option t) : t :=
  match z with
  | None => {| back := []; here := fresh d; forward := [] |}
  | Some z => {| back := here z :: back z; here := fresh d; forward := [] |}
  end.

Definition left (z : t) : option t :=
  match back z with
  | [] => None
  | b :: bs => Some {| back := bs; here := b; forward := here z :: forward z |}
  end.

Definition right (z : t) : option t :=
  match forward z with
  | [] => None
  | f :: fs => Some {| back := here z :: back z; here := f; forward := fs |}
  end.

(** [n] moves in one direction; [None] when the records run out. *)
Fixpoint go (move : t → option t) (n : nat) (z : t) : option t :=
  match n with
  | O => Some z
  | S n => move z ≫= go move n
  end.

Definition scroll (v : Z) (z : t) : t :=
  {| back := back z;
     here := {| History.directory := History.directory (here z);
                History.scrollTop := v |};
     forward := forward z |}.

(** The zipper at position [i] of an array. *)
Definition of_list (l : list History.t) (i : nat) : option t :=
  h ← l !! i;
  Some {| back := reverse (take i l); here := h; forward := drop (S i) l |}.

(** The array and the cursor of a zipper. *)
Definition to_list (z : t) : list History.t := reverse (back z) ++ here z :: forward z.
Definition position (z : t) : nat := length (back z).

End Zipper.

(** The zipper a module state stands for; [None] when the cursor is on no
    record. *)
Definition abs (s : State) : option Zipper.t :=
  if historyIndex s <? 0 then None
  else Zipper.of_list (histories s) (Z.to_nat (historyIndex s)).

(** ** Zippers and arrays *)

Section ZipperFacts.
Implicit Types (l : list History.t) (z : Zipper.t) (i n : nat).

Lemma of_list_middle l h l' :
  Zipper.of_list (l ++ h :: l') (length l) =
    Some {| Zipper.back := reverse l; Zipper.here := h; Zipper.forward := l' |}.
Proof.
  unfold Zipper.of_list. rewrite list_lookup_middle by done. simpl.
  rewrite take_app_length. do 2 f_equal.
  rewrite cons_middle, (assoc_L (++)). apply drop_app_length'.
  rewrite length_app. simpl. lia.
Qed.

Lemma of_list_to_list z : Zipper.of_list (Zipper.to_list z) (Zipper.position z) = Some z.
Proof.
  destruct z as [b h f]. unfold Zipper.to_list, Zipper.position. simpl.
  rewrite <- (length_reverse b), of_list_middle. by rewrite reverse_involutive.
Qed.

Lemma to_list_of_list l i z :
  Zipper.of_list l i = Some z → Zipper.to_list z = l ∧ Zipper.position z = i.
Proof.
  unfold Zipper.of_list, Zipper.to_list, Zipper.position.
  destruct (l !! i) as [h|] eqn:Hi; [|done]. intros [= <-]. simpl.
  rewrite reverse_involutive, length_reverse, length_take.
  apply lookup_lt_Some in Hi as Hlt. split; [|lia].
  by rewrite <- (drop_S _ _ _ Hi), take_drop.
Qed.

Lemma of_list_left l i z :
  Zipper.of_list l (S i) = Some z → Zipper.left z = Zipper.of_list l i.
Proof.
  unfold Zipper.of_list, Zipper.left.
  destruct (l !! S i) as [h|] eqn:Hh; [|done]. intros [= <-]. simpl.
  destruct (l !! i) as [x|] eqn:Hx.
  - rewrite (take_S_r _ _ _ Hx), reverse_snoc. simpl.
    by rewrite (drop_S _ _ _ Hh).
  - apply lookup_ge_None in Hx. apply lookup_lt_Some in Hh. lia.
Qed.

Lemma of_list_right l i z :
  Zipper.of_list l i = Some z → Zipper.right z = Zipper.of_list l (S i).
Proof.
  unfold Zipper.of_list, Zipper.right.
  destruct (l !! i) as [h|] eqn:Hh; [|done]. intros [= <-]. simpl.
  destruct (l !! S i) as [x|] eqn:Hx.
  - rewrite (drop_S _ _ _ Hx), (take_S_r _ _ _ Hh), reverse_snoc. done.
  - apply lookup_ge_None in Hx. by rewrite drop_ge by lia.
Qed.

Lemma go_left l n i z :
  Zipper.of_list l (n + i) = Some z → Zipper.go Zipper.left n z = Zipper.of_list l i.
Proof.
  revert z. induction n as [|n IH]; intros z Hz; simpl; [done|].
  change (S n + i)%nat with (S (n + i)) in Hz.
  rewrite (of_list_left l (n + i)) by done.
  destruct (Zipper.of_list l (n + i)) as [z'|] eqn:Hz'; simpl; [by apply IH|].
  unfold Zipper.of_list in *. destruct (l !! (n + i)%nat) eqn:Hl; [done|].
  apply lookup_ge_None in Hl. rewrite (lookup_ge_None_2 l (S (n + i))) in Hz; [done | lia].
Qed.

Lemma go_right l n i z :
  Zipper.of_list l i = Some z → Zipper.go Zipper.right n z = Zipper.of_list l (i + n).
Proof.
  revert i z. induction n as [|n IH]; intros i z Hz; simpl.
  - by rewrite Nat.add_0_r.
  - rewrite (of_list_right l i) by done. replace (i + S n)%nat with (S i + n)%nat by lia.
    destruct (Zipper.of_list l (S i)) as [z'|] eqn:Hz'; simpl; [by apply (IH (S i))|].
    unfold Zipper.of_list in *. destruct (l !! S i) eqn:Hl; [done|].
    apply lookup_ge_None in Hl. rewrite (lookup_ge_None_2 l (S (i + n))); [done | lia].
Qed.

Lemma of_list_visit d z :
  Zipper.of_list
    (take (S (Zipper.position z)) (Zipper.to_list z) ++ [Zipper.fresh d])
    (S (Zipper.position z)) = Some (Zipper.visit d (Some z)).
Proof.
  set (l := reverse (Zipper.back z) ++ [Zipper.here z]).
  assert (Zipper.to_list z = l ++ Zipper.forward z) as ->
    by (unfold l, Zipper.to_list; by rewrite <- (assoc_L (++))).
  assert (S (Zipper.position z) = length l) as ->
    by (unfold l, Zipper.position; rewrite length_app, length_reverse; simpl; lia).
  rewrite take_app_length, of_list_middle. unfold l.
  by rewrite reverse_snoc, reverse_involutive.
Qed.

End ZipperFacts.

(** ** The abstraction *)

Section Abstraction.
Implicit Types (s : State) (z : Zipper.t).

Lemma abs_at s (i : nat) :
  historyIndex s = Z.of_nat i → abs s = Zipper.of_list (histories s) i.
Proof. unfold abs. intros ->. case_Z_tests; [lia|]. by rewrite Nat2Z.id. Qed.

Lemma abs_Some s z :
  abs s = Some z →
  histories s = Zipper.to_list z ∧ historyIndex s = Z.of_nat (Zipper.position z).
Proof.
  unfold abs. destruct (Z.ltb_spec (historyIndex s) 0); [done|].
  intros [<- Hp]%to_list_of_list. split; [done | lia].
Qed.

Lemma abs_None s : cursor_ok s → abs s = None → historyIndex s = -1.
Proof.
  unfold abs, cursor_ok, Zipper.of_list. intros [? ?].
  destruct (Z.ltb_spec (historyIndex s) 0); [lia|].
  destruct (lookup_lt_is_Some_2 (histories s) (Z.to_nat (historyIndex s))) as [h ->];
    [lia | done].
Qed.

Lemma abs_js_nth s z : abs s = Some z → js_nth (histories s) (historyIndex s) = Some (Zipper.here z).
Proof.
  intros [Hl Hi]%abs_Some. rewrite Hl, Hi, js_nth_nat.
  unfold Zipper.to_list, Zipper.position. rewrite <- (length_reverse (Zipper.back z)).
  by apply list_lookup_middle.
Qed.

Lemma abs_cursor_ok s z : abs s = Some z → cursor_ok s.
Proof.
  intros Hz. pose proof (abs_js_nth _ _ Hz) as Hn. js_bounds. unfold cursor_ok. lia.
Qed.

Lemma abs_parts s z :
  abs s = Some z →
  take (Z.to_nat (historyIndex s)) (histories s) = reverse (Zipper.back z) ∧
  drop (Z.to_nat (historyIndex s + 1)) (histories s) = Zipper.forward z ∧
  Z.of_nat (length (histories s)) =
    historyIndex s + 1 + Z.of_nat (length (Zipper.forward z)).
Proof.
  intros Hz. pose proof (abs_cursor_ok _ _ Hz) as [_ Hhi]. revert Hz.
  unfold abs, Zipper.of_list. destruct (Z.ltb_spec (historyIndex s) 0); [done|].
  destruct (_ !! _) as [h|]; [|done]. intros [= <-]. simpl.
  rewrite reverse_involutive, length_drop.
  replace (Z.to_nat (historyIndex s + 1)) with (S (Z.to_nat (historyIndex s))) by lia.
  split_and!; [done..|lia].
Qed.

(** The record behind the current one is the one before the cursor. *)
Lemma abs_behind s z h b :
  abs s = Some z → Zipper.back z = h :: b →
  js_nth (histories s) (historyIndex s - 1) = Some h ∧ canBackDirectory s = true.
Proof.
  intros [Hl Hi]%abs_Some Hb. unfold Zipper.to_list, Zipper.position in *.
  rewrite Hb in Hl, Hi. cbn [length] in Hi. rewrite reverse_cons, <- (assoc_L (++)) in Hl.
  split; [|unfold canBackDirectory; case_Z_tests; lia].
  replace (historyIndex s - 1) with (Z.of_nat (length (reverse b))) by (rewrite length_reverse; lia).
  rewrite js_nth_nat, Hl. by apply list_lookup_middle.
Qed.

(** The abstraction reads the records and the cursor only. *)
Lemma abs_frame s s' :
  histories s' = histories s → historyIndex s' = historyIndex s → abs s' = abs s.
Proof. unfold abs. by intros -> ->. Qed.

(** With the cursor on a record, the state stands for a zipper. *)
Lemma abs_on_record s : cursor_ok s → 0 ≤ historyIndex s → ∃ z, abs s = Some z.
Proof.
  intros Hc Hi. destruct (abs s) as [z|] eqn:Hz; [by exists z|].
  apply abs_None in Hz; [lia | done].
Qed.

(** The getters of the module read the zipper. *)
Lemma scrollTop_abs s z :
  abs s = Some z → scrollTop s = inr (History.scrollTop (Zipper.here z)).
Proof. intros Hz. unfold scrollTop. by rewrite (abs_js_nth _ _ Hz). Qed.

Lemma backDirectories_abs s z :
  abs s = Some z → backDirectories s = History.directory <$> Zipper.back z.
Proof.
  intros Hz. destruct (abs_parts _ _ Hz) as (Ht & _ & _).
  pose proof (abs_Some _ _ Hz) as [_ Hp].
  unfold backDirectories. by rewrite js_slice_prefix, Ht, reverse_involutive by lia.
Qed.

Lemma forwardDirectories_abs s z :
  abs s = Some z → forwardDirectories s = History.directory <$> Zipper.forward z.
Proof.
  intros Hz. destruct (abs_parts _ _ Hz) as (_ & Hd & _).
  pose proof (abs_Some _ _ Hz) as [_ Hp].
  unfold forwardDirectories. by rewrite js_slice_suffix, Hd by lia.
Qed.

End Abstraction.

(** ** The refinement *)

Section Refinement.
Context `{!ArraySort}.
Implicit Types (σ : Store) (z : Zipper.t) (offset : Z) (dirpath : option string).

(** In a well-formed store the current record is the one of the committed
    directory. *)
Lemma wf_abs σ z :
  wf σ → abs (state σ) = Some z → History.directory (Zipper.here z) = directory σ.
Proof.
  intros [[Hi _]|Hw] Hz; [apply abs_Some in Hz as [_ Hp]; lia|].
  rewrite (abs_js_nth _ _ Hz) in Hw. by simplify_eq/=.
Qed.

(** A navigation that goes is [Zipper.visit]: from a store whose
    cursor is -1 or inside the array, the state after [changeDirectory]
    stands for the zipper with the old current record pushed behind, the
    fresh record of the new directory as current one, and nothing ahead. *)
Lemma changeDirectory_refines dirpath force σ :
  cursor_ok (state σ) → dirpath ≠ directory σ ∨ force = true →
  abs (state (final (changeDirectory dirpath force σ))) =
    Some (Zipper.visit dirpath (abs (state σ))).
Proof.
  intros Hc Hgo.
  destruct (changeDirectory_final dirpath force σ Hc Hgo) as (_ & Hhs & Hi & _).
  simpl in Hhs, Hi. destruct (abs (state σ)) as [z|] eqn:Hz.
  - apply abs_Some in Hz as [Hl Hp]. rewrite Hl, Hp in Hhs. rewrite Hp in Hi.
    rewrite (abs_at _ (S (Zipper.position z))), Hhs by lia.
    replace (Z.to_nat (Z.of_nat (Zipper.position z) + 1)) with (S (Zipper.position z))
      by lia.
    exact (of_list_visit dirpath z).
  - apply abs_None in Hz; [|done]. rewrite Hz in Hhs, Hi. simpl in Hhs.
    by rewrite (abs_at _ 0), Hhs.
Qed.

(** Going back inside the back list is [offset + 1] moves to the
    left: the state after [backDirectory offset] stands for the zipper
    reached by that many [Zipper.left] moves, and the committed directory
    is the one of its current record. *)
Lemma backDirectory_refines offset z σ :
  abs (state σ) = Some z → 0 ≤ offset < Z.of_nat (length (Zipper.back z)) →
  let σ' := final (backDirectory offset σ) in
  abs (state σ') = Zipper.go Zipper.left (S (Z.to_nat offset)) z ∧
  Some (directory σ') = History.directory <$> (Zipper.here <$> abs (state σ')).
Proof.
  intros Hz Hoff. pose proof (abs_Some _ _ Hz) as [Hl Hp]. unfold Zipper.position in Hp.
  pose proof (abs_cursor_ok _ _ Hz) as [_ Hhi].
  destruct (js_nth_in_range (histories (state σ))
              (historyIndex (state σ) - 1 - offset)) as [_ [h Hh]]; [lia|].
  destruct (backDirectory_final offset h σ) as (_ & Hhs & Hi & Hd & _);
    [apply canBackDirectory_true; lia | done |].
  cbv zeta. set (i := Z.to_nat (historyIndex (state σ) - 1 - offset)).
  assert (abs (state (final (backDirectory offset σ))) = Zipper.of_list (histories (state σ)) i)
    as Ha by (rewrite (abs_at _ i), Hhs; [done | lia]).
  rewrite Ha. split.
  - symmetry. apply go_left. rewrite <- Hz. symmetry. apply abs_at. lia.
  - apply js_nth_Some in Hh as [_ Hh]. fold i in Hh. unfold Zipper.of_list.
    rewrite Hh. simpl. by rewrite Hd.
Qed.

(** Going forward inside the forward list is [offset + 1] moves to
    the right. *)
Lemma forwardDirectory_refines offset z σ :
  abs (state σ) = Some z → 0 ≤ offset < Z.of_nat (length (Zipper.forward z)) →
  let σ' := final (forwardDirectory offset σ) in
  abs (state σ') = Zipper.go Zipper.right (S (Z.to_nat offset)) z ∧
  Some (directory σ') = History.directory <$> (Zipper.here <$> abs (state σ')).
Proof.
  intros Hz Hoff. pose proof (abs_Some _ _ Hz) as [Hl Hp]. unfold Zipper.position in Hp.
  assert (Z.of_nat (length (histories (state σ))) =
          historyIndex (state σ) + 1 + Z.of_nat (length (Zipper.forward z))) as Hlen.
  { rewrite Hl. unfold Zipper.to_list. rewrite length_app, length_reverse. simpl. lia. }
  destruct (js_nth_in_range (histories (state σ))
              (historyIndex (state σ) + 1 + offset)) as [_ [h Hh]]; [lia|].
  destruct (forwardDirectory_final offset h σ) as (_ & Hhs & Hi & Hd & _);
    [apply canForwardDirectory_true; lia | done |].
  cbv zeta. set (i := Z.to_nat (historyIndex (state σ) + 1 + offset)).
  assert (abs (state (final (forwardDirectory offset σ))) =
          Zipper.of_list (histories (state σ)) i)
    as Ha by (rewrite (abs_at _ i), Hhs; [done | lia]).
  rewrite Ha. split.
  - replace i with (length (Zipper.back z) + S (Z.to_nat offset))%nat by lia.
    symmetry. apply go_right. rewrite <- Hz. symmetry. apply abs_at. lia.
  - apply js_nth_Some in Hh as [_ Hh]. fold i in Hh. unfold Zipper.of_list.
    rewrite Hh. simpl. by rewrite Hd.
Qed.

(** With the cursor on a record, [setScrollTop] is [Zipper.scroll]:
    only the scroll offset of the current record changes. *)
Lemma setScrollTop_refines v z σ :
  abs (state σ) = Some z →
  abs (state (final (setScrollTop v σ))) = Some (Zipper.scroll v z).
Proof.
  intros Hz. pose proof (abs_Some _ _ Hz) as [Hl Hp].
  destruct (setScrollTop_final v _ σ (abs_js_nth _ _ Hz)) as (Hhs & Hi & _).
  rewrite (abs_at _ (Zipper.position z)), Hhs, Hp, Nat2Z.id, Hl by congruence.
  unfold Zipper.to_list, Zipper.position. rewrite <- (length_reverse (Zipper.back z)).
  rewrite insert_app_r_alt, Nat.sub_diag by done. simpl.
  by rewrite of_list_middle, reverse_involutive.
Qed.

(** C39: the getters read the zipper: [backDirectories] is the
    directories behind, nearest first, [forwardDirectories] the directories
    ahead, [canBackDirectory] and [canForwardDirectory] say whether these
    are non-empty, and [scrollTop] is the offset of the current record. *)
Theorem getters_refine z (s : State) :
  abs s = Some z →
  backDirectories s = History.directory <$> Zipper.back z ∧
  forwardDirectories s = History.directory <$> Zipper.forward z ∧
  canBackDirectory s = bool_decide (Zipper.back z ≠ []) ∧
  canForwardDirectory s = bool_decide (Zipper.forward z ≠ []) ∧
  scrollTop s = inr (History.scrollTop (Zipper.here z)).
Proof.
  intros Hz. pose proof (abs_Some _ _ Hz) as [_ Hp].
  destruct (abs_parts _ _ Hz) as (_ & _ & Hlen). unfold Zipper.position in Hp.
  split_and!;
    [by apply backDirectories_abs | by apply forwardDirectories_abs | | |
     by apply scrollTop_abs]; unfold canBackDirectory, canForwardDirectory.
  - destruct (Zipper.back z); cbn [length] in Hp; [case_Z_tests; [lia | done]|].
    rewrite bool_decide_eq_true_2 by done. case_Z_tests; lia.
  - destruct (Zipper.forward z); cbn [length] in Hlen; [case_Z_tests; [lia | done]|].
    rewrite bool_decide_eq_true_2 by done. case_Z_tests; lia.
Qed.

End Refinement.

(** ** The refinement at the concrete environment *)

(** [store_abc] stands for the zipper at [/a/c] with [/a/b] and [/a]
    behind it. *)
Example abs_store_abc :
  abs (state store_abc) =
    Some {| Zipper.back := [Zipper.fresh (Some "/a/b"); Zipper.fresh (Some "/a")];
            Zipper.here := Zipper.fresh (Some "/a/c");
            Zipper.forward := [] |}.
Proof. by vm_compute. Qed.

Example abs_store_back2 :
  abs (state store_back2) =
    Some {| Zipper.back := [];
            Zipper.here := Zipper.fresh (Some "/a");
            Zipper.forward := [Zipper.fresh (Some "/a/b"); Zipper.fresh (Some "/a/c")] |}.
Proof. by vm_compute. Qed.

Lemma getters_refine_witness :
  backDirectories (state store_abc) = [Some "/a/b"; Some "/a"] ∧
  forwardDirectories (state store_abc) = [] ∧
  canBackDirectory (state store_abc) = true ∧
  canForwardDirectory (state store_abc) = false ∧
  scrollTop (state store_abc) = inr 0.
Proof. exact (getters_refine _ (state store_abc) abs_store_abc). Defined.
