(* ===== verification/Explorer.v ===== *)
(** * The explorer as a transition system

    The store changes in three ways: the view dispatches an action or
    commits one of the two input mutations (an [Intent]), a live filesystem
    watch fires and its callback dispatches [load] (source lines 88-90), or
    the environment changes.  The file defines the step relation, gives
    every action a Hoare triple (the invariants on both exits, and what
    it may raise), composed from the triples of the actions it dispatches,
    and proves by rule induction that every reachable store satisfies the
    history invariant [wf] and the watcher invariant [watch_inv]. *)

From stdpp Require Import base tactics list strings gmap relations.
From Stdlib Require Import ZArith Lia.
From S2P Require Import Prelude JsString Act Model SortEngine Actions Fixture Listing.
From S2P Require Import HistoryStack.

#[local] Open Scope Z_scope.
#[local] Open Scope act_scope.

(** What the view can ask of the module. *)
Inductive Intent :=
| InitDirectory
| ChangeDirectory (dirpath : string)
| ChangeParentDirectory
| ChangeHomeDirectory
| ChangeSelectedDirectory
| BackDirectory (offset : Z)
| ForwardDirectory (offset : Z)
| SetScrollTop (scrollTop : Z)
| OpenDirectory
| ShowViewer (filepath : string)
| DoAction (filepath : string)
| Select (filepath : string)
| SelectIndex (index : Z)
| SelectFirst
| SelectLast
| SelectPrevious
| SelectNext
| Search
| ChangeSortKey (sortKey : string)
| SetQueryInput (queryInput : string)
| SetDirectoryInput (directoryInput : string).

(** Offsets come from the lists the getters show, and a scroll position is
    reported for a listed directory. *)
Definition admissible (i : Intent) (s : State) : Prop :=
  match i with
  | BackDirectory offset => 0 ≤ offset < historyIndex s
  | ForwardDirectory offset =>
      0 ≤ offset < Z.of_nat (length (histories s)) - 1 - historyIndex s
  | SetScrollTop _ => 0 ≤ historyIndex s
  | _ => True
  end.

#[export] Instance admissible_dec i s : Decision (admissible i s).
Proof. destruct i; simpl; apply _. Defined.

(** The environment is replaced; the store is otherwise untouched. *)
Definition with_env (e : Env) (σ : Store) : Store :=
  {| state := state σ; directory := directory σ; watcher := watcher σ;
     live := live σ; next_watch := next_watch σ; env := e; trace := trace σ |}.

(** At most one watch is live: the one [watcher] holds, on the committed
    directory; handles are allocated below [next_watch]. *)
Definition watch_inv (σ : Store) : Prop :=
  (∀ h d, live σ !! h = Some d → watcher σ = Some h ∧ d = directory σ) ∧
  (∀ h, watcher σ = Some h → (h < next_watch σ)%nat).

(** ** Actions that leave navigation and the watcher alone *)

(** The records, the cursor, the committed directory and the watcher are
    the same in both stores. *)
Definition quiet (σ σ' : Store) : Prop :=
  histories (state σ') = histories (state σ) ∧
  historyIndex (state σ') = historyIndex (state σ) ∧
  directory σ' = directory σ ∧ watcher σ' = watcher σ ∧
  live σ' = live σ ∧ next_watch σ' = next_watch σ.

(** Every live watch is the one [watcher] holds: what [load] needs to find,
    whatever the committed directory is. *)
Definition watch_pre (σ : Store) : Prop :=
  (∀ h d, live σ !! h = Some d → watcher σ = Some h) ∧
  (∀ h, watcher σ = Some h → (h < next_watch σ)%nat).

Lemma quiet_wf σ σ' : quiet σ σ' → wf σ → wf σ'.
Proof. intros (? & ? & ? & _). by apply wf_frame. Qed.

Lemma quiet_watch_inv σ σ' : quiet σ σ' → watch_inv σ → watch_inv σ'.
Proof. unfold watch_inv. by intros (_ & _ & -> & -> & -> & ->). Qed.

Lemma watch_inv_pre σ : watch_inv σ → watch_pre σ.
Proof. intros [Hl Hw]. split; [|done]. intros h d Hh. by destruct (Hl h d Hh). Qed.

(** [watch_pre] reads the watcher fields only. *)
Lemma watch_pre_frame σ σ' :
  watcher σ' = watcher σ → live σ' = live σ → next_watch σ' = next_watch σ →
  watch_pre σ → watch_pre σ'.
Proof. unfold watch_pre. by intros -> -> ->. Qed.

(** Whether an intent walks the history. *)
Definition traversal (i : Intent) : bool :=
  match i with BackDirectory _ | ForwardDirectory _ => true | _ => false end.

Section Machine.
Context `{!ArraySort}.

Definition run (i : Intent) : Action unit :=
  match i with
  | InitDirectory => initDirectory
  | ChangeDirectory dirpath => changeDirectory (Some dirpath) false
  | ChangeParentDirectory => changeParentDirectory
  | ChangeHomeDirectory => changeHomeDirectory
  | ChangeSelectedDirectory => changeSelectedDirectory
  | BackDirectory offset => backDirectory offset
  | ForwardDirectory offset => forwardDirectory offset
  | SetScrollTop v => setScrollTop v
  | OpenDirectory => openDirectory
  | ShowViewer filepath => showViewer filepath
  | DoAction filepath => action filepath
  | Select filepath => select filepath
  | SelectIndex index => selectIndex index
  | SelectFirst => selectFirst
  | SelectLast => selectLast
  | SelectPrevious => selectPrevious
  | SelectNext => selectNext
  | Search => search
  | ChangeSortKey sortKey => changeSortKey sortKey
  | SetQueryInput q => commit (setQueryInput q)
  | SetDirectoryInput d => commit (setDirectoryInput (Some d))
  end.

Inductive step : Store → Store → Prop :=
| step_intent i σ : admissible i (state σ) → step σ (final (run i σ))
| step_watch_fired h σ : is_Some (live σ !! h) → step σ (final (load σ))
| step_env e σ : step σ (with_env e σ).

(** The stores the explorer can be in, started on directory [dir]. *)
Definition reachable (dir : option string) (e : Env) (σ : Store) : Prop :=
  rtc step (init_store dir e) σ.

(** ** The watcher through [load] *)

(** After closing the handle [watcher] holds, no watch is live. *)
Lemma watch_pre_closed σ :
  watch_pre σ →
  match watcher σ with Some h => delete h (live σ) | None => live σ end = ∅.
Proof.
  intros [Hl _]. apply map_empty. intros h.
  destruct (watcher σ) as [w|] eqn:Hw.
  - destruct (decide (h = w)) as [->|Hne]; [apply lookup_delete_eq|].
    rewrite lookup_delete_ne by done. destruct (live σ !! h) eqn:Hh; [|done].
    apply Hl in Hh. congruence.
  - destruct (live σ !! h) eqn:Hh; [|done]. by apply Hl in Hh.
Qed.

Lemma load_watch_inv σ : watch_pre σ → watch_inv (final (load σ)).
Proof.
  intros Hpre. pose proof (watch_pre_closed σ Hpre) as Hcl.
  destruct (load_watch σ) as [Hd Hw]. rewrite Hcl in Hw. destruct Hpre as [_ Hb].
  destruct (fs_watch_ok _ _); destruct Hw as (Hw & Hl & Hn); split.
  - intros h d. rewrite Hl, Hw, Hd. by intros [[<- <-]|[_ ?]]%lookup_insert_Some.
  - intros h. rewrite Hw, Hn. intros [= <-]. lia.
  - intros h d. by rewrite Hl.
  - intros h. rewrite Hw, Hn. apply Hb.
Qed.

(** ** Both invariants through every transition *)

Definition inv (σ : Store) : Prop := wf σ ∧ watch_inv σ.

Lemma inv_quiet σ σ' : quiet σ σ' → inv σ → inv σ'.
Proof. intros Hq [? ?]. split; [by eapply quiet_wf | by eapply quiet_watch_inv]. Qed.

Lemma inv_restoreDirectory i h σ :
  js_nth (histories (state σ)) i = Some h → watch_pre σ →
  inv (final (restoreDirectory i σ)).
Proof.
  intros Hh Hpre. split; [by eapply wf_restoreDirectory|].
  rewrite (restoreDirectory_Some _ _ _ Hh). apply load_watch_inv.
  by apply (watch_pre_frame σ).
Qed.

Lemma inv_changeDirectory dirpath force σ :
  inv σ → inv (final (changeDirectory dirpath force σ)).
Proof.
  intros [Hwf Hw].
  destruct (decide (dirpath = directory σ)) as [->|Hne], force;
    try (rewrite changeDirectory_same; by split);
    (rewrite changeDirectory_go by eauto;
     eapply inv_restoreDirectory;
       [by apply pushed_nth, wf_cursor_ok
       |by apply (watch_pre_frame σ), watch_inv_pre]).
Qed.

(** The reload a firing watch dispatches. *)
Lemma inv_load : preserves inv load.
Proof.
  intros σ [Hwf Hw]. split; [by apply wf_load | by apply load_watch_inv, watch_inv_pre].
Qed.

(** ** The triples of the actions *)

(** The raise of the viewer: an error of the filesystem, in a store that
    satisfies the invariants. *)
Definition fs_error (e : Exn) (σ : Store) : Prop := inv σ ∧ ∃ d, e = FsError d.

(** Whether an intent reaches [showViewer]. *)
Definition opens_viewer (i : Intent) : bool :=
  match i with ShowViewer _ | DoAction _ => true | _ => false end.

(** What an intent may raise. *)
Definition raises_of (i : Intent) : Exn → Store → Prop :=
  if opens_viewer i then fs_error else λ _ _, False.

(** [total P m]: from [P] the action returns and keeps the invariants. *)
Abbreviation total P m := (hoare P m (λ _, inv) (λ _ _, False)).

Lemma total_quiet (m : Action unit) f :
  (∀ σ, m σ = Done tt (f σ)) → (∀ σ, quiet σ (f σ)) → total inv m.
Proof. intros Hm Hq σ Hinv. rewrite Hm. by eapply inv_quiet. Qed.

Lemma total_load : total inv load.
Proof.
  apply hoare_returns. intros σ Hinv. split; [by rewrite load_Done | by apply inv_load].
Qed.

Lemma total_restoreDirectory i :
  total (λ σ, inv σ ∧ 0 ≤ i < Z.of_nat (length (histories (state σ))))
    (restoreDirectory i).
Proof.
  apply hoare_returns. intros σ [[_ Hw] Hi]. apply js_nth_in_range in Hi as [h Hh].
  split; [by destruct (restoreDirectory_final i h σ Hh)|].
  by apply (inv_restoreDirectory i h), watch_inv_pre.
Qed.

Lemma total_changeDirectory dirpath force : total inv (changeDirectory dirpath force).
Proof.
  apply hoare_returns. intros σ Hinv. split; [|by apply inv_changeDirectory].
  pose proof (wf_cursor_ok _ (proj1 Hinv)) as Hc.
  destruct (decide (dirpath = directory σ)) as [->|Hne], force;
    first [ by rewrite changeDirectory_same
          | by apply (changeDirectory_final _ _ σ Hc); eauto ].
Qed.

Lemma total_backDirectory offset :
  total (λ σ, inv σ ∧ 0 ≤ offset < historyIndex (state σ)) (backDirectory offset).
Proof.
  apply hoare_bind_gets. intros s. apply hoare_if; intros _.
  - eapply hoare_weaken; [apply hoare_ret | by intros σ [[? _] _]].
  - eapply hoare_weaken; [apply total_restoreDirectory|].
    intros σ [[Hinv Hoff] <-]. split; [done|].
    pose proof (wf_cursor_ok _ (proj1 Hinv)) as [_ ?]. lia.
Qed.

Lemma total_forwardDirectory offset :
  total (λ σ, inv σ ∧
           0 ≤ offset < Z.of_nat (length (histories (state σ))) - 1 - historyIndex (state σ))
    (forwardDirectory offset).
Proof.
  apply hoare_bind_gets. intros s. apply hoare_if; intros _.
  - eapply hoare_weaken; [apply hoare_ret | by intros σ [[? _] _]].
  - eapply hoare_weaken; [apply total_restoreDirectory|].
    intros σ [[Hinv Hoff] <-]. split; [done|].
    pose proof (wf_cursor_ok _ (proj1 Hinv)) as [? _]. lia.
Qed.

Lemma total_setScrollTop v :
  total (λ σ, inv σ ∧ 0 ≤ historyIndex (state σ)) (setScrollTop v).
Proof.
  apply hoare_returns. intros σ [[Hwf Hw] Hi]. split; [done|]. split; [|done].
  destruct Hwf as [[? _]|Hcur]; [lia|].
  destruct (js_nth _ _) as [h|] eqn:Hh; [|done].
  apply (wf_setScrollTop v h σ Hh). right. by rewrite Hh.
Qed.

(** The navigation actions that compute a path and then navigate. *)
Lemma total_initDirectory : total inv initDirectory.
Proof.
  apply hoare_bind_gets. intros d.
  eapply hoare_weaken; [apply total_changeDirectory | by intros σ [? _]].
Qed.

Lemma total_changeParentDirectory : total inv changeParentDirectory.
Proof.
  apply hoare_bind_gets. intros e. apply hoare_bind_gets. intros d.
  eapply hoare_weaken; [apply total_changeDirectory | by intros σ [[? _] _]].
Qed.

Lemma total_changeHomeDirectory : total inv changeHomeDirectory.
Proof.
  apply hoare_bind_gets. intros e.
  eapply hoare_weaken; [apply total_changeDirectory | by intros σ [? _]].
Qed.

Lemma total_changeSelectedDirectory : total inv changeSelectedDirectory.
Proof.
  apply hoare_bind_gets. intros e. apply hoare_bind_gets. intros s. apply hoare_when.
  - intros _. eapply hoare_weaken; [apply total_changeDirectory | by intros σ [[? _] _]].
  - by intros _ σ [[? _] _].
Qed.

(** The selection, the query, the sort preference and the shell. *)
Lemma total_selectIndex index : total inv (selectIndex index).
Proof.
  eapply total_quiet; [apply selectIndex_run|]. intros σ. simpl.
  by destruct (js_nth (filteredItems (state σ)) index).
Qed.

Lemma total_select_at (f : State → Z) :
  total inv (let* s := gets state in selectIndex (f s)).
Proof.
  apply hoare_bind_gets. intros s.
  eapply hoare_weaken; [apply total_selectIndex | by intros σ [? _]].
Qed.

Lemma total_commit (m : State → State) :
  (∀ s, histories (m s) = histories s ∧ historyIndex (m s) = historyIndex s) →
  total inv (commit m).
Proof.
  intros Hm. by eapply total_quiet; [done|]; intros σ; destruct (Hm (state σ)).
Qed.

Lemma total_search : total inv search.
Proof.
  apply hoare_bind_gets. intros s.
  eapply hoare_weaken; [by apply total_commit | by intros σ [? _]].
Qed.

Lemma total_emit e : total inv (emit e).
Proof. by eapply total_quiet. Qed.

Lemma total_sort : total inv sort.
Proof. by eapply total_quiet; [apply sort_run|]. Qed.

Lemma total_changeSortKey sortKey : total inv (changeSortKey sortKey).
Proof.
  apply hoare_bind_gets. intros s. apply hoare_bind_gets. intros d.
  apply (hoare_bind _ _ _ (λ _, inv)); [|intros _; apply total_sort].
  eapply hoare_weaken; [by apply total_commit | by intros σ [[? _] _]].
Qed.

Lemma total_openDirectory : total inv openDirectory.
Proof.
  apply hoare_bind_gets. intros e. apply hoare_bind_gets. intros d.
  apply (hoare_bind _ _ _ (λ _, inv));
    [eapply hoare_weaken; [apply total_emit | by intros σ [[? _] _]]|].
  intros _. apply hoare_when; [intros _; apply total_emit | by intros _ σ ?].
Qed.

(** The viewer raises when its listing does, and changes nothing. *)
Lemma safe_showViewer filepath : hoare inv (showViewer filepath) (λ _, inv) fs_error.
Proof.
  intros σ Hinv. unfold showViewer, bind, gets, emit, modify, throw. simpl.
  destruct (File.isDirectory _); destruct (listFiles _ _ _); simpl;
    first [by eapply inv_quiet | by split; eauto].
Qed.

Lemma safe_action filepath : hoare inv (action filepath) (λ _, inv) fs_error.
Proof.
  apply hoare_bind_gets. intros e. apply hoare_if; intros _.
  - eapply hoare_conseq; [apply total_changeDirectory | by intros σ [? _] | done..].
  - eapply hoare_weaken; [apply safe_showViewer | by intros σ [? _]].
Qed.

(** Every admissible intent keeps both invariants, on return and on
    raise, and raises only what [raises_of] allows. *)
#[local] Hint Resolve total_initDirectory total_changeDirectory
  total_changeParentDirectory total_changeHomeDirectory total_changeSelectedDirectory
  total_backDirectory total_forwardDirectory total_setScrollTop total_openDirectory
  total_selectIndex total_select_at total_changeSortKey total_search total_commit
  safe_showViewer safe_action : explorer.

Lemma run_triple i :
  hoare (λ σ, inv σ ∧ admissible i (state σ)) (run i) (λ _, inv) (raises_of i).
Proof.
  destruct i; simpl; unfold raises_of; simpl;
    (eapply hoare_weaken;
     [eauto with explorer | first [ done | by intros σ [? _] ]]).
Qed.

Lemma raises_of_inv i e σ : raises_of i e σ → inv σ.
Proof. unfold raises_of. by destruct (opens_viewer i); [intros [? _]|]. Qed.

Lemma inv_run i σ : admissible i (state σ) → inv σ → inv (final (run i σ)).
Proof.
  intros Hadm Hinv.
  by apply (hoare_final _ _ _ _ _ (run_triple i) (raises_of_inv i)).
Qed.

(** One transition of the explorer (an admissible intent of the view, a
    live watch firing, a change of the environment) keeps the history
    invariant and the watcher invariant. *)
Lemma step_inv σ σ' : step σ σ' → inv σ → inv σ'.
Proof.
  destruct 1 as [i σ Hadm|h σ Hlive|e σ]; intros Hinv;
    [by apply inv_run | by apply inv_load | done].
Qed.

Lemma inv_init dir e : inv (init_store dir e).
Proof. split; [by left|]. split; [intros h d Hh|intros h Hw]; done. Qed.

(** C2: every store the explorer reaches from its initial state is well
    formed: the cursor is -1 with no record, or it indexes a record of the
    committed directory; and at most one watch is live, the one [watcher]
    holds, on the committed directory. *)
Theorem reachable_inv dir e σ : reachable dir e σ → wf σ ∧ watch_inv σ.
Proof.
  unfold reachable. revert σ.
  apply (rtc_ind_r (λ σ, wf σ ∧ watch_inv σ)); [apply inv_init|].
  intros σ1 σ2 _ Hs Hinv. by apply (step_inv σ1).
Qed.

(** C10: in a store that satisfies the invariants, an admissible intent
    never raises a [TypeError]: the only intents that can raise at all are
    the two that open the viewer, and what they raise is the error of a
    failing listing. *)
Theorem admissible_never_TypeError i σ :
  inv σ → admissible i (state σ) →
  (∀ reading σ', run i σ ≠ Raised (TypeError reading) σ') ∧
  (raised (run i σ) = true → opens_viewer i = true).
Proof.
  intros Hinv Hadm. pose proof (run_triple i σ (conj Hinv Hadm)) as Ht.
  unfold raises_of in Ht. destruct (run i σ) as [|x σ'], (opens_viewer i); try done.
  destruct Ht as [_ [d ->]]. by split.
Qed.

(** Induction over the runs of the explorer, for an invariant [I] that is
    proved together with [inv]; [R] restricts the transitions. *)
Lemma steps_ind (R : relation Store) (I : Store → Prop) σ0 :
  (∀ σ σ', R σ σ' → step σ σ') → inv σ0 → I σ0 →
  (∀ σ σ', R σ σ' → inv σ → I σ → I σ') →
  ∀ σ, rtc R σ0 σ → inv σ ∧ I σ.
Proof.
  intros HR Hinv0 HI0 HI. apply rtc_ind_r; [done|].
  intros σ1 σ2 _ HR12 [Hinv1 HI1]. split; [|by eapply HI].
  by apply (step_inv σ1); [apply HR|].
Qed.

(** An admissible traversal is a [restoreDirectory] that finds its
    record. *)
Lemma traversal_restores (i : Intent) σ :
  wf σ → traversal i = true → admissible i (state σ) →
  ∃ j h, js_nth (histories (state σ)) j = Some h ∧ run i σ = restoreDirectory j σ.
Proof.
  intros Hwf Ht Hadm. pose proof (wf_cursor_ok _ Hwf) as [Hlo Hhi].
  destruct i as [| | | | |offset|offset| | | | | | | | | | | | | |]; simplify_eq/=.
  - assert (is_Some (js_nth (histories (state σ)) (historyIndex (state σ) - 1 - offset)))
      as [h Hh] by (apply js_nth_in_range; lia).
    eexists _, h. split; [done|]. apply backDirectory_go, canBackDirectory_true. lia.
  - assert (is_Some (js_nth (histories (state σ)) (historyIndex (state σ) + 1 + offset)))
      as [h Hh] by (apply js_nth_in_range; lia).
    eexists _, h. split; [done|]. apply forwardDirectory_go, canForwardDirectory_true. lia.
Qed.

(** ** Sequences of intents *)

Definition run_all (l : list Intent) (σ : Store) : Store :=
  foldl (λ σ i, final (run i σ)) σ l.

Fixpoint admissible_all (l : list Intent) (σ : Store) : Prop :=
  match l with
  | [] => True
  | i :: l' => admissible i (state σ) ∧ admissible_all l' (final (run i σ))
  end.

Lemma rtc_run_all l σ : admissible_all l σ → rtc step σ (run_all l σ).
Proof.
  revert σ. induction l as [|i l IH]; intros σ; simpl; [done|].
  intros [Hi Hl]. eapply rtc_l; [by apply step_intent | by apply IH].
Qed.

Lemma inv_run_all l σ : admissible_all l σ → inv σ → inv (run_all l σ).
Proof.
  revert σ. induction l as [|i l IH]; intros σ; simpl; [done|].
  intros [Hi Hl] Hinv. by apply IH, inv_run.
Qed.

End Machine.

(** ** The theorems at the concrete environment *)

(** Start, visit [/a/b] and [/a/c], go back two places. *)
Definition tour : list Intent :=
  [InitDirectory; ChangeDirectory "/a/b"; ChangeDirectory "/a/c"; BackDirectory 1].

(** [store_a] is the store the first intent leaves. *)
Lemma store_a_run : final (run InitDirectory store0) = store_a.
Proof. vm_compute. reflexivity. Qed.

Lemma inv_store_a : inv store_a.
Proof. rewrite <- store_a_run. apply inv_run; [done | apply inv_init]. Qed.

Lemma tour_admissible : admissible_all tour store0.
Proof. vm_compute. done. Qed.

Lemma admissible_never_TypeError_witness :
  inv store0 ∧
  ∀ reading σ', run InitDirectory store0 ≠ Raised (TypeError reading) σ'.
Proof.
  assert (inv store0) as H0 by apply inv_init.
  split; [exact H0|].
  exact (proj1 (admissible_never_TypeError InitDirectory store0 H0 I)).
Defined.

Lemma reachable_inv_witness :
  admissible_all tour store0 ∧
  wf (run_all tour store0) ∧ watch_inv (run_all tour store0).
Proof.
  split; [exact tour_admissible|].
  exact (reachable_inv (Some "/a") env0 _ (rtc_run_all tour store0 tour_admissible)).
Defined.

(** The scenario of the specification: start at [/a], visit [/a/b] and
    [/a/c]; back gives [/a/b], back again [/a], forward twice [/a/c]; after
    one back, visiting [/a/d] drops the record of [/a/c]. *)
Example end_to_end :
  let visit := [InitDirectory; ChangeDirectory "/a/b"; ChangeDirectory "/a/c"] in
  let back1 := visit ++ [BackDirectory 0] in
  let back2 := back1 ++ [BackDirectory 0] in
  let forward2 := back2 ++ [ForwardDirectory 0; ForwardDirectory 0] in
  let branch := state (run_all (back1 ++ [ChangeDirectory "/a/d"]) store0) in
  directory (run_all back1 store0) = Some "/a/b" ∧
  directory (run_all back2 store0) = Some "/a" ∧
  directory (run_all forward2 store0) = Some "/a/c" ∧
  History.directory <$> histories branch = [Some "/a"; Some "/a/b"; Some "/a/d"] ∧
  forwardDirectories branch = [] ∧ historyIndex branch = 2.
Proof. by vm_compute. Qed.
