(* ===== verification/Place.v ===== *)
(** * The place of the user

    The explorer reloads the listing behind the user's back: the callback
    of the watch (source line 88) dispatches [load] whenever the directory
    changes on disk.  What [load] writes is [items] (line 97) and nothing
    else of the module state, so the place of the user, that is the
    records, the cursor, the scroll offsets, the committed directory, the
    query, the sort options and the selected path, survives any number of
    reloads and of changes of the filesystem.

    [same_place] is the equivalence "equal but for the items";
    [background] is a transition the user did not ask for.  The theorems
    show that background transitions keep the place and the row of a
    selected entry that is still listed, and that the scroll offset
    reported in a directory is the one the view gets back when the user
    returns to it, whatever happened in the background in between. *)

From stdpp Require Import base tactics list strings gmap relations.
From Stdlib Require Import ZArith Lia.
From S2P Require Import Prelude JsString Act Model SortEngine Actions Fixture Listing.
From S2P Require Import HistoryStack Zipper Explorer.

#[local] Open Scope Z_scope.
#[local] Open Scope act_scope.

(** The module state is the same but for the items, and the committed
    directory is the same. *)
Definition same_place (σ σ' : Store) : Prop :=
  state σ' = setItems (items (state σ')) (state σ) ∧ directory σ' = directory σ.

#[export] Instance same_place_equiv : Equivalence same_place.
Proof.
  unfold same_place. split.
  - intros σ. destruct (state σ). split; reflexivity.
  - intros σ σ' [Hs Hd]. split; [|done]. rewrite Hs. destruct (state σ). reflexivity.
  - intros σ1 σ2 σ3 [H12 Hd12] [H23 Hd23]. split; [|congruence].
    rewrite H23, H12. reflexivity.
Qed.

Section Place.
Context `{!ArraySort}.
Implicit Types (σ : Store) (z : Zipper.t) (d : option string).

(** A transition the user did not ask for: the callback of a live watch,
    or a change of the filesystem. *)
Inductive background : Store → Store → Prop :=
| background_watch h σ : is_Some (live σ !! h) → background σ (final (load σ))
| background_env e σ : background σ (with_env e σ).

Lemma background_step σ σ' : background σ σ' → step σ σ'.
Proof. destruct 1 as [h σ Hl|e σ]; [by eapply step_watch_fired | apply step_env]. Qed.

(** ** What keeps the place *)

Lemma load_same_place σ : same_place σ (final (load σ)).
Proof. split; [apply load_state | apply load_directory]. Qed.

Lemma with_env_same_place e σ : same_place σ (with_env e σ).
Proof. split; [|done]. simpl. destruct (state σ). reflexivity. Qed.

Lemma background_same_place σ σ' : rtc background σ σ' → same_place σ σ'.
Proof.
  induction 1 as [|σ1 σ2 σ3 Hb _ IH]; [done|]. etrans; [|exact IH].
  destruct Hb; [apply load_same_place | apply with_env_same_place].
Qed.

(** Whatever reads the state without its items reads the same value in
    the same place. *)
Lemma same_place_reads {A} (f : State → A) σ σ' :
  (∀ l s, f (setItems l s) = f s) → same_place σ σ' → f (state σ') = f (state σ).
Proof. intros Hf [-> _]. apply Hf. Qed.

Lemma same_place_abs σ σ' : same_place σ σ' → abs (state σ') = abs (state σ).
Proof. by apply same_place_reads. Qed.

Lemma same_place_wf σ σ' : same_place σ σ' → wf σ → wf σ'.
Proof. unfold wf. intros [-> ->]. done. Qed.

(** ** Scrolling, leaving and coming back *)

(** The zipper after a scroll in [z], a visit of [d] and a step back. *)
Definition returned (v : Z) d z : Zipper.t :=
  {| Zipper.back := Zipper.back z;
     Zipper.here := Zipper.here (Zipper.scroll v z);
     Zipper.forward := [Zipper.fresh d] |}.

Lemma leave_and_return v d z σ σ1 σ2 :
  abs (state σ) = Some z → d ≠ directory σ →
  rtc background (final (setScrollTop v σ)) σ1 →
  rtc background (final (changeDirectory d false σ1)) σ2 →
  let σ3 := final (backDirectory 0 σ2) in
  abs (state σ1) = Some (Zipper.scroll v z) ∧
  abs (state σ2) = Some (Zipper.visit d (Some (Zipper.scroll v z))) ∧
  raised (backDirectory 0 σ2) = false ∧
  abs (state σ3) = Some (returned v d z) ∧
  directory σ3 = History.directory (Zipper.here z) ∧ wf σ3.
Proof.
  intros Hz Hne H1%background_same_place H2%background_same_place.
  destruct (setScrollTop_final v _ σ (abs_js_nth _ _ Hz)) as (_ & _ & Hd).
  pose proof (proj2 H1) as Hd1.
  assert (abs (state σ1) = Some (Zipper.scroll v z)) as Hz1.
  { rewrite (same_place_abs _ σ1 H1). by apply setScrollTop_refines. }
  assert (abs (state σ2) = Some (Zipper.visit d (Some (Zipper.scroll v z)))) as Hz2.
  { rewrite (same_place_abs _ σ2 H2), <- Hz1.
    apply changeDirectory_refines; [by eapply abs_cursor_ok | left; congruence]. }
  destruct (abs_behind _ _ _ _ Hz2 eq_refl) as [Hh Hcan].
  destruct (backDirectory_final 0 (Zipper.here (Zipper.scroll v z)) σ2 Hcan)
    as (Hr & _ & _ & Hd3 & Hwf); [by rewrite Z.sub_0_r|].
  destruct (backDirectory_refines 0 _ σ2 Hz2) as [Hz3 _]; [simpl; lia|].
  split_and!; done.
Qed.

(** C20: background transitions keep the place of the user.  After any
    sequence of callbacks of the watch and changes of the filesystem the
    module state differs from the one before in its items only: the
    scroll offset, the directories behind and ahead, the sort option and
    the selected path are those the getters returned before, a well-formed
    store stays well formed, and an entry with the selected path that is
    among the filtered items after the reload is the selected row, at the
    index the getter [selectedIndex] returns. *)
Theorem background_keeps_place σ σ' :
  rtc background σ σ' →
  same_place σ σ' ∧ (wf σ → wf σ') ∧
  scrollTop (state σ') = scrollTop (state σ) ∧
  backDirectories (state σ') = backDirectories (state σ) ∧
  forwardDirectories (state σ') = forwardDirectories (state σ) ∧
  sortOption (state σ') = sortOption (state σ) ∧
  selectedFilepath (state σ') = selectedFilepath (state σ) ∧
  ∀ file, file ∈ filteredItems (state σ') →
    Entry.path file = selectedFilepath (state σ) →
    ∃ i : nat, selectedIndex (state σ') = Z.of_nat i ∧
      Entry.path <$> filteredItems (state σ') !! i = Some (selectedFilepath (state σ)).
Proof.
  intros Hp%background_same_place.
  assert (selectedFilepath (state σ') = selectedFilepath (state σ)) as Hsel
    by (by apply same_place_reads).
  split_and!; [done | by apply same_place_wf | by apply same_place_reads.. | done |].
  intros file Hin Hpath. rewrite <- Hsel in *.
  pose proof (selectedIndex_listed _ file Hin Hpath) as Hi.
  exists (Z.to_nat (selectedIndex (state σ'))).
  split; [lia | apply selectedIndex_path; lia].
Qed.

(** C6: the scroll offset of a directory is restored on return.  In a
    well-formed store with the cursor on a record, after [setScrollTop v],
    a navigation to another directory and [backDirectory], with any
    number of background transitions in between, the committed directory
    is the one the user left and the getter [scrollTop] returns [v] again;
    in the directory visited in between it returned 0; the directories
    behind are those of before, the visited directory is the one ahead,
    [backDirectory] does not raise and the store is well formed. *)
Theorem scroll_restored v d σ σ1 σ2 :
  wf σ → 0 ≤ historyIndex (state σ) → d ≠ directory σ →
  rtc background (final (setScrollTop v σ)) σ1 →
  rtc background (final (changeDirectory d false σ1)) σ2 →
  let σ3 := final (backDirectory 0 σ2) in
  scrollTop (state σ1) = inr v ∧
  scrollTop (state σ2) = inr 0 ∧
  raised (backDirectory 0 σ2) = false ∧
  directory σ3 = directory σ ∧
  scrollTop (state σ3) = inr v ∧
  backDirectories (state σ3) = backDirectories (state σ) ∧
  forwardDirectories (state σ3) = [d] ∧
  wf σ3.
Proof.
  intros Hwf Hi Hne H1 H2.
  destruct (abs_on_record (state σ)) as [z Hz]; [by apply wf_cursor_ok | done |].
  destruct (leave_and_return v d z σ σ1 σ2 Hz Hne H1 H2) as (Hz1 & Hz2 & Hr & Hz3 & Hd & Hwf3).
  cbv zeta. rewrite Hd, (wf_abs σ z Hwf Hz).
  rewrite (scrollTop_abs _ _ Hz1), (scrollTop_abs _ _ Hz2), (scrollTop_abs _ _ Hz3).
  rewrite (backDirectories_abs _ _ Hz3), (backDirectories_abs _ _ Hz).
  by rewrite (forwardDirectories_abs _ _ Hz3).
Qed.

End Place.

(** ** The place at the concrete environment *)

(** The filesystem of [env0] after a file appeared in [/a/b]. *)
Definition env_grown : Env :=
  {| new_File := new_File env0;
     listFiles := λ p r,
       if decide (p = Some "/a/b")
       then Some (mkFile "/a/b" "a0.png" false true 1 40 :: files_b)
       else listFiles env0 p r;
     fs_watch_ok := fs_watch_ok env0;
     home := home env0;
     openItem := openItem env0 |}.

(** [imgur.jpg] selected in [/a/b]; then the file appears and the watch
    fires. *)
Definition store_b_sel : Store := final (selectIndex 1 store_ab).
Definition store_b_grown : Store := final (load (with_env env_grown store_b_sel)).

Lemma background_grown : rtc background store_b_sel store_b_grown.
Proof.
  apply (rtc_l _ _ (with_env env_grown store_b_sel)); [apply background_env|].
  apply rtc_once. refine (background_watch 1 (with_env env_grown store_b_sel) _).
  exists (Some "/a/b"). by vm_compute.
Qed.

(** The selected entry moves one row down and stays selected. *)
Example selection_follows_entry :
  selectedFilepath (state store_b_sel) = "/a/b/imgur.jpg" ∧
  selectedIndex (state store_b_sel) = 1 ∧ selectedIndex (state store_b_grown) = 2 ∧
  Entry.name <$> filteredItems (state store_b_grown) =
    ["a0.png"; "image1.png"; "imgur.jpg"; "photo.png"].
Proof. by vm_compute. Qed.

Lemma background_keeps_place_witness :
  rtc background store_b_sel store_b_grown ∧
  ∃ i : nat, selectedIndex (state store_b_grown) = Z.of_nat i ∧
    Entry.path <$> filteredItems (state store_b_grown) !! i =
      Some (selectedFilepath (state store_b_sel)).
Proof.
  split; [exact background_grown|].
  destruct (background_keeps_place _ _ background_grown) as (_ & _ & _ & _ & _ & _ & _ & H).
  apply (H (mkFile "/a/b" "imgur.jpg" false true 4 20).(File.toObject));
    [apply (list_elem_of_lookup_2 _ 2); by vm_compute | by vm_compute].
Defined.

(** Scrolling in [/a/b], a reload, a visit of [/a/c], a reload there, and
    back. *)
Definition store_b_scrolled : Store := final (load (final (setScrollTop 120 store_ab))).
Definition store_c_visited : Store :=
  final (load (final (changeDirectory (Some "/a/c") false store_b_scrolled))).

Lemma scroll_restored_witness :
  wf store_ab ∧
  directory (final (backDirectory 0 store_c_visited)) = directory store_ab ∧
  scrollTop (state (final (backDirectory 0 store_c_visited))) = inr 120.
Proof.
  assert (wf store_ab) as Hwf by (apply (bool_decide_unpack _); by vm_compute).
  assert (rtc background (final (setScrollTop 120 store_ab)) store_b_scrolled) as H1.
  { apply rtc_once. refine (background_watch 1 (final (setScrollTop 120 store_ab)) _).
    exists (Some "/a/b"). by vm_compute. }
  assert (rtc background (final (changeDirectory (Some "/a/c") false store_b_scrolled))
            store_c_visited) as H2.
  { apply rtc_once.
    refine (background_watch 3 (final (changeDirectory (Some "/a/c") false store_b_scrolled)) _).
    exists (Some "/a/c"). by vm_compute. }
  destruct (scroll_restored 120 (Some "/a/c") store_ab store_b_scrolled store_c_visited Hwf)
    as (_ & _ & _ & Hd & Hs & _); [by vm_compute | by vm_compute | exact H1 | exact H2 |].
  exact (conj Hwf (conj Hd Hs)).
Defined.
