(* ===== verification/Moves.v ===== *)
(** * The commits behind every action

    Whatever an action of the module does to the store, it does through a
    handful of moves: a commit of one of the bookkeeping mutations, a
    dispatch to the root store, [sort], [load], the push of
    [changeDirectory] (source lines 48-55), a [restoreDirectory] that
    finds its record (lines 73-82), the replacement of the record at
    the cursor by [setScrollTop] (lines 134-138) and the commit of a sort
    option followed by [sort] (lines 146-147).  [run_moves] decomposes the
    run of every admissible intent into a sequence of such moves; an
    invariant of the class [Stable] is kept by each move, and therefore by
    every transition of the explorer that is not a change of the
    environment. *)

From stdpp Require Import base tactics list strings gmap relations.
From Stdlib Require Import ZArith Lia.
From S2P Require Import Prelude JsString Act Model SortEngine Actions Fixture Listing.
From S2P Require Import HistoryStack Explorer.

#[local] Open Scope Z_scope.
#[local] Open Scope act_scope.

(** The mutations that touch neither the records, the cursor, the items
    nor the sort options. *)
Inductive bookkeeping : (State → State) → Prop :=
| bk_selectedFilepath p : bookkeeping (setSelectedFilepath p)
| bk_query q : bookkeeping (setQuery q)
| bk_queryInput q : bookkeeping (setQueryInput q)
| bk_directoryInput d : bookkeeping (setDirectoryInput (Some d)).

(** A call to a collaborator other than the watcher. *)
Definition outward (e : Event) : Prop :=
  match e with
  | WatchClosed _ | WatchOpened _ _ => False
  | _ => True
  end.

#[export] Instance outward_dec e : Decision (outward e).
Proof. destruct e; simpl; apply _. Defined.

(** The record [setScrollTop] writes over [h]. *)
Definition rescrolled (v : Z) (h : History.t) : History.t :=
  {| History.directory := History.directory h; History.scrollTop := v |}.

Section Moves.
Context `{!ArraySort}.
Implicit Types (σ : Store) (i : Z) (d : option string).

Inductive move : Store → Store → Prop :=
| move_commit m σ : bookkeeping m → move σ (with_state m σ)
| move_emit e σ : outward e → move σ (with_trace e σ)
| move_sort σ : move σ (final (sort σ))
| move_load σ : move σ (final (load σ))
| move_push d σ :
    is_Some d ∨ d = directory σ → cursor_ok (state σ) → move σ (pushed d σ)
| move_restore i h σ :
    js_nth (histories (state σ)) i = Some h → move σ (final (restoreDirectory i σ))
| move_scroll v h σ :
    js_nth (histories (state σ)) (historyIndex (state σ)) = Some h →
    move σ (with_state (setHistory (rescrolled v h) (historyIndex (state σ))) σ)
| move_resort o σ :
    move σ (final (sort (with_state (setSortOption o (directory σ)) σ))).

(** An invariant every move keeps. *)
Class Stable (I : Store → Prop) : Prop :=
  stable : ∀ σ σ', move σ σ' → I σ → I σ'.

Lemma stable_moves I `{!Stable I} σ σ' : rtc move σ σ' → I σ → I σ'.
Proof.
  induction 1 as [|σ1 σ2 σ3 Hm _ IH]; [done|]. intros HI. by apply IH, (stable σ1 σ2).
Qed.

#[export] Instance and_stable I J `{!Stable I, !Stable J} : Stable (λ σ, I σ ∧ J σ).
Proof. intros σ σ' Hm [? ?]. split; by eapply stable. Qed.

(** No move replaces the environment. *)
#[export] Instance env_stable (P : Env → Prop) : Stable (λ σ, P (env σ)).
Proof.
  destruct 1 as [| | | | |i h σ Hh| |]; simpl; autorewrite with explorer; try done.
  by destruct (restoreDirectory_state i h σ Hh) as [_ ->].
Qed.

(** ** Every action as a sequence of moves *)

Lemma restoreDirectory_moves i h σ :
  js_nth (histories (state σ)) i = Some h →
  rtc move σ (final (restoreDirectory i σ)).
Proof.
  intros Hh. by apply rtc_once, (move_restore i h).
Qed.

Lemma changeDirectory_moves d force σ :
  is_Some d ∨ d = directory σ → cursor_ok (state σ) →
  rtc move σ (final (changeDirectory d force σ)).
Proof.
  intros Hd Hc.
  destruct (decide (d = directory σ)) as [->|Hne], force;
    try (rewrite changeDirectory_same; apply rtc_refl);
    (rewrite changeDirectory_go by eauto;
     eapply rtc_l; [by apply move_push | by eapply restoreDirectory_moves, pushed_nth]).
Qed.

Lemma selectIndex_moves index σ : rtc move σ (final (selectIndex index σ)).
Proof.
  rewrite selectIndex_run. simpl. destruct (js_nth _ _); [|done].
  apply rtc_once, move_commit. constructor.
Qed.

Lemma openDirectory_moves σ : rtc move σ (final (openDirectory σ)).
Proof.
  rewrite openDirectory_reports. simpl.
  eapply rtc_l; [by apply (move_emit (OpenItem (directory σ)))|].
  destruct (openItem _ _); [done|].
  by apply rtc_once, (move_emit (ShowMessage (invalid_directory_message (directory σ)))).
Qed.

Lemma showViewer_moves filepath σ : rtc move σ (final (showViewer filepath σ)).
Proof.
  unfold showViewer, bind, gets, emit, modify, throw. simpl.
  destruct (File.isDirectory _); destruct (listFiles _ _ _); simpl;
    first [by eapply rtc_once, (move_emit (ViewerShow _ _)) | done].
Qed.

Lemma changeSortKey_moves sortKey σ : rtc move σ (final (changeSortKey sortKey σ)).
Proof.
  set (o := {| SortOption.key := sortKey;
               SortOption.descending :=
                 if bool_decide (SortOption.key (sortOption (state σ)) = sortKey)
                 then negb (SortOption.descending (sortOption (state σ)))
                 else false |}).
  change (changeSortKey sortKey σ)
    with (sort (with_state (setSortOption o (directory σ)) σ)).
  apply rtc_once, move_resort.
Qed.

(** The run of an admissible intent in a well-formed store. *)
Theorem run_moves (i : Intent) σ :
  wf σ → admissible i (state σ) → rtc move σ (final (run i σ)).
Proof.
  intros Hwf Hadm. pose proof (wf_cursor_ok _ Hwf) as Hc.
  destruct i; simpl in *;
    try (by unfold initDirectory, changeParentDirectory, changeHomeDirectory,
               changeSelectedDirectory, action, when, bind, gets; simpl;
            repeat case_match;
            first [ apply changeDirectory_moves; eauto
                  | apply showViewer_moves | apply rtc_refl ]);
    try apply selectIndex_moves; try apply openDirectory_moves;
    try apply showViewer_moves; try apply changeSortKey_moves;
    try (apply rtc_once, move_commit; constructor).
  - destruct (traversal_restores (BackDirectory offset) σ) as (j & h & Hh & Hrun);
      [done..|]. simpl in Hrun. rewrite Hrun. by eapply restoreDirectory_moves.
  - destruct (traversal_restores (ForwardDirectory offset) σ) as (j & h & Hh & Hrun);
      [done..|]. simpl in Hrun. rewrite Hrun. by eapply restoreDirectory_moves.
  - assert (is_Some (js_nth (histories (state σ)) (historyIndex (state σ))))
      as [h Hh] by (apply js_nth_in_range; destruct Hc; lia).
    rewrite Hh. apply rtc_once, (move_scroll scrollTop h σ Hh).
Qed.

(** A stable invariant is kept by every admissible intent and by the
    reload of a firing watch. *)
Lemma stable_run I `{!Stable I} (i : Intent) σ :
  wf σ → admissible i (state σ) → I σ → I (final (run i σ)).
Proof. intros Hwf Hadm. by apply (stable_moves I), run_moves. Qed.

Lemma stable_load I `{!Stable I} σ : I σ → I (final (load σ)).
Proof. apply stable, move_load. Qed.

(** ** Stable invariants over the runs *)

(** A stable invariant that does not read the environment is kept by
    every transition. *)
Lemma stable_step I `{!Stable I} σ σ' :
  (∀ e, I σ → I (with_env e σ)) → step σ σ' → inv σ → I σ → I σ'.
Proof.
  intros Henv Hstep [Hwf _] HI.
  destruct Hstep as [i σ Hadm|h σ Hlive|e σ];
    [by apply (stable_run I) | by apply (stable_load I) | by apply Henv].
Qed.

(** It holds in every reachable store once it holds in the initial one. *)
Lemma stable_reachable I `{!Stable I} dir e σ :
  (∀ e' σ, I σ → I (with_env e' σ)) → I (init_store dir e) →
  reachable dir e σ → I σ.
Proof.
  intros Henv H0 Hr.
  apply (steps_ind step I (init_store dir e)); [done | apply inv_init | done | | done].
  intros σ1 σ2 Hstep Hinv HI. apply (stable_step I σ1 σ2); [intros e'; apply Henv|done..].
Qed.

End Moves.

(** The cases of a move, with the arguments of its constructors named. *)
Ltac move_cases Hm :=
  destruct Hm as [m σ Hbk|e σ Hout|σ|σ|d σ Hd Hc|i h σ Hh|v h σ Hh|o σ].
