(* ===== verification/Protocol.v ===== *)
(** * The protocol of the watcher

    The specification asks for one live watch at a time and no leak: every
    reload closes the previous watch before it arms a new one.  The
    monitor below reads the calls to the watcher off the trace and accepts
    a trace when every watch is armed on a fresh handle while no watch is
    live, and every close names the handle the module holds.  The trace of
    every reachable store is accepted, and the monitor ends in the watcher
    fields of the store. *)

From stdpp Require Import base tactics list strings gmap relations.
From Stdlib Require Import ZArith Lia.
From S2P Require Import Prelude JsString Act Model SortEngine Actions Fixture Listing.
From S2P Require Import HistoryStack Explorer Moves.

#[local] Open Scope act_scope.

(** What the monitor knows: the handle the module holds, the watches that
    are live, and the next unused handle. *)
Record Monitor := mkMonitor {
  held : option nat;
  open_on : gmap nat (option string);
  unused : nat
}.

#[export] Instance Monitor_eq_dec : EqDecision Monitor.
Proof. solve_decision. Defined.

Definition monitor_init : Monitor := {| held := None; open_on := ∅; unused := 0 |}.

(** One call; [None] when the call breaks the protocol. *)
Definition monitor_step (m : Monitor) (e : Event) : option Monitor :=
  match e with
  | WatchOpened h d =>
      if decide (h = unused m ∧ open_on m = ∅)
      then Some {| held := Some h; open_on := {[ h := d ]}; unused := S h |}
      else None
  | WatchClosed h =>
      if decide (held m = Some h)
      then Some {| held := held m; open_on := delete h (open_on m); unused := unused m |}
      else None
  | _ => Some m
  end.

Definition monitor_from (om : option Monitor) (tr : list Event) : option Monitor :=
  foldl (λ om e, om ≫= λ m, monitor_step m e) om tr.

Definition monitor (tr : list Event) : option Monitor :=
  monitor_from (Some monitor_init) tr.

(** The watcher fields of a store. *)
Definition watching (σ : Store) : Monitor :=
  {| held := watcher σ; open_on := live σ; unused := next_watch σ |}.

(** The trace is accepted and accounts for the watcher fields. *)
Definition conforms (σ : Store) : Prop := monitor (trace σ) = Some (watching σ).

#[export] Instance conforms_dec σ : Decision (conforms σ).
Proof. unfold conforms. apply _. Defined.

Lemma monitor_app tr tr' : monitor (tr ++ tr') = monitor_from (monitor tr) tr'.
Proof. apply foldl_app. Qed.

Lemma monitor_outward tr e : outward e → monitor (tr ++ [e]) = monitor tr.
Proof.
  intros He. rewrite monitor_app. simpl. destruct (monitor tr) as [m|]; [|done].
  by destruct e.
Qed.

Section Protocol.
Context `{!ArraySort}.
Implicit Types (σ : Store).

Lemma conforms_frame σ σ' :
  trace σ' = trace σ → watcher σ' = watcher σ → live σ' = live σ →
  next_watch σ' = next_watch σ → conforms σ → conforms σ'.
Proof. unfold conforms, watching. by intros -> -> -> ->. Qed.

(** A reload follows the protocol: it closes the watch the module holds,
    and it arms on a fresh handle with no watch live. *)
Lemma conforms_load σ : watch_pre σ → conforms σ → conforms (final (load σ)).
Proof.
  intros Hpre Hc. pose proof (watch_pre_closed σ Hpre) as Hcl.
  destruct (load_watch σ) as [_ Hw]. unfold conforms, watching in *.
  rewrite load_trace, monitor_app, Hc. rewrite Hcl in Hw.
  destruct (watcher σ) as [h|] eqn:Hh, (fs_watch_ok _ _);
    destruct Hw as (-> & -> & ->); simpl;
    rewrite ?decide_True by done; simpl; rewrite ?Hcl, ?decide_True by done;
    try done; by rewrite insert_empty.
Qed.

(** Every move follows the protocol. *)
#[export] Instance conforms_stable : Stable (λ σ, watch_pre σ ∧ conforms σ).
Proof.
  intros σ σ' Hm [Hpre Hcf].
  move_cases Hm;
    try (split; [by apply (watch_pre_frame σ) | by apply (conforms_frame σ)]).
  - split; [by apply (watch_pre_frame σ)|].
    unfold conforms in *. simpl. by rewrite monitor_outward.
  - split; [by apply watch_inv_pre, load_watch_inv | by apply conforms_load].
  - rewrite (restoreDirectory_Some _ _ _ Hh).
    split; [apply watch_inv_pre, load_watch_inv|apply conforms_load];
      first [by apply (watch_pre_frame σ) | by apply (conforms_frame σ)].
Qed.

(** C14: the calls to the watcher follow the protocol in every run of the
    explorer: a watch is armed only on a fresh handle and only while no
    watch is live, every close names the handle the module holds, and the
    handle held, the live watches and the next handle of the store are
    those the monitor computes from the trace. *)
Theorem reachable_conforms dir e σ : reachable dir e σ → conforms σ.
Proof.
  intros Hr.
  apply (stable_reachable (λ σ, watch_pre σ ∧ conforms σ) dir e); [done| |done].
  split; [by apply watch_inv_pre, inv_init | done].
Qed.

End Protocol.

(** ** The protocol at the concrete environment *)

Lemma reachable_conforms_witness :
  reachable (Some "/a") env0 (run_all tour store0) ∧
  monitor (trace (run_all tour store0)) = Some (watching (run_all tour store0)).
Proof.
  assert (reachable (Some "/a") env0 (run_all tour store0)) as Hr
    by exact (rtc_run_all tour store0 tour_admissible).
  split; [exact Hr | exact (reachable_conforms (Some "/a") env0 _ Hr)].
Defined.

(** The tour arms four watches and closes three. *)
Example tour_watch_calls :
  List.filter (λ e, bool_decide (¬ outward e)) (trace (run_all tour store0)) =
    [WatchOpened 0 (Some "/a"); WatchClosed 0; WatchOpened 1 (Some "/a/b");
     WatchClosed 1; WatchOpened 2 (Some "/a/c"); WatchClosed 2;
     WatchOpened 3 (Some "/a")] ∧
  watching (run_all tour store0) =
    {| held := Some 3%nat; open_on := {[ 3%nat := Some "/a" ]}; unused := 4 |}.
Proof. by vm_compute. Qed.

(** A second watch armed while the first is live, a close of a handle the
    module does not hold, and a handle used twice are rejected. *)
Example monitor_rejects :
  monitor [WatchOpened 0 (Some "/a"); WatchOpened 1 (Some "/a/b")] = None ∧
  monitor [WatchOpened 0 (Some "/a"); WatchClosed 1] = None ∧
  monitor [WatchOpened 0 (Some "/a"); WatchClosed 0; WatchOpened 0 (Some "/a")] = None.
Proof. by vm_compute. Qed.

(** After a navigation to a directory that cannot be watched, the module
    still holds the handle it closed, and the next reload closes it
    again: the protocol relies on a close that can be repeated. *)
Example stale_handle_closed_twice :
  List.filter (λ e, bool_decide (¬ outward e))
    (trace (run_all [InitDirectory; ChangeDirectory "/gone"; ChangeDirectory "/a/b"]
              store0)) =
    [WatchOpened 0 (Some "/a"); WatchClosed 0; WatchClosed 0;
     WatchOpened 1 (Some "/a/b")].
Proof. by vm_compute. Qed.
