(* ===== verification/Typed.v ===== *)
(** * Type and freshness invariants of the reachable stores

    Three invariants of the class [Stable] of [Moves.v].  [typed]: no
    [undefined] reaches the directory, the directory input or a history
    record.  [items_ok], under the contract of the File utility: the items
    are directories and images with distinct paths.  [fresh]: the items
    are the listing of the committed directory in the filesystem as it is;
    only a change of the filesystem breaks it, and the next reload restores
    it. *)

From stdpp Require Import base tactics list strings gmap relations.
From Stdlib Require Import ZArith Lia.
From S2P Require Import Prelude JsString Act Model SortEngine Actions Fixture Listing.
From S2P Require Import FileContract HistoryStack Explorer Moves.

#[local] Open Scope Z_scope.
#[local] Open Scope act_scope.

(** The values that are strings in the code are strings: none is
    [undefined]. *)
Record typed (σ : Store) : Prop := {
  typed_directory : is_Some (directory σ);
  typed_directoryInput : is_Some (directoryInput (state σ));
  typed_histories :
    Forall (λ h, is_Some (History.directory h)) (histories (state σ))
}.

(** The filesystem keeps the contract, and the items are well formed. *)
Definition listing_ok (σ : Store) : Prop :=
  FileContract (env σ) ∧ items_ok (items (state σ)).

Section Invariants.
Context `{!ArraySort}.
Implicit Types (σ : Store).

(** ** [typed] *)

Lemma typed_frame σ σ' :
  directory σ' = directory σ →
  directoryInput (state σ') = directoryInput (state σ) →
  histories (state σ') = histories (state σ) → typed σ → typed σ'.
Proof. intros Hd Hi Hh [? ? ?]. split; by rewrite ?Hd, ?Hi, ?Hh. Qed.

Lemma typed_record σ i h :
  typed σ → js_nth (histories (state σ)) i = Some h → is_Some (History.directory h).
Proof.
  intros [_ _ Hhs] Hh%js_nth_elem_of. by eapply Forall_forall in Hhs.
Qed.

#[export] Instance typed_stable : Stable typed.
Proof.
  intros σ σ' Hm Ht.
  move_cases Hm;
    [| | | | | | |by apply (typed_frame σ)].
  - destruct Hbk; destruct Ht; by split.
  - by apply (typed_frame σ).
  - by apply (typed_frame σ).
  - apply (typed_frame σ);
      [apply load_directory | by rewrite load_state | apply load_histories | done].
  - destruct Ht as [Hdir Hin Hhs]. split; [done..|]. simpl.
    apply Forall_app. split; [by apply js_slice_Forall|].
    apply Forall_singleton. simpl. by destruct Hd as [?| ->].
  - pose proof (typed_record σ i h Ht Hh) as Hsome.
    destruct (restoreDirectory_final i h σ Hh) as (_ & Hhs & _ & Hd & Hin & _).
    destruct Ht as [_ _ Hf]. split; by rewrite ?Hd, ?Hin, ?Hhs.
  - pose proof (typed_record σ _ h Ht Hh) as Hsome.
    destruct Ht as [Hdir Hin Hhs]. split; [done..|]. simpl.
    rewrite Forall_app, Forall_cons. split_and!; by try apply js_slice_Forall.
Qed.

(** ** [listing_ok] *)

Lemma items_ok_sort σ :
  items_ok (items (state σ)) → items_ok (items (state (final (sort σ)))).
Proof. rewrite sort_run. simpl. by rewrite array_sort_perm. Qed.

Lemma items_ok_load σ :
  FileContract (env σ) → items_ok (items (state (final (load σ)))).
Proof. intros He. rewrite load_items, array_sort_perm. by apply listed_items_ok. Qed.

#[export] Instance listing_ok_stable : Stable listing_ok.
Proof.
  intros σ σ' Hm [He Hok].
  split; [by apply (stable (I:=λ σ, FileContract (env σ)) σ σ')|].
  move_cases Hm; try done;
    [| | | |by apply (items_ok_sort (with_state _ σ))].
  - by destruct Hbk.
  - by apply items_ok_sort.
  - by apply items_ok_load.
  - rewrite (restoreDirectory_Some _ _ _ Hh). by apply items_ok_load.
Qed.

(** ** [fresh] *)

Lemma fresh_frame σ σ' :
  env σ' = env σ → directory σ' = directory σ →
  items (state σ') ≡ₚ items (state σ) → fresh σ → fresh σ'.
Proof. unfold fresh. intros He Hd -> ->. by rewrite (listed_frame σ σ'). Qed.

(** Whatever the store was, it is fresh after [load]. *)
Lemma load_fresh σ : fresh (final (load σ)).
Proof.
  unfold fresh. rewrite load_items, array_sort_perm.
  by rewrite (listed_frame σ (final (load σ))) by by autorewrite with explorer.
Qed.

#[export] Instance fresh_stable : Stable fresh.
Proof.
  intros σ σ' Hm Hf.
  move_cases Hm;
    try (by apply (fresh_frame σ));
    [| | | |apply (fresh_frame σ); [done..| |done]; rewrite sort_run; apply array_sort_perm].
  - destruct Hbk; apply (fresh_frame σ); done.
  - apply (fresh_frame σ); [done|done| |done]. rewrite sort_run. apply array_sort_perm.
  - apply load_fresh.
  - rewrite (restoreDirectory_Some _ _ _ Hh). apply load_fresh.
Qed.

(** ** The invariants over the runs *)

(** The transitions in which the filesystem keeps the contract. *)
Definition lawful_step (σ σ' : Store) : Prop := step σ σ' ∧ FileContract (env σ').

Lemma listing_ok_step σ σ' : lawful_step σ σ' → inv σ → listing_ok σ → listing_ok σ'.
Proof.
  intros [Hstep He] [Hwf _] Hok.
  destruct Hstep as [i σ Hadm|h σ Hlive|e σ];
    [by apply (stable_run listing_ok) | by apply (stable_load listing_ok)|].
  destruct Hok as [_ Hok]. by split.
Qed.

(** A transition that leaves the filesystem as it is keeps the items
    fresh. *)
Lemma fresh_step σ σ' : step σ σ' → env σ' = env σ → inv σ → fresh σ → fresh σ'.
Proof.
  intros Hstep He [Hwf _] Hf.
  destruct Hstep as [i σ Hadm|h σ Hlive|e σ];
    [by apply (stable_run fresh) | by apply (stable_load fresh)|].
  by apply (fresh_frame σ).
Qed.

(** C12: started on a directory, the explorer never holds [undefined]
    where the code expects a string: the committed directory, the
    directory input and the directory of every history record are defined
    in every reachable store. *)
Theorem reachable_typed dir e σ : reachable (Some dir) e σ → typed σ.
Proof.
  apply (stable_reachable typed); [intros e' σ'; by apply typed_frame|].
  split; simpl; eauto.
Qed.

(** C13: while the filesystem keeps the contract of the File utility, the
    items of every reachable store are directories and images with
    distinct paths, and so are the filtered items: selecting by index and
    reading the selected index back gives the index, with no further
    assumption. *)
Theorem lawful_items_ok dir e σ :
  FileContract e → rtc lawful_step (init_store dir e) σ →
  items_ok (items (state σ)) ∧
  ∀ i : nat, (i < length (filteredItems (state σ)))%nat →
    selectedIndex (state (final (selectIndex (Z.of_nat i) σ))) = Z.of_nat i.
Proof.
  intros He Hr.
  destruct (steps_ind lawful_step listing_ok (init_store dir e)) with (σ := σ)
    as [_ [_ Hok]]; [by intros ?? [? _] | apply inv_init | | | done |].
  - split; [done | apply items_ok_nil].
  - apply listing_ok_step.
  - split; [done|]. intros i Hi. apply selectedIndex_selected; [|done].
    by apply items_ok_filtered.
Qed.

Lemma lawful_run_all l σ :
  inv σ → FileContract (env σ) → admissible_all l σ → rtc lawful_step σ (run_all l σ).
Proof.
  revert σ. induction l as [|i l IH]; intros σ Hinv He; simpl; [done|].
  intros [Hi Hl].
  assert (FileContract (env (final (run i σ)))) as He'
    by (apply (stable_run (λ σ, FileContract (env σ))); [apply Hinv | done..]).
  eapply rtc_l; [split; [by apply step_intent | done]|].
  apply IH; [by apply inv_run | done..].
Qed.

End Invariants.

(** ** The invariants at the concrete environment *)

Lemma reachable_typed_witness :
  reachable (Some "/a") env0 (run_all tour store0) ∧ typed (run_all tour store0).
Proof.
  assert (reachable (Some "/a") env0 (run_all tour store0)) as Hr
    by exact (rtc_run_all tour store0 tour_admissible).
  split; [exact Hr | exact (reachable_typed "/a" env0 _ Hr)].
Defined.

Lemma lawful_items_ok_witness :
  FileContract env0 ∧ items_ok (items (state (run_all tour store0))).
Proof.
  split; [exact env0_contract|].
  exact (proj1 (lawful_items_ok (Some "/a") env0 _ env0_contract
                  (lawful_run_all tour store0 (inv_init _ _) env0_contract
                     tour_admissible))).
Defined.
