(* ===== verification/Activation.v ===== *)
(** * From the listing to the navigation

    What the table of the explorer shows comes from [load]; what the view
    dispatches on a row goes to [selectIndex], [changeSelectedDirectory]
    and [action].  When the items are fresh and the File utility keeps its
    contract, these compose: entering the selected row commits the
    directory of that row, and activating a row navigates into a directory
    and opens the viewer on an image, with the listing of the committed
    directory.  A navigation clears the committed query and keeps the
    selection (when it moves in the history) and the text of the query
    input. *)

From stdpp Require Import base tactics list strings gmap relations.
From Stdlib Require Import ZArith Lia.
From S2P Require Import Prelude JsString Act Model SortEngine Actions Fixture Listing.
From S2P Require Import FileContract HistoryStack Explorer Moves Typed.

#[local] Open Scope Z_scope.
#[local] Open Scope act_scope.

Section Activation.
Context `{!ArraySort}.
Implicit Types (σ : Store) (file : Entry.t).

(** An item of a fresh store is the entry of a file of the committed
    directory, and a [File] made from its path is that file. *)
Lemma fresh_item σ file :
  FileContract (env σ) → fresh σ → file ∈ items (state σ) →
  ∃ files,
    listFiles (env σ) (directory σ) false = Some files ∧
    Entry.path file ∈ File.path <$> files ∧
    Entry.path file ≠ "" ∧
    File.isDirectory (new_File (env σ) (Some (Entry.path file))) =
      Entry.isDirectory file ∧
    File.parentPath (new_File (env σ) (Some (Entry.path file))) =
      js_to_string (directory σ).
Proof.
  intros He Hf Hin. unfold fresh in Hf. rewrite Hf in Hin.
  apply listed_file in Hin as (files & f & Hl & Hin & ->). exists files.
  pose proof (listFiles_coherent _ _ _ Hl) as Hc.
  pose proof (listFiles_named _ _ _ Hl) as Hn.
  pose proof (listFiles_stat _ _ Hl) as Hs.
  rewrite Forall_forall in Hc, Hn, Hs.
  destruct (Hc f Hin) as (Hp & Hd & _). destruct (Hs f Hin) as [Hsd Hsp].
  rewrite Hp, Hd. split_and!; [done| |by apply Hn|done..].
  apply list_elem_of_fmap. eauto.
Qed.

(** Entering a selection that is a directory is the navigation to its
    path. *)
Lemma changeSelectedDirectory_enters p σ :
  wf σ → selectedFilepath (state σ) = p → p ≠ "" →
  File.isDirectory (new_File (env σ) (Some p)) = true →
  let o := changeSelectedDirectory σ in
  o = changeDirectory (Some p) false σ ∧ raised o = false ∧ directory (final o) = Some p.
Proof.
  intros Hwf Hp Hne Hdir.
  assert (changeSelectedDirectory σ = changeDirectory (Some p) false σ) as ->.
  { unfold changeSelectedDirectory, bind, gets, when. simpl.
    by rewrite Hp, Hdir, (proj2 (js_truthy_true _) Hne). }
  split; [done|]. destruct (decide (Some p = directory σ)) as [Heq|Hne'].
  - by rewrite Heq, changeDirectory_same.
  - by destruct (changeDirectory_final (Some p) false σ) as (? & _ & _ & ? & _);
      [apply wf_cursor_ok | left |].
Qed.

(** C29: selecting a row that is a directory and entering the selection
    navigates into that directory: with fresh items and a lawful
    filesystem, [selectIndex] followed by [changeSelectedDirectory]
    returns with the path of the row as committed directory, and the items
    are the listing of that directory. *)
Theorem enter_selected (i : nat) file σ :
  inv σ → FileContract (env σ) → fresh σ →
  filteredItems (state σ) !! i = Some file → Entry.isDirectory file = true →
  let o := changeSelectedDirectory (final (selectIndex (Z.of_nat i) σ)) in
  raised o = false ∧ directory (final o) = Some (Entry.path file) ∧ fresh (final o).
Proof.
  intros Hinv He Hf Hi Hdir.
  assert (file ∈ items (state σ)) as Hin.
  { eapply elem_of_sublist; [by eapply list_elem_of_lookup_2|].
    apply filteredItems_sublist. }
  destruct (fresh_item σ file He Hf Hin) as (files & _ & _ & Hne & Hstat & _).
  rewrite selectIndex_run, js_nth_nat, Hi. simpl.
  set (σ1 := with_state (setSelectedFilepath (Entry.path file)) σ).
  assert (wf σ1) as Hwf1 by (by apply (wf_frame σ), Hinv).
  destruct (changeSelectedDirectory_enters (Entry.path file) σ1)
    as (Ho & Hr & Hd); [done..|by unfold σ1; simpl; rewrite Hstat|].
  split_and!; [done..|]. rewrite Ho.
  apply (stable_moves fresh σ1); [|by apply (fresh_frame σ)].
  apply changeDirectory_moves; [eauto | by apply wf_cursor_ok].
Qed.

(** C30: activating a row.  With fresh items in a lawful filesystem,
    [action] on the path of a listed directory is the navigation into it,
    and on the path of a listed image it opens the viewer on the paths of
    every file of the committed directory, the image among them, with the
    image as current path; it does not raise. *)
Theorem action_listed file d σ :
  FileContract (env σ) → fresh σ → directory σ = Some d → file ∈ items (state σ) →
  if Entry.isDirectory file
  then action (Entry.path file) σ = changeDirectory (Some (Entry.path file)) false σ
  else ∃ files,
    listFiles (env σ) (Some d) false = Some files ∧
    Entry.path file ∈ File.path <$> files ∧
    action (Entry.path file) σ =
      Done tt
        (with_trace (ViewerShow (File.path <$> files) (Some (Entry.path file))) σ).
Proof.
  intros He Hf Hd Hin.
  destruct (fresh_item σ file He Hf Hin) as (files & Hl & Hp & _ & Hstat & Hpar).
  rewrite Hd in Hl, Hpar. simpl in Hpar.
  unfold action, bind, gets. simpl. rewrite Hstat, new_File_path.
  destruct (Entry.isDirectory file) eqn:Hdir; [done|].
  exists files. split_and!; [done..|].
  unfold showViewer, bind, gets, emit, modify. simpl.
  by rewrite Hstat, Hpar, Hl.
Qed.

(** ** The selection across a traversal of the history *)

(** A path whose parent is not the committed directory is none of the
    fresh items. *)
Lemma fresh_not_listed p σ :
  FileContract (env σ) → fresh σ →
  File.parentPath (new_File (env σ) (Some p)) ≠ js_to_string (directory σ) →
  selectedFilepath (state σ) = p → selectedIndex (state σ) = -1.
Proof.
  intros He Hf Hpar Hp. apply js_findIndex_none, Forall_forall. intros file Hin.
  apply bool_decide_eq_false. intros Heq. apply Hpar.
  assert (file ∈ items (state σ)) as Hit
    by (eapply elem_of_sublist; [done | apply filteredItems_sublist]).
  destruct (fresh_item σ file He Hf Hit) as (_ & _ & _ & _ & _ & Hparent).
  by rewrite <- Hp, Heq.
Qed.

(** C32: going back or forward keeps the selection of the directory that
    is left.  After an admissible [backDirectory] or [forwardDirectory]
    the selected path is the one selected before; when it is a directory,
    [changeSelectedDirectory] then navigates into it, although the table,
    with a lawful filesystem and a selection from another directory, shows
    no row selected ([selectedIndex] is -1). *)
Theorem traversal_keeps_selection (i : Intent) p σ :
  inv σ → traversal i = true → admissible i (state σ) →
  selectedFilepath (state σ) = p → p ≠ "" →
  File.isDirectory (new_File (env σ) (Some p)) = true →
  let σ1 := final (run i σ) in
  selectedFilepath (state σ1) = p ∧
  (FileContract (env σ) →
   File.parentPath (new_File (env σ) (Some p)) ≠ js_to_string (directory σ1) →
   selectedIndex (state σ1) = -1) ∧
  directory (final (changeSelectedDirectory σ1)) = Some p.
Proof.
  intros [Hwf _] Ht Hadm Hp Hne Hdir σ1.
  destruct (traversal_restores i σ Hwf Ht Hadm) as (j & h & Hh & Hrun).
  unfold σ1. rewrite Hrun. clear σ1.
  destruct (restoreDirectory_final j h σ Hh) as (_ & _ & _ & _ & _ & _ & Hsel).
  destruct (restoreDirectory_state j h σ Hh) as [_ Henv].
  rewrite <- Hp in *. split_and!; [done|..].
  - intros He Hpar. apply (fresh_not_listed (selectedFilepath (state σ)));
      rewrite ?Henv; try done.
    rewrite (restoreDirectory_Some _ _ _ Hh). apply load_fresh.
  - apply changeSelectedDirectory_enters; rewrite ?Henv; try done.
    by eapply wf_restoreDirectory.
Qed.

(** ** The filter across a navigation *)

(** A navigation that goes, or an admissible move in the history. *)
Inductive navigated : Store → Store → Prop :=
| navigated_visit d force σ :
    cursor_ok (state σ) → d ≠ directory σ ∨ force = true →
    navigated σ (final (changeDirectory d force σ))
| navigated_traverse (i : Intent) σ :
    wf σ → traversal i = true → admissible i (state σ) →
    navigated σ (final (run i σ)).

(** Every navigation ends in the [load] of a restored record. *)
Lemma navigated_loads σ σ' :
  navigated σ σ' →
  ∃ j h σ0,
    σ' = final (load (restored j h σ0)) ∧ queryInput (state σ0) = queryInput (state σ).
Proof.
  destruct 1 as [d force σ Hc Hgo|i σ Hwf Ht Hadm].
  - eexists _, _, (pushed d σ). by rewrite changeDirectory_run.
  - destruct (traversal_restores i σ Hwf Ht Hadm) as (j & h & Hh & ->).
    exists j, h, σ. by rewrite (restoreDirectory_Some _ _ _ Hh).
Qed.

(** C31: a navigation clears the filter and keeps what is typed.  After a
    [changeDirectory] that goes, or an admissible [backDirectory] or
    [forwardDirectory], the committed query is empty, so every item is
    shown, and the directory input is the committed directory; the query
    input is the one of before, so a [search] without further typing
    applies the old text to the new directory. *)
Theorem navigation_resets_filter σ σ' :
  navigated σ σ' →
  query (state σ') = "" ∧
  filteredItems (state σ') = items (state σ') ∧
  directoryInput (state σ') = directory σ' ∧
  queryInput (state σ') = queryInput (state σ) ∧
  query (state (final (search σ'))) = queryInput (state σ).
Proof.
  intros (j & h & σ0 & -> & Hq)%navigated_loads.
  assert (query (state (final (load (restored j h σ0)))) = "") as Hquery
    by (by rewrite load_state).
  split_and!; [done | by apply filteredItems_no_query
              | by rewrite load_state, load_directory | by rewrite load_state |].
  simpl. by rewrite load_state.
Qed.

(** The explorer is fresh once it has started. *)
Lemma initDirectory_fresh σ : cursor_ok (state σ) → fresh (final (initDirectory σ)).
Proof.
  intros Hc. unfold initDirectory, bind, gets.
  rewrite changeDirectory_run; [apply load_fresh | done | by right].
Qed.

End Activation.

(** ** The composition at the concrete environment *)

Lemma store_a_ready : inv store_a ∧ FileContract (env store_a) ∧ fresh store_a.
Proof.
  split_and!; [apply inv_store_a | | apply initDirectory_fresh; by vm_compute].
  rewrite <- store_a_run.
  by apply (stable_run (λ σ, FileContract (env σ))); [apply inv_init | | apply _].
Qed.

(** The second row of [/a] is the directory [/a/b]. *)
Definition row_b : Entry.t := File.toObject (mkFile "/a" "b" true false 0 200).
Definition row_x : Entry.t := File.toObject (mkFile "/a" "x.png" false true 10 300).

Lemma enter_selected_witness :
  filteredItems (state store_a) !! 1%nat = Some row_b ∧
  directory (final (changeSelectedDirectory (final (selectIndex (Z.of_nat 1) store_a)))) =
    Some "/a/b".
Proof.
  destruct store_a_ready as (Hinv & He & Hf).
  assert (filteredItems (state store_a) !! 1%nat = Some row_b) as Hi by (by vm_compute).
  split; [exact Hi|].
  exact (proj1 (proj2 (enter_selected 1 row_b store_a Hinv He Hf Hi eq_refl))).
Defined.

Lemma action_listed_witness :
  row_x ∈ items (state store_a) ∧
  ∃ files,
    listFiles (env store_a) (Some "/a") false = Some files ∧
    Entry.path row_x ∈ File.path <$> files ∧
    action (Entry.path row_x) store_a =
      Done tt (with_trace (ViewerShow (File.path <$> files) (Some (Entry.path row_x)))
                 store_a).
Proof.
  destruct store_a_ready as (Hinv & He & Hf).
  assert (row_x ∈ items (state store_a)) as Hin
    by (apply (bool_decide_unpack _); by vm_compute).
  assert (directory store_a = Some "/a") as Hd by (by vm_compute).
  split; [exact Hin|]. exact (action_listed row_x "/a" store_a He Hf Hd Hin).
Defined.

(** After the tour the explorer is back at [/a]; the row of [/a/b] is
    selected there. *)
Definition store_a_selected : Store := run_all (tour ++ [SelectIndex 1]) store0.

Lemma traversal_keeps_selection_witness :
  selectedFilepath (state store_a_selected) = "/a/b" ∧
  directory (final (changeSelectedDirectory
                      (final (run (ForwardDirectory 1) store_a_selected)))) = Some "/a/b".
Proof.
  assert (admissible_all (tour ++ [SelectIndex 1]) store0) as Hadm by (vm_compute; done).
  assert (inv store_a_selected) as Hinv by (apply inv_run_all; [exact Hadm | apply inv_init]).
  assert (admissible (ForwardDirectory 1) (state store_a_selected)) as Hf
    by (vm_compute; done).
  assert (selectedFilepath (state store_a_selected) = "/a/b") as Hp
    by (vm_compute; reflexivity).
  assert (File.isDirectory (new_File (env store_a_selected) (Some "/a/b")) = true) as Hd
    by (vm_compute; reflexivity).
  split; [exact Hp|].
  exact (proj2 (proj2 (traversal_keeps_selection (ForwardDirectory 1) "/a/b"
                         store_a_selected Hinv eq_refl Hf Hp ltac:(done) Hd))).
Defined.

(** The forward step of the witness leaves [/a] for [/a/c], where no row
    is selected, and entering the selection then commits [/a/b]. *)
Example stale_selection_entered :
  let σ1 := final (run (ForwardDirectory 1) store_a_selected) in
  directory σ1 = Some "/a/c" ∧ selectedIndex (state σ1) = -1 ∧
  directory (final (changeSelectedDirectory σ1)) = Some "/a/b".
Proof. by vm_compute. Qed.

(** Activating the image [/a/x.png] hands the viewer every child of [/a]:
    the two directories and the text file with the two images. *)
Example viewer_gets_every_child :
  action "/a/x.png" store_a =
    Done tt
      (with_trace
         (ViewerShow ["/a/c"; "/a/x.png"; "/a/notes.txt"; "/a/b"; "/a/Img2.JPG"]
            (Some "/a/x.png")) store_a).
Proof. by vm_compute. Qed.

(** The query "img" committed in [/a/b], then a visit of [/a/c]: the filter
    is off, the text is still in the input, and [search] applies it
    again. *)
Lemma navigation_resets_filter_witness :
  let σ' := final (changeDirectory (Some "/a/c") false store_b_img) in
  query (state store_b_img) = "img" ∧
  navigated store_b_img σ' ∧
  query (state σ') = "" ∧
  query (state (final (search σ'))) = "img".
Proof.
  intros σ'.
  assert (navigated store_b_img σ') as Hn.
  { refine (navigated_visit (Some "/a/c") false store_b_img _ _); [by vm_compute|].
    left. by vm_compute. }
  destruct (navigation_resets_filter store_b_img σ' Hn) as (Hq & _ & _ & _ & Hs).
  split_and!; [by vm_compute | exact Hn | exact Hq | exact Hs].
Defined.
