(* ===== verification/Ordered.v ===== *)
(** * The table is always in order

    [sort] (source lines 149-169) runs at the end of every [load] and right
    after [changeSortKey] commits the new option; no other action writes
    [items] or [sortOptions].  So in every store the explorer reaches the
    items are in the order of the comparator for the option the getter
    [sortOption] returns: the view never shows a listing that is out of
    order for the column it marks as sorted.  [ordered] is an invariant of
    the class [Stable] of [Moves.v]. *)

From stdpp Require Import base tactics list strings gmap relations sorting.
From Stdlib Require Import ZArith Lia.
From S2P Require Import Prelude JsString Act Model SortEngine Actions Fixture Listing.
From S2P Require Import FileContract HistoryStack Explorer Moves Typed Activation Sorting.

#[local] Open Scope Z_scope.
#[local] Open Scope act_scope.

(** The items are sorted by the comparator of the getter's option. *)
Definition ordered (σ : Store) : Prop :=
  StronglySorted (cmp_le (compareItems (sortOption (state σ)))) (items (state σ)).

Section Ordered.
Context `{!ArraySort}.
Implicit Types (σ : Store).

(** [ordered] reads the items and the sort options. *)
Lemma ordered_frame σ σ' :
  items (state σ') = items (state σ) → sortOptions (state σ') = sortOptions (state σ) →
  ordered σ → ordered σ'.
Proof. unfold ordered, sortOption. by intros -> ->. Qed.

Lemma sort_ordered σ : ordered (final (sort σ)).
Proof. rewrite sort_run. apply array_sort_sorted, compareItems_consistent. Qed.

Lemma load_ordered σ : ordered (final (load σ)).
Proof.
  unfold ordered. rewrite load_items. unfold sortOption. rewrite load_state. simpl.
  apply array_sort_sorted, compareItems_consistent.
Qed.

#[export] Instance ordered_stable : Stable ordered.
Proof.
  intros σ σ' Hm Ho.
  move_cases Hm;
    try (by apply (ordered_frame σ)).
  - destruct Hbk; by apply (ordered_frame σ).
  - apply sort_ordered.
  - apply load_ordered.
  - rewrite (restoreDirectory_Some _ _ _ Hh). apply load_ordered.
  - apply sort_ordered.
Qed.

Lemma reachable_ordered_items dir e σ : reachable dir e σ → ordered σ.
Proof.
  apply (stable_reachable ordered); [intros e' σ'; by apply ordered_frame | constructor].
Qed.

(** C15: the listing is in order in every store the explorer reaches.
    After any sequence of admissible intents, watch events and changes of
    the environment, [items] is sorted by the comparator of the option the
    getter [sortOption] returns: each entry compares at most equal to
    every entry after it.  When that option is the default the names
    ascend, and when it is [mtime] without [descending] the newest entry
    comes first. *)
Theorem reachable_ordered dir e σ :
  reachable dir e σ →
  ordered σ ∧
  (sortOption (state σ) = default_sortOption →
   StronglySorted (λ a b, js_str_gt (Entry.name a) (Entry.name b) = false)
     (items (state σ))) ∧
  (sortOption (state σ) = {| SortOption.key := "mtime"; SortOption.descending := false |} →
   StronglySorted (λ a b, Entry.mtime b ≤ Entry.mtime a) (items (state σ))).
Proof.
  intros Hr. pose proof (reachable_ordered_items dir e σ Hr) as Ho.
  unfold ordered in Ho.
  split_and!; [done|intros Heq; rewrite Heq in Ho..];
    [by apply sorted_name_ascending | by apply sorted_mtime_newest_first].
Qed.

(** C16: the table is the sorted listing, whatever sorts it.  In a
    reachable store whose items are fresh, with a filesystem that keeps
    the contract of the File utility, [items] is the listing of the
    committed directory (its directories and images) sorted by the
    getter's option, and it is what any implementation of
    [Array.prototype.sort] returns on that listing. *)
Theorem table_determined dir e σ :
  reachable dir e σ → FileContract (env σ) → fresh σ →
  ∀ S' : ArraySort,
    items (state σ) =
      @array_sort S' _ (compareItems (sortOption (state σ))) (listed σ).
Proof.
  intros Hr He Hf S'. symmetry.
  apply (array_sort_characterised (H:=S')); [by apply listed_names | done |].
  exact (reachable_ordered_items dir e σ Hr).
Qed.

End Ordered.

(** ** The order after the tour *)

Lemma table_determined_witness :
  reachable (Some "/a") env0 store_a ∧
  items (state store_a) =
    array_sort (ArraySort:=merge_ArraySort)
      (compareItems (sortOption (state store_a))) (listed store_a).
Proof.
  assert (reachable (Some "/a") env0 store_a) as Hr.
  { rewrite <- store_a_run. apply rtc_once. by apply step_intent. }
  destruct store_a_ready as (_ & He & Hf).
  split; [exact Hr | exact (table_determined (Some "/a") env0 _ Hr He Hf merge_ArraySort)].
Defined.

Lemma reachable_ordered_witness :
  reachable (Some "/a") env0 (run_all tour store0) ∧
  Entry.name <$> items (state (run_all tour store0)) = ["Img2.JPG"; "b"; "c"; "x.png"] ∧
  ordered (run_all tour store0).
Proof.
  assert (reachable (Some "/a") env0 (run_all tour store0)) as Hr
    by exact (rtc_run_all tour store0 tour_admissible).
  split_and!; [exact Hr | by vm_compute
              | exact (proj1 (reachable_ordered (Some "/a") env0 _ Hr))].
Defined.
