(* ===== verification/Selection.v ===== *)
(** * The selection as a cursor

    The five selection actions (source lines 110-128) move one number: the
    position [selectedIndex] of the selected path among the filtered
    entries, -1 when the selection is none of them.  [Cursor] is that
    number with its moves written as arithmetic on the index; the
    theorems show that, on entries with distinct paths, any sequence of
    selection actions moves [selectedIndex] as the cursor prescribes and
    changes nothing of the store but the selected path. *)

From stdpp Require Import base tactics list strings gmap relations.
From Stdlib Require Import ZArith Lia.
From S2P Require Import Prelude JsString Act Model SortEngine Actions Fixture Listing.
From S2P Require Import HistoryStack Explorer.

#[local] Open Scope Z_scope.
#[local] Open Scope act_scope.

(** ** The cursor *)

Module Cursor.

(** What the keyboard and the rows of the table ask for. *)
Inductive key := First | Last | Previous | Next | At (index : Z).

(** The index a key aims at, from position [i] among [n] entries. *)
Definition target (n i : Z) (k : key) : Z :=
  match k with
  | First => 0
  | Last => n - 1
  | Previous => i - 1
  | Next => i + 1
  | At index => index
  end.

(** A target outside the entries leaves the cursor where it is. *)
Definition move (n i : Z) (k : key) : Z :=
  let j := target n i k in
  if (j <? 0) || (j >? n - 1) then i else j.

Definition moves (n : Z) (i : Z) (ks : list key) : Z := foldl (move n) i ks.

#[export] Instance key_eq_dec : EqDecision key.
Proof. solve_decision. Defined.

(** The cursor stays among the entries once it is there, and stays at
    none when there are no entries. *)
Lemma move_range n i k : -1 ≤ i < n → -1 ≤ move n i k < n.
Proof. unfold move. case_Z_tests; simpl; lia. Qed.

Lemma moves_range n i ks : -1 ≤ i < n → -1 ≤ moves n i ks < n.
Proof.
  revert i. induction ks as [|k ks IH]; intros i Hi; [done|].
  by apply IH, move_range.
Qed.

(** [Next] from the first entry, [k] times: entry [k], or the last one. *)
Lemma moves_next n (k : nat) :
  0 < n → moves n 0 (replicate k Next) = Z.min (Z.of_nat k) (n - 1).
Proof.
  intros Hn. unfold moves.
  assert (∀ i, 0 ≤ i < n →
    foldl (move n) i (replicate k Next) = Z.min (i + Z.of_nat k) (n - 1)) as H.
  { induction k as [|k IH]; intros i Hi; simpl; [lia|].
    rewrite IH by (unfold move; simpl; case_Z_tests; simpl; lia).
    unfold move. simpl. case_Z_tests; simpl; lia. }
  rewrite H by lia. lia.
Qed.

(** [Previous] undoes [Next] between two entries. *)
Lemma moves_next_previous n i : 0 ≤ i < n - 1 → moves n i [Next; Previous] = i.
Proof.
  intros Hi. unfold moves. simpl.
  replace (move n i Next) with (i + 1) by (unfold move; simpl; case_Z_tests; simpl; lia).
  unfold move. simpl. case_Z_tests; simpl; lia.
Qed.

End Cursor.

(** The action behind each key. *)
Definition key_intent (k : Cursor.key) : Intent :=
  match k with
  | Cursor.First => SelectFirst
  | Cursor.Last => SelectLast
  | Cursor.Previous => SelectPrevious
  | Cursor.Next => SelectNext
  | Cursor.At index => SelectIndex index
  end.

(** The store with another selected path. *)
Definition reselected (σ σ' : Store) : Prop :=
  σ' = with_state (setSelectedFilepath (selectedFilepath (state σ'))) σ.

Section Selection.
Context `{!ArraySort}.
Implicit Types (σ : Store) (k : Cursor.key) (ks : list Cursor.key).

Lemma reselected_refl σ : reselected σ σ.
Proof. unfold reselected. by destruct σ as [[]]. Qed.

Lemma reselected_select p σ : reselected σ (with_state (setSelectedFilepath p) σ).
Proof. done. Qed.

Lemma reselected_trans σ1 σ2 σ3 : reselected σ1 σ2 → reselected σ2 σ3 → reselected σ1 σ3.
Proof. unfold reselected. intros -> ->. done. Qed.

Lemma reselected_filteredItems σ σ' :
  reselected σ σ' → filteredItems (state σ') = filteredItems (state σ).
Proof. by intros ->. Qed.

(** Every key is [selectIndex] at its target. *)
Lemma key_selectIndex k σ :
  run (key_intent k) σ =
    selectIndex
      (Cursor.target (Z.of_nat (length (filteredItems (state σ))))
         (selectedIndex (state σ)) k) σ.
Proof. by destruct k. Qed.

(** One key: the index moves as the cursor, the store is reselected. *)
Lemma key_refines k σ :
  NoDup (Entry.path <$> filteredItems (state σ)) →
  let σ' := final (run (key_intent k) σ) in
  selectedIndex (state σ') =
    Cursor.move (Z.of_nat (length (filteredItems (state σ))))
      (selectedIndex (state σ)) k ∧
  reselected σ σ'.
Proof.
  intros Hnd. simpl. rewrite key_selectIndex. unfold Cursor.move.
  set (j := Cursor.target _ _ k).
  destruct (js_nth (filteredItems (state σ)) j) as [file|] eqn:Hj.
  - apply js_nth_lt in Hj as Hr. case_Z_tests; simpl; try lia.
    split; [|rewrite selectIndex_run, Hj; apply reselected_select].
    rewrite <- (Z2Nat.id j) by lia. apply selectedIndex_selected; [done|lia].
  - rewrite selectIndex_skip by done. apply js_nth_None in Hj.
    case_Z_tests; simpl; try lia; split; by try apply reselected_refl.
Qed.

(** The intents of a sequence of keys. *)
Definition keys_run ks (σ : Store) : Store := run_all (key_intent <$> ks) σ.

Lemma keys_run_cons k ks σ :
  keys_run (k :: ks) σ = keys_run ks (final (run (key_intent k) σ)).
Proof. done. Qed.

(** A sequence of keys: the index moves as the cursor, the store is
    reselected. *)
Lemma keys_refine ks σ :
  NoDup (Entry.path <$> filteredItems (state σ)) →
  selectedIndex (state (keys_run ks σ)) =
    Cursor.moves (Z.of_nat (length (filteredItems (state σ))))
      (selectedIndex (state σ)) ks ∧
  reselected σ (keys_run ks σ).
Proof.
  revert σ. induction ks as [|k ks IH]; intros σ Hnd; [by split; [|apply reselected_refl]|].
  destruct (key_refines k σ Hnd) as [Hk Hr]. rewrite keys_run_cons.
  pose proof (reselected_filteredItems _ _ Hr) as Hf.
  destruct (IH (final (run (key_intent k) σ))) as [Hks Hrs]; [by rewrite Hf|].
  simpl in *. rewrite Hks, Hk, Hf. split; [done | by eapply reselected_trans].
Qed.

(** C36: the selection actions implement the cursor.  On filtered entries
    with distinct paths, after any sequence of [selectFirst], [selectLast],
    [selectPrevious], [selectNext] and [selectIndex] the getter
    [selectedIndex] is where the moves of [Cursor] put it, from the index
    it had before; the selected path is then the path of the entry at that
    index, and the store differs from the one before in the selected path
    only. *)
Theorem selection_refines ks σ :
  NoDup (Entry.path <$> filteredItems (state σ)) →
  let l := filteredItems (state σ) in
  let σ' := keys_run ks σ in
  let i := Cursor.moves (Z.of_nat (length l)) (selectedIndex (state σ)) ks in
  selectedIndex (state σ') = i ∧
  (0 ≤ i → Entry.path <$> l !! Z.to_nat i = Some (selectedFilepath (state σ'))) ∧
  reselected σ σ'.
Proof.
  intros Hnd l σ' i. destruct (keys_refine ks σ Hnd) as [Hi Hr].
  split_and!; [done| |done]. intros Hpos. unfold l.
  rewrite <- (reselected_filteredItems _ _ Hr). apply selectedIndex_path.
  rewrite Z2Nat.id by done. exact Hi.
Qed.

(** Walking down from the first entry: [k] times [selectNext] after
    [selectFirst] selects entry [k], and the last entry once [k] is
    beyond it. *)
Corollary walk_down (k : nat) file σ :
  NoDup (Entry.path <$> filteredItems (state σ)) →
  let l := filteredItems (state σ) in
  l !! (k `min` (length l - 1))%nat = Some file →
  selectedFilepath (state (keys_run (Cursor.First :: replicate k Cursor.Next) σ)) =
    Entry.path file.
Proof.
  intros Hnd l Hf. apply lookup_lt_Some in Hf as Hlt.
  destruct (keys_refine (Cursor.First :: replicate k Cursor.Next) σ Hnd) as [Hi Hr].
  set (σ' := keys_run _ σ) in *. fold l in Hi.
  assert (selectedIndex (state σ') = Z.of_nat (k `min` (length l - 1))) as Hi'.
  { rewrite Hi. unfold Cursor.moves. simpl.
    replace (Cursor.move _ _ Cursor.First) with 0
      by (unfold Cursor.move; simpl; case_Z_tests; simpl; lia).
    fold (Cursor.moves (Z.of_nat (length l)) 0 (replicate k Cursor.Next)).
    rewrite Cursor.moves_next by lia. lia. }
  apply selectedIndex_path in Hi'.
  rewrite (reselected_filteredItems _ _ Hr) in Hi'. fold l in Hi'.
  rewrite Hf in Hi'. by simplify_eq/=.
Qed.

End Selection.

(** ** The cursor on the listing of [/a/b] *)

(** Two entries with one path: the index stays at the first of them, and
    [selectNext] never gets past the second. *)
Example walk_stops_at_duplicate :
  let twin name := Entry.mk "/a/b/twin" name 0 0 false true in
  let σ := with_state (setItems [twin "one"; twin "two"; twin "three"]) store_ab in
  selectedIndex (state (keys_run (Cursor.First :: replicate 5 Cursor.Next) σ)) = 0.
Proof. by vm_compute. Qed.

Lemma selection_refines_witness :
  NoDup (Entry.path <$> filteredItems (state store_ab)) ∧
  selectedIndex
    (state (keys_run [Cursor.Last; Cursor.Next; Cursor.Previous; Cursor.At 7] store_ab)) = 1.
Proof.
  split; [apply store_b_paths_NoDup|].
  exact (proj1 (selection_refines
                  [Cursor.Last; Cursor.Next; Cursor.Previous; Cursor.At 7] store_ab
                  store_b_paths_NoDup)).
Defined.
