(* ===== verification/Bounds.v ===== *)
(** * The numbers of the store

    The module computes with JavaScript numbers: the cursor
    [historyIndex], the length of [histories], and, for the watcher, the
    count of the watches opened so far.  The model keeps them as unbounded
    integers.  This file shows that one transition of the explorer adds at
    most one record (source lines 48-54), opens at most one watch (line 88)
    and stores at most one sort option (lines 218-223), so that after [n]
    transitions every one of these numbers is at most [n]: in a run shorter
    than 2^53 transitions the integers of the model are the numbers of the
    program exactly.  In the other direction, [persists] states what no
    transition takes back: the moves of [Moves.v] keep it, so it holds
    between any two stores of a run. *)

From stdpp Require Import base tactics list strings gmap relations.
From Stdlib Require Import ZArith Lia.
From S2P Require Import Prelude JsString Act Model SortEngine Actions Fixture Listing.
From S2P Require Import HistoryStack Explorer Moves.

#[local] Open Scope Z_scope.
#[local] Open Scope act_scope.

(** [Number.isSafeInteger]: the integers a double represents exactly, with
    exact sums and differences. *)
Definition safe_integer (z : Z) : Prop := - 2 ^ 53 < z < 2 ^ 53.

#[export] Instance safe_integer_dec z : Decision (safe_integer z).
Proof. unfold safe_integer. apply _. Defined.

(** The counters of a store. *)
Definition records (σ : Store) : nat := length (histories (state σ)).
Definition preferences (σ : Store) : nat := size (sortOptions (state σ)).

(** What one transition adds: at most one record, at most one watch, and
    at most one sort option, stored under the committed directory. *)
Record grows (σ σ' : Store) : Prop := {
  grows_records : (records σ' ≤ S (records σ))%nat;
  grows_watch : (next_watch σ' ≤ S (next_watch σ))%nat;
  grows_options :
    sortOptions (state σ') = sortOptions (state σ) ∨
    ∃ o, sortOptions (state σ') = <[js_to_string (directory σ) := o]> (sortOptions (state σ))
}.

(** Every counter is at most [n]. *)
Record within (n : nat) (σ : Store) : Prop := {
  within_records : (records σ ≤ n)%nat;
  within_watch : (next_watch σ ≤ n)%nat;
  within_preferences : (preferences σ ≤ n)%nat
}.

(** What no transition takes back: a cursor on a record, the directories
    with a stored sort option, the handles given out. *)
Record persists (σ σ' : Store) : Prop := {
  persists_placed : 0 ≤ historyIndex (state σ) → 0 ≤ historyIndex (state σ');
  persists_options : dom (sortOptions (state σ)) ⊆ dom (sortOptions (state σ'));
  persists_watch : (next_watch σ ≤ next_watch σ')%nat
}.

#[export] Instance persists_preorder : PreOrder persists.
Proof.
  split; [by intros σ|]. intros σ1 σ2 σ3 [] []. split; [tauto | set_solver | lia].
Qed.

Lemma persists_frame σ σ' :
  historyIndex (state σ') = historyIndex (state σ) →
  sortOptions (state σ') = sortOptions (state σ) → next_watch σ' = next_watch σ →
  persists σ σ'.
Proof. intros Hi Ho Hw. split; by rewrite ?Hi, ?Ho, ?Hw. Qed.

Lemma grows_refl σ : grows σ σ.
Proof. split; [lia..|by left]. Qed.

Lemma grows_preferences σ σ' : grows σ σ' → (preferences σ' ≤ S (preferences σ))%nat.
Proof.
  intros [_ _ [Ho|[o Ho]]]; unfold preferences; rewrite Ho; [lia|].
  rewrite map_size_insert. destruct (_ !! _); simpl; lia.
Qed.

(** The counters read the records, the watch count and the options. *)
Lemma grows_frame σ σ' :
  histories (state σ') = histories (state σ) → next_watch σ' = next_watch σ →
  sortOptions (state σ') = sortOptions (state σ) → grows σ σ'.
Proof. intros Hh Hw Ho. split; [unfold records; rewrite ?Hh, ?Hw; lia..|by left]. Qed.

Lemma within_grows n σ σ' : within n σ → grows σ σ' → within (S n) σ'.
Proof.
  intros [] Hg. pose proof (grows_preferences _ _ Hg). destruct Hg. split; lia.
Qed.

Section Bounds.
Context `{!ArraySort}.
Implicit Types (σ : Store) (i : Z) (d : option string).

(** ** One action *)

(** A reload opens at most one watch and keeps the other counters. *)
Lemma load_counters σ :
  let σ' := final (load σ) in
  records σ' = records σ ∧ sortOptions (state σ') = sortOptions (state σ) ∧
  (next_watch σ' ≤ S (next_watch σ))%nat.
Proof.
  destruct (load_watch σ) as [_ Hw].
  split_and!; unfold records; [by rewrite load_histories | by rewrite load_state |].
  destruct (fs_watch_ok _ _); destruct Hw as (_ & _ & ->); lia.
Qed.

Lemma load_grows σ : grows σ (final (load σ)).
Proof. destruct (load_counters σ) as (Hr & Hp & Hw). split; [lia..|by left]. Qed.

Lemma restoreDirectory_counters i h σ :
  js_nth (histories (state σ)) i = Some h →
  let σ' := final (restoreDirectory i σ) in
  records σ' = records σ ∧ sortOptions (state σ') = sortOptions (state σ) ∧
  (next_watch σ' ≤ S (next_watch σ))%nat.
Proof.
  intros Hh. rewrite (restoreDirectory_Some _ _ _ Hh).
  destruct (load_counters (restored i h σ)) as (Hr & Hp & Hw).
  split_and!; [exact Hr | exact Hp | exact Hw].
Qed.

(** The push keeps the records up to the cursor and adds one. *)
Lemma pushed_records d σ :
  cursor_ok (state σ) → (records (pushed d σ) ≤ S (records σ))%nat.
Proof.
  intros Hc. unfold records. rewrite pushed_histories by done.
  rewrite length_app, length_take. simpl. lia.
Qed.

Lemma changeDirectory_grows d force σ :
  cursor_ok (state σ) → grows σ (final (changeDirectory d force σ)).
Proof.
  intros Hc.
  destruct force;
    [|destruct (decide (d = directory σ)) as [->|Hne];
      [rewrite changeDirectory_same; apply grows_refl|]];
    (rewrite changeDirectory_go by eauto;
     destruct (restoreDirectory_counters _ _ (pushed d σ) (pushed_nth d σ Hc))
       as (Hr & Hp & Hw);
     pose proof (pushed_records d σ Hc);
     split; [lia | exact Hw | left; by rewrite Hp]).
Qed.

Lemma restoreDirectory_grows i h σ :
  js_nth (histories (state σ)) i = Some h → grows σ (final (restoreDirectory i σ)).
Proof.
  intros Hh. destruct (restoreDirectory_counters i h σ Hh) as (Hr & Hp & Hw).
  split; [lia..|by left].
Qed.

Lemma showViewer_grows filepath σ : grows σ (final (showViewer filepath σ)).
Proof.
  unfold showViewer, bind, gets, emit, modify, throw. simpl.
  destruct (File.isDirectory _); destruct (listFiles _ _ _); by apply grows_frame.
Qed.

Lemma changeSortKey_grows sortKey σ : grows σ (final (changeSortKey sortKey σ)).
Proof. split; unfold records; simpl; [lia..|]. right. by eexists. Qed.

Lemma setScrollTop_grows v σ :
  0 ≤ historyIndex (state σ) → cursor_ok (state σ) → grows σ (final (setScrollTop v σ)).
Proof.
  intros Hi [_ Hhi].
  assert (is_Some (js_nth (histories (state σ)) (historyIndex (state σ)))) as [h Hh]
    by (apply js_nth_in_range; lia).
  destruct (setScrollTop_final v h σ Hh) as (Hhs & _).
  split; unfold records;
    [rewrite Hhs, length_insert; lia | rewrite setScrollTop_run; simpl; lia
    | left; by rewrite setScrollTop_run].
Qed.

Lemma selectIndex_grows index σ : grows σ (final (selectIndex index σ)).
Proof. rewrite selectIndex_run. simpl. by destruct (js_nth _ _); apply grows_frame. Qed.

Lemma openDirectory_grows σ : grows σ (final (openDirectory σ)).
Proof. rewrite openDirectory_reports. simpl. by destruct (openItem _ _); apply grows_frame. Qed.

(** ** What the moves keep *)

Lemma load_persists σ : persists σ (final (load σ)).
Proof.
  destruct (load_watch σ) as [_ Hw].
  split; [by rewrite load_historyIndex | by rewrite load_state |].
  destruct (fs_watch_ok _ _); destruct Hw as (_ & _ & ->); lia.
Qed.

Lemma move_persists σ σ' : move σ σ' → persists σ σ'.
Proof.
  intros Hm. move_cases Hm; try (by apply persists_frame).
  - destruct Hbk; by apply persists_frame.
  - apply load_persists.
  - destruct Hc as [? ?]. split; simpl; [lia | done..].
  - rewrite (restoreDirectory_Some _ _ _ Hh). js_bounds.
    etrans; [|apply load_persists]. split; simpl; [lia | done..].
  - split; simpl; [done | rewrite dom_insert; set_solver | done].
Qed.

#[export] Instance persists_stable σ0 : Stable (persists σ0).
Proof. intros σ σ' Hm HI. etrans; [done | by apply move_persists]. Qed.

(** Nothing is reset along a run. *)
Lemma steps_persist σ σ' : inv σ → rtc step σ σ' → persists σ σ'.
Proof.
  intros Hinv Hr.
  eapply proj2, (steps_ind step (persists σ) σ); [done | done | done | | done].
  intros σ1 σ2 Hs Hi HI. apply (stable_step (persists σ) σ1 σ2); [|done..].
  intros e _. etrans; [done | by apply persists_frame].
Qed.

(** ** One transition *)

Lemma run_grows (i : Intent) σ :
  wf σ → admissible i (state σ) → grows σ (final (run i σ)).
Proof.
  intros Hwf Hadm. pose proof (wf_cursor_ok _ Hwf) as Hc.
  destruct (traversal i) eqn:Ht.
  { destruct (traversal_restores i σ Hwf Ht Hadm) as (j & h & Hh & ->).
    by eapply restoreDirectory_grows. }
  destruct i; simplify_eq/=;
    try (by unfold initDirectory, changeParentDirectory, changeHomeDirectory,
               changeSelectedDirectory, action, when, bind, gets; simpl;
            repeat case_match;
            first [ by apply changeDirectory_grows | apply showViewer_grows
                  | apply grows_refl ]);
    first [ apply selectIndex_grows | apply openDirectory_grows | apply showViewer_grows
          | apply changeSortKey_grows | by apply setScrollTop_grows
          | by apply grows_frame ].
Qed.

Lemma step_grows σ σ' : inv σ → step σ σ' → grows σ σ'.
Proof.
  intros [Hwf _]. destruct 1 as [i σ Hadm|h σ Hlive|e σ];
    [by apply run_grows | apply load_grows | by apply grows_frame].
Qed.

(** [n] transitions from a store within [k]. *)
Lemma nsteps_within n k σ σ' :
  nsteps step n σ σ' → inv σ → within k σ → inv σ' ∧ within (k + n) σ'.
Proof.
  intros Hn. revert k. induction Hn as [σ|n σ1 σ2 σ3 Hs _ IH]; intros k Hinv Hk.
  - by rewrite Nat.add_0_r.
  - rewrite Nat.add_succ_r.
    apply (IH (S k)); [by apply (step_inv σ1) | by eapply within_grows, step_grows].
Qed.

(** C19: the counters of the store grow with the transitions, and nothing
    is reset.  After [n] transitions of the explorer from its initial
    state, [histories] holds at most [n] records, the cursor is below [n],
    at most [n] watches have been opened and at most [n] sort options are
    stored; in a run of fewer than 2^53 transitions the index of the next
    record and of the last one are therefore safe integers, the numbers
    the program computes them as.  Whatever transitions follow, [initDirectory]
    among them, a cursor that is on a record stays on one, every directory
    with a stored sort option keeps one, and no handle of a watch is given
    out again. *)
Theorem counters_bounded (n : nat) dir e σ :
  nsteps step n (init_store dir e) σ →
  within n σ ∧ -1 ≤ historyIndex (state σ) < Z.of_nat n ∧
  (Z.of_nat n < 2 ^ 53 →
   safe_integer (historyIndex (state σ) + 1) ∧
   safe_integer (Z.of_nat (length (histories (state σ))) - 1)) ∧
  ∀ σ', rtc step σ σ' → persists σ σ'.
Proof.
  intros Hn.
  destruct (nsteps_within n 0 _ _ Hn (inv_init dir e)) as [Hinv Hin]; [by split|].
  destruct Hin as [Hr Hw Hp]. pose proof (wf_cursor_ok _ (proj1 Hinv)) as [Hlo Hhi].
  unfold records in Hr. split_and!; [by split|lia..| |intros σ'; by apply steps_persist].
  intros Hsafe. unfold safe_integer. lia.
Qed.

(** The intents of a list, one transition each. *)
Lemma nsteps_run_all l σ :
  admissible_all l σ → nsteps step (length l) σ (run_all l σ).
Proof.
  revert σ. induction l as [|i l IH]; intros σ; simpl; [constructor|].
  intros [Hi Hl]. eapply nsteps_l; [by apply step_intent | by apply IH].
Qed.

End Bounds.

(** ** The counters after the tour *)

(** Every transition of the tour opens a watch, so the bound on the
    watches is attained; the transition that goes back adds no record. *)
Lemma counters_bounded_witness :
  admissible_all tour store0 ∧
  within 4 (run_all tour store0) ∧ records (run_all tour store0) = 3%nat ∧
  next_watch (run_all tour store0) = 4%nat.
Proof.
  pose proof tour_admissible as Hadm.
  split_and!; [exact Hadm| |by vm_compute..].
  exact (proj1 (counters_bounded 4 (Some "/a") env0 _ (nsteps_run_all tour store0 Hadm))).
Defined.
