(* ===== verification/Preference.v ===== *)
(** * The sort preference over the runs

    [changeSortKey] stores the clicked option under the committed
    directory (source line 146, mutation lines 218-223); the getter
    [sortOption] reads the option stored under the string of
    [state.directory] (line 242), a property the module state does not
    have, so the key it reads is "undefined".  This file follows the two
    keys over the runs of the explorer.  One transition writes at most one
    option, under the committed directory ([Bounds.v]); so as long as the
    explorer is in a directory whose path is not the string "undefined",
    nothing is stored under the key the getter reads.  The getter then
    returns the default in every store, and the table is sorted by name,
    ascending, whatever column the user clicks. *)

From stdpp Require Import base tactics list strings gmap relations sorting.
From Stdlib Require Import ZArith Lia.
From S2P Require Import Prelude JsString Act Model SortEngine Actions Fixture Sorting Listing.
From S2P Require Import HistoryStack Explorer Moves Ordered Bounds.

#[local] Open Scope Z_scope.
#[local] Open Scope act_scope.

(** The committed directory is a string other than "undefined". *)
Definition named (σ : Store) : Prop := js_to_string (directory σ) ≠ "undefined".

#[export] Instance named_dec σ : Decision (named σ).
Proof. unfold named. apply _. Defined.

(** Nothing is stored under the key the getter reads. *)
Definition unread (σ : Store) : Prop := sortOptions (state σ) !! "undefined" = None.

Section Preference.
Context `{!ArraySort}.
Implicit Types (σ : Store).

(** A transition from a store whose directory has a name. *)
Definition named_step (σ σ' : Store) : Prop := step σ σ' ∧ named σ.

Lemma unread_default σ : unread σ → sortOption (state σ) = default_sortOption.
Proof. apply sortOption_default. Qed.

Lemma unread_step σ σ' : named_step σ σ' → inv σ → unread σ → unread σ'.
Proof.
  intros [Hs Hn] Hinv Hu. unfold unread.
  destruct (step_grows σ σ' Hinv Hs) as [_ _ [->|[o ->]]]; [done|].
  by rewrite lookup_insert_ne.
Qed.

Lemma named_steps_unread dir e σ : rtc named_step (init_store dir e) σ → unread σ.
Proof.
  intros Hr.
  eapply proj2, (steps_ind named_step unread (init_store dir e));
    [by intros ?? [? _] | apply inv_init | done | apply unread_step | done].
Qed.

Lemma named_steps_reachable dir e σ :
  rtc named_step (init_store dir e) σ → reachable dir e σ.
Proof. apply rtc_subrel. by intros ?? [? _]. Qed.

(** C28: a run in named directories never reads a stored preference.  In
    every run of the explorer in which each transition starts in a
    directory whose path is a string other than "undefined", the getter
    [sortOption] returns the default (name, ascending) in every store and
    [items] is sorted by name, ascending; a further [changeSortKey],
    whatever its key, stores the option and leaves the getter at the
    default. *)
Theorem preference_never_read dir e σ :
  rtc named_step (init_store dir e) σ →
  sortOption (state σ) = default_sortOption ∧
  StronglySorted (λ a b, js_str_gt (Entry.name a) (Entry.name b) = false)
    (items (state σ)) ∧
  (named σ → ∀ sortKey,
     let σ' := final (changeSortKey sortKey σ) in
     sortOptions (state σ') !! js_to_string (directory σ) =
       Some (clicked sortKey default_sortOption) ∧
     sortOption (state σ') = default_sortOption).
Proof.
  intros Hr. pose proof (named_steps_unread dir e σ Hr) as Hu.
  pose proof (unread_default σ Hu) as Hd.
  pose proof (reachable_ordered_items dir e σ (named_steps_reachable dir e σ Hr)) as Ho.
  unfold ordered in Ho. rewrite Hd in Ho.
  split_and!; [done | by apply sorted_name_ascending |].
  intros Hn sortKey. cbv zeta. split.
  - by rewrite changeSortKey_sortOptions, lookup_insert_eq, Hd.
  - apply unread_default. unfold unread.
    by rewrite changeSortKey_sortOptions, lookup_insert_ne.
Qed.

End Preference.

(** ** The preference in [/a] *)

(** A click on the column [size] in [/a]. *)
Definition store_a_size : Store :=
  final (run (ChangeSortKey "size") (final (run InitDirectory store0))).

Lemma named_steps_size : rtc named_step store0 store_a_size.
Proof.
  apply (rtc_l _ _ (final (run InitDirectory store0))).
  { split; [exact (step_intent InitDirectory store0 I) | by vm_compute]. }
  apply rtc_once. split; [|by vm_compute].
  exact (step_intent (ChangeSortKey "size") (final (run InitDirectory store0)) I).
Qed.

(** The option is stored under [/a]; the table stays sorted by name. *)
Lemma preference_never_read_witness :
  rtc named_step store0 store_a_size ∧
  sortOptions (state store_a_size) !! "/a" =
    Some {| SortOption.key := "size"; SortOption.descending := false |} ∧
  sortOption (state store_a_size) = default_sortOption ∧
  Entry.name <$> items (state store_a_size) = ["Img2.JPG"; "b"; "c"; "x.png"].
Proof.
  split_and!; [exact named_steps_size | by vm_compute | | by vm_compute].
  exact (proj1 (preference_never_read (Some "/a") env0 _ named_steps_size)).
Defined.
