(* ===== verification/Dispatch.v ===== *)
(** * The actions as Vuex dispatches them

    [dispatch(type, payload)] calls the handler registered under [type]
    with the payload object, and every handler of lines 26-187 takes its
    arguments out of that object in its parameter list.  Three parameter
    lists give defaults: [force = false] (line 44), [offset = 0] and, for
    the payload itself, [= {}] (lines 59 and 66).  A handler without a
    default for the payload raises a [TypeError] when it is dispatched
    without one, before its body runs.

    [Request.t] is a dispatch with its payload as the view may leave it
    out, [dispatch] the handler with its parameter list; the theorems
    relate it to [run], which takes the payloads as given, show what a
    dispatch without payload does, and decompose every dispatch into the
    moves of [Moves.v]. *)

From stdpp Require Import base tactics list strings gmap relations.
From Stdlib Require Import ZArith Lia.
From S2P Require Import Prelude JsString Act Model SortEngine Actions Fixture Listing.
From S2P Require Import HistoryStack Explorer Moves Typed.

#[local] Open Scope Z_scope.
#[local] Open Scope act_scope.

(** The object [{ dirpath, force }]; a field that is absent is [None]. *)
Record DirectoryPayload := {
  dirpath : option string;
  force : option bool
}.

Module Request.

(** One constructor for each action of lines 26-187.  The payload is
    [None] when the action is dispatched without one; the offset of
    [backDirectory] and [forwardDirectory] is [None] when the payload has
    no such field. *)
Inductive t :=
| initDirectory
| changeParentDirectory
| changeHomeDirectory
| changeSelectedDirectory
| changeDirectory (payload : option DirectoryPayload)
| backDirectory (payload : option (option Z))
| forwardDirectory (payload : option (option Z))
| restoreDirectory (payload : option Z)
| load
| openDirectory
| select (payload : option string)
| selectIndex (payload : option Z)
| selectFirst
| selectLast
| selectPrevious
| selectNext
| search
| setScrollTop (payload : option Z)
| changeSortKey (payload : option string)
| sort
| action (payload : option string)
| showViewer (payload : option string).

(** The first property a parameter list without default reads from the
    payload, for the requests that come without payload. *)
Definition destructured (r : t) : option string :=
  match r with
  | changeDirectory None => Some "dirpath"
  | restoreDirectory None => Some "historyIndex"
  | select None | action None | showViewer None => Some "filepath"
  | selectIndex None => Some "index"
  | setScrollTop None => Some "scrollTop"
  | changeSortKey None => Some "sortKey"
  | _ => None
  end.

(** The requests whose handler reaches the listing of the viewer: the
    only call of the module outside a [try] that the filesystem can fail. *)
Definition viewing (r : t) : bool :=
  match r with
  | action (Some _) | showViewer (Some _) => true
  | _ => false
  end.

End Request.

(** Destructuring [undefined] raises; otherwise the body runs on the
    fields. *)
Definition destructure {P} (field : string) (payload : option P)
    (body : P → Action unit) : Action unit :=
  match payload with
  | Some p => body p
  | None => throw (TypeError field)
  end.

Section Dispatch.
Context `{!ArraySort}.
Implicit Types (σ : Store) (r : Request.t) (i : Intent).

(** The handlers with their parameter lists. *)
Definition dispatch r : Action unit :=
  match r with
  | Request.initDirectory => initDirectory
  | Request.changeParentDirectory => changeParentDirectory
  | Request.changeHomeDirectory => changeHomeDirectory
  | Request.changeSelectedDirectory => changeSelectedDirectory
  | Request.changeDirectory payload =>
      destructure "dirpath" payload
        (λ p, changeDirectory (dirpath p) (default false (force p)))
  | Request.backDirectory payload =>
      backDirectory (default 0 (default None payload))
  | Request.forwardDirectory payload =>
      forwardDirectory (default 0 (default None payload))
  | Request.restoreDirectory payload => destructure "historyIndex" payload restoreDirectory
  | Request.load => load
  | Request.openDirectory => openDirectory
  | Request.select payload => destructure "filepath" payload select
  | Request.selectIndex payload => destructure "index" payload selectIndex
  | Request.selectFirst => selectFirst
  | Request.selectLast => selectLast
  | Request.selectPrevious => selectPrevious
  | Request.selectNext => selectNext
  | Request.search => search
  | Request.setScrollTop payload => destructure "scrollTop" payload setScrollTop
  | Request.changeSortKey payload => destructure "sortKey" payload changeSortKey
  | Request.sort => sort
  | Request.action payload => destructure "filepath" payload action
  | Request.showViewer payload => destructure "filepath" payload showViewer
  end.

(** The dispatch behind an intent of the view; the two input mutations
    are commits, not dispatches. *)
Definition request i : option Request.t :=
  match i with
  | InitDirectory => Some Request.initDirectory
  | ChangeDirectory d =>
      Some (Request.changeDirectory (Some {| dirpath := Some d; force := None |}))
  | ChangeParentDirectory => Some Request.changeParentDirectory
  | ChangeHomeDirectory => Some Request.changeHomeDirectory
  | ChangeSelectedDirectory => Some Request.changeSelectedDirectory
  | BackDirectory offset => Some (Request.backDirectory (Some (Some offset)))
  | ForwardDirectory offset => Some (Request.forwardDirectory (Some (Some offset)))
  | SetScrollTop v => Some (Request.setScrollTop (Some v))
  | OpenDirectory => Some Request.openDirectory
  | ShowViewer filepath => Some (Request.showViewer (Some filepath))
  | DoAction filepath => Some (Request.action (Some filepath))
  | Select filepath => Some (Request.select (Some filepath))
  | SelectIndex index => Some (Request.selectIndex (Some index))
  | SelectFirst => Some Request.selectFirst
  | SelectLast => Some Request.selectLast
  | SelectPrevious => Some Request.selectPrevious
  | SelectNext => Some Request.selectNext
  | Search => Some Request.search
  | ChangeSortKey sortKey => Some (Request.changeSortKey (Some sortKey))
  | SetQueryInput _ | SetDirectoryInput _ => None
  end.

(** [run] is [dispatch] on the payloads the view gives. *)
Lemma dispatch_request i r : request i = Some r → dispatch r = run i.
Proof. destruct i; intros; by simplify_eq/=. Qed.

(** A request whose parameter list cannot take its payload apart raises
    before any commit. *)
Lemma dispatch_destructured r field σ :
  Request.destructured r = Some field → dispatch r σ = Raised (TypeError field) σ.
Proof. destruct r as [| | | |[]|[]|[]|[]| | |[]|[]| | | | | |[]|[]| |[]|[]]; intros; by simplify_eq/=. Qed.

(** ** The invariants through every dispatch *)

(** Offsets and indices stay inside the history, as the view takes them
    from the getters. *)
Definition acceptable r (s : State) : Prop :=
  match r with
  | Request.backDirectory payload =>
      admissible (BackDirectory (default 0 (default None payload))) s
  | Request.forwardDirectory payload =>
      admissible (ForwardDirectory (default 0 (default None payload))) s
  | Request.restoreDirectory (Some historyIndex) =>
      0 ≤ historyIndex < Z.of_nat (length (histories s))
  | Request.setScrollTop (Some _) => 0 ≤ historyIndex s
  | _ => True
  end.

#[export] Instance acceptable_dec r s : Decision (acceptable r s).
Proof. destruct r as [| | | | | | |[]| | | | | | | | | |[]| | | |]; simpl; apply _. Defined.

(** What a dispatch may raise: the [TypeError] of its parameter list, or
    an error of the filesystem where the body reaches the viewer. *)
Definition request_raises r (e : Exn) (σ : Store) : Prop :=
  inv σ ∧
  match Request.destructured r with
  | Some field => e = TypeError field
  | None => (∃ d, e = FsError d) ∧ Request.viewing r = true
  end.

Lemma total_select filepath : hoare inv (select filepath) (λ _, inv) (λ _ _, False).
Proof. by apply total_commit. Qed.

#[local] Hint Resolve total_select total_initDirectory total_changeDirectory
  total_changeParentDirectory total_changeHomeDirectory total_changeSelectedDirectory
  total_backDirectory total_forwardDirectory total_restoreDirectory total_load
  total_setScrollTop total_openDirectory total_selectIndex total_select_at
  total_changeSortKey total_search total_commit total_sort
  safe_showViewer safe_action : explorer.

Lemma dispatch_triple r :
  hoare (λ σ, inv σ ∧ acceptable r (state σ)) (dispatch r) (λ _, inv) (request_raises r).
Proof.
  destruct (Request.destructured r) as [field|] eqn:Hd.
  { intros σ [Hinv _]. rewrite (dispatch_destructured r field σ Hd).
    split; [done|]. by rewrite Hd. }
  unfold request_raises. rewrite Hd.
  destruct r as [| | | |[]|?|?|[]| | |[]|[]| | | | | |[]|[]| |[]|[]]; simplify_eq/=;
    (eapply hoare_conseq;
     [eauto with explorer
     |first [ done | by intros σ [? _] ]
     |done
     |first [ done | by intros e σ [? ?] ]]).
Qed.

Lemma dispatch_inv r σ :
  inv σ → acceptable r (state σ) → inv (final (dispatch r σ)).
Proof.
  intros Hinv Hacc.
  apply (hoare_final _ _ _ _ _ (dispatch_triple r)); [by intros e σ' [? _] | done].
Qed.

(** ** The moves of a dispatch *)

(** The requests that give [changeDirectory] a directory, or the committed
    one: with a payload that has no [dirpath], the handler navigates to
    [undefined]. *)
Definition directed r σ : Prop :=
  match r with
  | Request.changeDirectory (Some p) => is_Some (dirpath p) ∨ dirpath p = directory σ
  | _ => True
  end.

#[export] Instance directed_dec r σ : Decision (directed r σ).
Proof. destruct r as [| | | |[]| | | | | | | | | | | | | | | | |]; simpl; apply _. Defined.

#[local] Ltac by_intent i := solve [ by apply (run_moves i) ].

(** Every dispatch is a sequence of the moves of [Moves.v]. *)
Lemma dispatch_moves r σ :
  wf σ → acceptable r (state σ) → directed r σ → rtc move σ (final (dispatch r σ)).
Proof.
  intros Hwf Hacc Hdir.
  destruct r as [| | | |[[d f]|]|p|p|[j|]| | |[p|]|[j|]| | | | | |[v|]|[k|]| |[p|]|[p|]];
    simpl in *; try apply rtc_refl.
  - by_intent InitDirectory.
  - by_intent ChangeParentDirectory.
  - by_intent ChangeHomeDirectory.
  - by_intent ChangeSelectedDirectory.
  - apply changeDirectory_moves; [done | by apply wf_cursor_ok].
  - by_intent (BackDirectory (default 0 (default None p))).
  - by_intent (ForwardDirectory (default 0 (default None p))).
  - destruct (js_nth_in_range (histories (state σ)) j) as [_ [h Hh]]; [done|].
    by eapply restoreDirectory_moves.
  - apply rtc_once, move_load.
  - by_intent OpenDirectory.
  - by_intent (Select p).
  - by_intent (SelectIndex j).
  - by_intent SelectFirst.
  - by_intent SelectLast.
  - by_intent SelectPrevious.
  - by_intent SelectNext.
  - by_intent Search.
  - by_intent (SetScrollTop v).
  - by_intent (ChangeSortKey k).
  - apply rtc_once, move_sort.
  - by_intent (DoAction p).
  - by_intent (ShowViewer p).
Qed.

(** A stable invariant is kept by every dispatch that gives
    [changeDirectory] a directory. *)
Lemma stable_dispatch I `{!Stable I} r σ :
  wf σ → acceptable r (state σ) → directed r σ → I σ → I (final (dispatch r σ)).
Proof. intros Hwf Hacc Hdir. by apply (stable_moves I), dispatch_moves. Qed.

(** C11: a dispatch keeps the invariants whatever its payload.  From a
    store that satisfies the history and watcher invariants, the dispatch
    of any action of the module, with or without payload, with offsets and
    indices inside the history, ends in a store that satisfies them.  When
    the parameter list cannot take the payload apart, the dispatch raises
    the [TypeError] of the property it reads first and leaves the store as
    it was; otherwise all it can raise is an error of the filesystem, and
    only the dispatch of [action] or [showViewer] raises it, from the
    listing of the viewer: every other dispatch returns, [backDirectory]
    and [forwardDirectory] without payload or offset included.  Unless it
    navigates to [undefined], the
    dispatch is a sequence of the moves of the actions, so it keeps every
    invariant the moves keep. *)
Theorem dispatch_safe r σ :
  inv σ → acceptable r (state σ) →
  inv (final (dispatch r σ)) ∧
  match Request.destructured r with
  | Some field => dispatch r σ = Raised (TypeError field) σ
  | None =>
      ∀ e σ', dispatch r σ = Raised e σ' →
        (∃ d, e = FsError d) ∧ Request.viewing r = true
  end ∧
  (directed r σ → ∀ I : Store → Prop, Stable I → I σ → I (final (dispatch r σ))).
Proof.
  intros Hinv Hacc. split_and!.
  - by apply dispatch_inv.
  - destruct (Request.destructured r) as [field|] eqn:Hd;
      [by apply dispatch_destructured|].
    intros e σ' Hr.
    pose proof (hoare_raised _ _ _ _ _ _ _ (dispatch_triple r) (conj Hinv Hacc) Hr)
      as [_ He].
    by rewrite Hd in He.
  - intros Hdir I HI. apply (stable_dispatch I); [apply Hinv | done..].
Qed.

(** ** Runs in which the view dispatches what it likes *)

(** A transition of the explorer, or the dispatch of any acceptable
    request: the actions the view has no intent for, and the dispatches
    without payload, are transitions too. *)
Inductive dstep : Store → Store → Prop :=
| dstep_step σ σ' : step σ σ' → dstep σ σ'
| dstep_dispatch r σ : acceptable r (state σ) → dstep σ (final (dispatch r σ)).

(** The invariants hold along these runs as well. *)
Lemma dispatched_inv dir e σ : rtc dstep (init_store dir e) σ → inv σ.
Proof.
  revert σ. apply rtc_ind_r; [apply inv_init|].
  intros σ1 σ2 _ [σ σ' Hs|r σ Hacc] Hinv; [by apply (step_inv σ) | by apply dispatch_inv].
Qed.

End Dispatch.

(** ** Dispatches at the concrete environment *)

(** [changeDirectory] without payload raises and changes nothing. *)
Lemma dispatch_safe_witness :
  inv store_a ∧
  dispatch (Request.changeDirectory None) store_a = Raised (TypeError "dirpath") store_a.
Proof.
  split; [apply inv_store_a|].
  exact (proj1 (proj2 (dispatch_safe (Request.changeDirectory None) store_a inv_store_a I))).
Defined.

(** [backDirectory] without payload, and with a payload without offset,
    goes one place back. *)
Example dispatch_back_default :
  directory (final (dispatch (Request.backDirectory None) store_abc)) = Some "/a/b" ∧
  dispatch (Request.backDirectory (Some None)) store_abc =
    dispatch (Request.backDirectory None) store_abc.
Proof. by vm_compute. Qed.

(** [changeDirectory] with a payload without [dirpath] navigates to
    [undefined]: the invariants of the history and of the watcher hold, and
    the committed directory is no string. *)
Example dispatch_undirected :
  let r := Request.changeDirectory (Some {| dirpath := None; force := None |}) in
  let σ := final (dispatch r store_a) in
  ¬ directed r store_a ∧ typed store_a ∧ inv σ ∧ directory σ = None ∧ ¬ typed σ.
Proof.
  intros r σ.
  assert (directory σ = None) as Hd by (by vm_compute).
  split_and!; [by intros [[? [=]]|[=]] | | by apply dispatch_inv; [apply inv_store_a|] | done |].
  - split; [by eexists | by eexists |]. apply (bool_decide_unpack _). by vm_compute.
  - intros [Hs _ _]. rewrite Hd in Hs. by destruct Hs.
Qed.
