(* ===== verification/Liveness.v ===== *)
(** * The watch brings the listing up to date

    A change of the filesystem leaves the items stale.  The callback of the
    watch (source lines 88-90) dispatches [load]; under weak fairness of
    that callback, an explorer with an armed watch reaches a store whose
    items are the listing of the committed directory.  The executions are
    infinite sequences of stores, and the rule that concludes from one
    helpful transition is proved once, for any transition system. *)

From stdpp Require Import base tactics list strings gmap relations.
From Stdlib Require Import ZArith Lia.
From S2P Require Import Prelude JsString Act Model SortEngine Actions Fixture Listing.
From S2P Require Import FileContract HistoryStack Explorer Moves Typed Activation Ordered.

#[local] Open Scope act_scope.

(** ** Leads-to under weak fairness *)

Section Fairness.
Context {S : Type} (step helpful : relation S) (enabled : S → Prop).

(** An infinite run. *)
Definition execution (x : nat → S) : Prop := ∀ n, step (x n) (x (Datatypes.S n)).

(** The helpful transition is not enabled for ever without being taken. *)
Definition weakly_fair (x : nat → S) : Prop :=
  ∀ n, ∃ m, n ≤ m ∧ (¬ enabled (x m) ∨ helpful (x m) (x (Datatypes.S m))).

Definition leads_to (x : nat → S) (P Q : S → Prop) : Prop :=
  ∀ n, P (x n) → ∃ m, n ≤ m ∧ Q (x m).

Context (P Q : S → Prop).
Hypothesis keep : ∀ s s', P s → step s s' → P s' ∨ Q s'.
Hypothesis help : ∀ s s', P s → helpful s s' → Q s'.
Hypothesis able : ∀ s, P s → enabled s.

(** Until [Q] holds, [P] does. *)
Lemma unless x n k :
  execution x → P (x n) → (∃ m, n ≤ m ≤ n + k ∧ Q (x m)) ∨ P (x (n + k)).
Proof.
  intros Hx HP. induction k as [|k [(m & Hm & HQ)|IH]].
  - right. by rewrite Nat.add_0_r.
  - left. exists m. split; [lia | done].
  - rewrite Nat.add_succ_r. destruct (keep _ _ IH (Hx (n + k))) as [?|HQ]; [by right|].
    left. exists (Datatypes.S (n + k)). split; [lia | done].
Qed.

Theorem wf1 x : execution x → weakly_fair x → leads_to x P Q.
Proof.
  intros Hx Hfair n HP. destruct (Hfair n) as (m & Hm & Hact).
  destruct (unless x n (m - n) Hx HP) as [(j & Hj & HQ)|HPm].
  - exists j. split; [lia | done].
  - replace (n + (m - n)) with m in HPm by lia.
    destruct Hact as [Hdis|Hact]; [by destruct Hdis; apply able|].
    exists (Datatypes.S m). split; [lia | by eapply help].
Qed.

End Fairness.

(** ** The watch of the explorer *)

(** A watch of the operating system is live. *)
Definition armed (σ : Store) : Prop := ∃ h, is_Some (live σ !! h).

Section Watch.
Context `{!ArraySort}.
Implicit Types (σ : Store).

(** The callback of a live watch runs. *)
Definition watch_fires (σ σ' : Store) : Prop := armed σ ∧ σ' = final (load σ).

Lemma armed_frame σ σ' : live σ' = live σ → armed σ → armed σ'.
Proof. unfold armed. by intros ->. Qed.

(** A move keeps the watch, or it reloads. *)
#[export] Instance armed_or_fresh_stable : Stable (λ σ, armed σ ∨ fresh σ).
Proof.
  intros σ σ' Hm [Ha|Hf]; [|right; by apply (stable (I:=fresh) σ σ')].
  move_cases Hm;
    try (left; by apply (armed_frame σ)).
  - right. apply load_fresh.
  - right. rewrite (restoreDirectory_Some _ _ _ Hh). apply load_fresh.
Qed.

(** A reload on a directory that can be watched arms a watch. *)
Lemma load_armed σ :
  fs_watch_ok (env σ) (directory σ) = true → armed (final (load σ)).
Proof.
  intros Hok. destruct (load_watch σ) as [_ Hw]. rewrite Hok in Hw.
  destruct Hw as (_ & Hl & _). exists (next_watch σ). rewrite Hl.
  by rewrite lookup_insert_eq.
Qed.

(** Every store of a run from the initial store keeps the invariants. *)
Lemma execution_reachable x dir e n :
  x 0%nat = init_store dir e → execution step x → reachable dir e (x n).
Proof.
  intros H0 Hx. unfold reachable.
  induction n as [|n IH]; [by rewrite H0|]. eapply rtc_r; [done | apply Hx].
Qed.

Lemma execution_inv x dir e n :
  x 0%nat = init_store dir e → execution step x → inv (x n).
Proof.
  intros H0 Hx.
  pose proof (execution_reachable x dir e n H0 Hx) as Hr.
  by destruct (steps_ind step (λ _, True) (init_store dir e)) with (σ := x n);
    try apply inv_init.
Qed.

(** C17: in every run of the explorer from its initial store in which the
    callback of the watch is weakly fair, an armed watch leads to fresh
    items: from any point where a watch is live, the run reaches a store
    whose items are what [load] leaves for the committed directory in the
    filesystem as it then is (its directories and images, or nothing when
    the directory cannot be watched or listed), in the order of the sort
    option. *)
Theorem watch_leads_to_fresh x dir e :
  x 0%nat = init_store dir e → execution step x →
  weakly_fair watch_fires armed x → leads_to x armed (λ σ, fresh σ ∧ ordered σ).
Proof.
  intros H0 Hx Hfair n Ha.
  cut (∃ m, n ≤ m ∧ fresh (x m)).
  { intros (m & Hm & Hf). exists m. split_and!; [done..|].
    by eapply reachable_ordered_items, execution_reachable. }
  destruct (wf1 step watch_fires armed (λ σ, inv σ ∧ armed σ) fresh) with (x := x) (n := n)
    as (m & Hm & Hf); try done; [| |by intros σ [_ ?]| |by eauto].
  - intros σ σ' [Hinv Hσ] Hstep.
    assert (inv σ') as Hinv' by (by apply (step_inv σ)).
    cut (armed σ' ∨ fresh σ'); [intros [?|?]; eauto|].
    destruct Hstep as [i σ Hadm|h σ Hlive|e' σ].
    + apply (stable_run (λ σ, armed σ ∨ fresh σ)); [apply Hinv | done | by left].
    + right. apply load_fresh.
    + by left.
  - intros σ σ' _ [_ ->]. apply load_fresh.
  - split; [by eapply execution_inv | done].
Qed.

(** Reloads on a directory that can be watched keep a watch armed. *)
Lemma reloads_armed n σ :
  armed σ → fs_watch_ok (env σ) (directory σ) = true →
  armed (reloads n σ) ∧ env (reloads n σ) = env σ ∧
  directory (reloads n σ) = directory σ.
Proof.
  intros Ha Hok. induction n as [|n (IHa & IHe & IHd)]; [done|].
  change (reloads (S n) σ) with (final (load (reloads n σ))).
  autorewrite with explorer. split_and!; [|done..].
  apply load_armed. by rewrite IHe, IHd.
Qed.

End Watch.

(** ** A fair run at the concrete environment *)

(** The explorer starts on [/a], and then the watch fires again and
    again. *)
Definition watched_run (n : nat) : Store :=
  match n with
  | O => store0
  | S k => reloads k store_a
  end.

Lemma store_a_armed :
  armed store_a ∧ fs_watch_ok (env store_a) (directory store_a) = true.
Proof.
  assert (live store_a !! 0%nat = Some (Some "/a")) as Hl by (vm_compute; reflexivity).
  split; [exists 0%nat; by rewrite Hl | vm_compute; reflexivity].
Qed.

Lemma watched_run_fires n : watch_fires (watched_run (S n)) (watched_run (S (S n))).
Proof.
  destruct store_a_armed as [Ha Hok]. split; [|done]. by apply reloads_armed.
Qed.

Lemma watch_leads_to_fresh_witness :
  execution step watched_run ∧ weakly_fair watch_fires armed watched_run ∧
  ∃ m, 1 ≤ m ∧ fresh (watched_run m).
Proof.
  assert (execution step watched_run) as Hx.
  { intros [|n]; [simpl; rewrite <- store_a_run; by apply step_intent|].
    destruct (watched_run_fires n) as [[h Hh] ->]. by apply (step_watch_fired h). }
  assert (weakly_fair watch_fires armed watched_run) as Hfair.
  { intros n. exists (S n). split; [lia|]. right. apply watched_run_fires. }
  split; [exact Hx|]. split; [exact Hfair|].
  destruct (watch_leads_to_fresh watched_run (Some "/a") env0 eq_refl Hx Hfair 1
              (proj1 store_a_armed)) as (m & Hm & Hf & _).
  exact (ex_intro _ m (conj Hm Hf)).
Defined.
