(* ===== verification/Simulation.v ===== *)
(** * The explorer simulates the history machine

    The specification of the history is a machine on an optional zipper
    with five labelled moves: visit a directory, go back or forward by a
    number of places, scroll, stay.  [label_of] reads off an intent and the
    store which move the code is meant to make, following the dispatch of
    the actions; [labelled] is the transition relation of the explorer
    with that move on every transition, and [labelled_run] a run with the
    list of its moves.  [intent_simulates] shows that the run of every
    admissible intent makes exactly its move on the zipper the store
    stands for; [reachable_simulates] that the moves of every run of the
    explorer, in their order, are a run of the machine that ends in the
    zipper the reached store stands for; and [machine_simulated] that
    every move of the machine is made by the intent [intent_of] names. *)

From stdpp Require Import base tactics list strings gmap relations.
From Stdlib Require Import ZArith Lia.
From S2P Require Import Prelude JsString Act Model SortEngine Actions Fixture Listing.
From S2P Require Import HistoryStack Zipper Explorer.

#[local] Open Scope Z_scope.
#[local] Open Scope act_scope.

(** ** The history machine *)

Module Spec.

Inductive label :=
| Visit (d : option string)
| Back (k : nat)
| Forward (k : nat)
| Scroll (v : Z)
| Stay.

(** One move; [None] when the move is not possible. *)
Definition step (l : label) (z : option Zipper.t) : option (option Zipper.t) :=
  match l with
  | Visit d => Some (Some (Zipper.visit d z))
  | Back k => z' ← z; Some <$> Zipper.go Zipper.left (S k) z'
  | Forward k => z' ← z; Some <$> Zipper.go Zipper.right (S k) z'
  | Scroll v => z' ← z; Some (Some (Zipper.scroll v z'))
  | Stay => Some z
  end.

Definition run (ls : list label) (z : option Zipper.t) : option (option Zipper.t) :=
  foldl (λ oz l, oz ≫= step l) (Some z) ls.

End Spec.

#[export] Instance label_eq_dec : EqDecision Spec.label.
Proof. solve_decision. Defined.

(** ** Labelled runs and the simulation diagram *)

(** A diagram between a labelled transition relation and a machine whose
    moves are partial functions carries over to runs: the labels of a run
    of the first, in their order, are a run of the second. *)
Section Diagram.
Context {C A L : Type} (cstep : L → C → C → Prop) (astep : L → A → option A).
Context (R : C → A → Prop).

(** A run with the list of its labels. *)
Inductive traced : list L → C → C → Prop :=
| traced_nil c : traced [] c c
| traced_cons l ls c1 c2 c3 :
    cstep l c1 c2 → traced ls c2 c3 → traced (l :: ls) c1 c3.

Lemma traced_app ls1 ls2 c1 c2 c3 :
  traced ls1 c1 c2 → traced ls2 c2 c3 → traced (ls1 ++ ls2) c1 c3.
Proof. induction 1; simpl; eauto using traced. Qed.

Lemma traced_snoc ls l c1 c2 c3 :
  traced ls c1 c2 → cstep l c2 c3 → traced (ls ++ [l]) c1 c3.
Proof. intros Ht Hs. eapply traced_app; eauto using traced. Qed.

(** The runs of a relation that forgets the labels are the traced runs. *)
Lemma rtc_traced (ustep : relation C) c c' :
  (∀ c1 c2, ustep c1 c2 ↔ ∃ l, cstep l c1 c2) →
  rtc ustep c c' ↔ ∃ ls, traced ls c c'.
Proof.
  intros Hu. split.
  - induction 1 as [c|c1 c2 c3 [l Hl]%Hu _ [ls Hls]]; [exists []|exists (l :: ls)];
      eauto using traced.
  - intros [ls Hls]. induction Hls as [c|l ls c1 c2 c3 Hl _ IH]; [done|].
    eapply rtc_l; [apply Hu; by exists l | done].
Qed.

Hypothesis diagram :
  ∀ l c c' a, R c a → cstep l c c' → ∃ a', astep l a = Some a' ∧ R c' a'.

Lemma simulation_star ls c c' a :
  R c a → traced ls c c' →
  ∃ a', foldl (λ oa l, oa ≫= astep l) (Some a) ls = Some a' ∧ R c' a'.
Proof.
  intros HR Ht. revert a HR.
  induction Ht as [c|l ls c1 c2 c3 Hl _ IH]; intros a HR; [by exists a|].
  destruct (diagram _ _ _ _ HR Hl) as (a2 & Ha2 & HR2).
  destruct (IH _ HR2) as (a3 & Hrun & HR3). exists a3. simpl. by rewrite Ha2.
Qed.
End Diagram.

(** ** The move an intent makes *)

(** [changeDirectory] visits, unless it is the no-op of line 45. *)
Definition visit_label (d : option string) (force : bool) (σ : Store) : Spec.label :=
  if bool_decide (d = directory σ) && negb force then Spec.Stay else Spec.Visit d.

Definition label_of (i : Intent) (σ : Store) : Spec.label :=
  let e := env σ in
  let s := state σ in
  match i with
  | InitDirectory => visit_label (directory σ) true σ
  | ChangeDirectory dirpath => visit_label (Some dirpath) false σ
  | ChangeParentDirectory =>
      visit_label (Some (File.parentPath (new_File e (directory σ)))) false σ
  | ChangeHomeDirectory => visit_label (Some (home e)) false σ
  | ChangeSelectedDirectory =>
      if js_truthy (selectedFilepath s) &&
         File.isDirectory (new_File e (Some (selectedFilepath s)))
      then visit_label (Some (selectedFilepath s)) false σ
      else Spec.Stay
  | DoAction filepath =>
      let file := new_File e (Some filepath) in
      if File.isDirectory file then visit_label (Some (File.path file)) false σ
      else Spec.Stay
  | BackDirectory offset => Spec.Back (Z.to_nat offset)
  | ForwardDirectory offset => Spec.Forward (Z.to_nat offset)
  | SetScrollTop v => Spec.Scroll v
  | _ => Spec.Stay
  end.

(** An intent that makes a given move; none visits [undefined]. *)
Definition intent_of (l : Spec.label) (σ : Store) : option Intent :=
  match l with
  | Spec.Visit d =>
      if decide (d = directory σ) then Some InitDirectory
      else ChangeDirectory <$> d
  | Spec.Back k => Some (BackDirectory (Z.of_nat k))
  | Spec.Forward k => Some (ForwardDirectory (Z.of_nat k))
  | Spec.Scroll v => Some (SetScrollTop v)
  | Spec.Stay => Some Search
  end.

(** The store stands for the zipper and keeps the invariants. *)
Definition stands_for (σ : Store) (z : option Zipper.t) : Prop :=
  inv σ ∧ abs (state σ) = z.

(** Whether an intent can move the history. *)
Definition navigates (i : Intent) : bool :=
  match i with
  | InitDirectory | ChangeDirectory _ | ChangeParentDirectory | ChangeHomeDirectory
  | ChangeSelectedDirectory | DoAction _ | BackDirectory _ | ForwardDirectory _
  | SetScrollTop _ => true
  | _ => false
  end.

Section Simulation.
Context `{!ArraySort}.
Implicit Types (σ : Store) (z : Zipper.t) (d : option string).

(** A transition of the explorer with the move it is meant to make: the
    run of an admissible intent carries the label [label_of] reads off the
    intent and the store it starts in; the callback of the watch and a
    change of the filesystem stay. *)
Inductive labelled : Spec.label → Store → Store → Prop :=
| labelled_intent i σ :
    admissible i (state σ) → labelled (label_of i σ) σ (final (run i σ))
| labelled_watch_fired h σ :
    is_Some (live σ !! h) → labelled Spec.Stay σ (final (load σ))
| labelled_env e σ : labelled Spec.Stay σ (with_env e σ).

(** A run of the explorer with the moves it is meant to make, in order. *)
Definition labelled_run : list Spec.label → Store → Store → Prop := traced labelled.

(** The labels of the run of a sequence of intents. *)
Fixpoint labels_of (l : list Intent) (σ : Store) : list Spec.label :=
  match l with
  | [] => []
  | i :: l' => label_of i σ :: labels_of l' (final (run i σ))
  end.

(** ** One lemma per move *)

Lemma changeDirectory_simulates d force σ :
  cursor_ok (state σ) →
  Spec.step (visit_label d force σ) (abs (state σ)) =
    Some (abs (state (final (changeDirectory d force σ)))).
Proof.
  intros Hc. unfold visit_label.
  destruct (bool_decide (d = directory σ) && negb force) eqn:Hb.
  - unfold changeDirectory, bind, gets. simpl. by rewrite Hb.
  - simpl. rewrite changeDirectory_refines; [done..|].
    apply andb_false_iff in Hb as [Hb%bool_decide_eq_false|Hb%negb_false_iff]; eauto.
Qed.

Lemma backDirectory_simulates offset σ :
  cursor_ok (state σ) → 0 ≤ offset < historyIndex (state σ) →
  Spec.step (Spec.Back (Z.to_nat offset)) (abs (state σ)) =
    Some (abs (state (final (backDirectory offset σ)))).
Proof.
  intros Hc Hoff. destruct (abs_on_record _ Hc) as [z Hz]; [lia|].
  pose proof (abs_Some _ _ Hz) as [_ Hp]. unfold Zipper.position in Hp.
  destruct (backDirectory_refines offset z σ Hz) as [Ha Hd]; [lia|].
  rewrite Hz.
  change (Some <$> Zipper.go Zipper.left (S (Z.to_nat offset)) z =
          Some (abs (state (final (backDirectory offset σ))))).
  rewrite <- Ha. by destruct (abs (state (final (backDirectory offset σ)))).
Qed.

Lemma forwardDirectory_simulates offset σ :
  cursor_ok (state σ) → 0 ≤ historyIndex (state σ) →
  0 ≤ offset < Z.of_nat (length (histories (state σ))) - 1 - historyIndex (state σ) →
  Spec.step (Spec.Forward (Z.to_nat offset)) (abs (state σ)) =
    Some (abs (state (final (forwardDirectory offset σ)))).
Proof.
  intros Hc Hi Hoff. destruct (abs_on_record _ Hc Hi) as [z Hz].
  destruct (abs_parts _ _ Hz) as (_ & _ & Hlen).
  destruct (forwardDirectory_refines offset z σ Hz) as [Ha Hd]; [lia|].
  rewrite Hz.
  change (Some <$> Zipper.go Zipper.right (S (Z.to_nat offset)) z =
          Some (abs (state (final (forwardDirectory offset σ))))).
  rewrite <- Ha. by destruct (abs (state (final (forwardDirectory offset σ)))).
Qed.

Lemma setScrollTop_simulates v σ :
  cursor_ok (state σ) → 0 ≤ historyIndex (state σ) →
  Spec.step (Spec.Scroll v) (abs (state σ)) =
    Some (abs (state (final (setScrollTop v σ)))).
Proof.
  intros Hc Hi. destruct (abs_on_record _ Hc Hi) as [z Hz].
  by rewrite (setScrollTop_refines v z σ Hz), Hz.
Qed.

(** Where there is a record ahead, the cursor is on a record. *)
Lemma wf_forward_cursor offset σ :
  wf σ →
  0 ≤ offset < Z.of_nat (length (histories (state σ))) - 1 - historyIndex (state σ) →
  0 ≤ historyIndex (state σ).
Proof.
  intros [[Hi Hnil]|Hd] Hoff; [rewrite Hi, Hnil in Hoff; simpl in Hoff; lia|].
  destruct (js_nth _ _) eqn:Hn; [|done]. js_bounds. lia.
Qed.

(** The intents that do not navigate leave the records and the cursor. *)
Lemma run_still i σ :
  navigates i = false → abs (state (final (run i σ))) = abs (state σ).
Proof.
  intros Hi. apply abs_frame; destruct i; try done; simpl;
    unfold selectFirst, selectLast, selectPrevious, selectNext, search, changeSortKey,
      select, showViewer, bind, gets, commit, emit, modify, throw; simpl;
    rewrite ?selectIndex_run, ?openDirectory_reports; simpl;
    repeat case_match; done.
Qed.

(** ** The diagram *)

(** The run of an admissible intent makes the move [label_of] names. *)
Lemma run_simulates i σ :
  wf σ → admissible i (state σ) →
  Spec.step (label_of i σ) (abs (state σ)) = Some (abs (state (final (run i σ)))).
Proof.
  intros Hwf Hadm. pose proof (wf_cursor_ok _ Hwf) as Hc.
  destruct (navigates i) eqn:Hnav;
    [|rewrite run_still by done; by destruct i].
  destruct i; try done; simpl in Hadm; simpl label_of; simpl run;
    unfold initDirectory, changeParentDirectory, changeHomeDirectory,
      changeSelectedDirectory, action, when, bind, gets; simpl;
    repeat case_match;
    first [ by apply changeDirectory_simulates
          | by apply backDirectory_simulates
          | by apply forwardDirectory_simulates; [|eapply wf_forward_cursor|]
          | by apply setScrollTop_simulates
          | by symmetry; apply (f_equal Some), (run_still (ShowViewer _))
          | done ].
Qed.

(** What a store that stands for a zipper holds. *)
Lemma stands_for_Some σ z :
  stands_for σ (Some z) →
  histories (state σ) = Zipper.to_list z ∧
  historyIndex (state σ) = Z.of_nat (Zipper.position z) ∧
  directory σ = History.directory (Zipper.here z).
Proof.
  intros [[Hwf _] Hz]. destruct (abs_Some _ _ Hz) as [Hl Hp]. split_and!; [done..|].
  pose proof (abs_js_nth _ _ Hz) as Hn.
  destruct Hwf as [[Hi _]|Hd]; [lia|]. rewrite Hn in Hd. by simplify_eq/=.
Qed.

Lemma stands_for_None σ :
  stands_for σ None → histories (state σ) = [] ∧ historyIndex (state σ) = -1.
Proof.
  intros [[Hwf _] Hz]. pose proof (abs_None _ (wf_cursor_ok _ Hwf) Hz) as Hi.
  destruct Hwf as [[_ ?]|Hd]; [done|]. by rewrite Hi in Hd.
Qed.

(** C7: the run of an admissible intent, in a store that keeps the
    invariants and stands for a zipper, makes on that zipper exactly the
    move [label_of] names: a navigation to another directory visits it,
    [backDirectory] and [forwardDirectory] go [offset + 1] places,
    [setScrollTop] scrolls, every other intent stays; the move is possible,
    the store after the run stands for its result, and the committed
    directory is the directory of the current record. *)
Theorem intent_simulates i σ oz :
  stands_for σ oz → admissible i (state σ) →
  ∃ oz', Spec.step (label_of i σ) oz = Some oz' ∧
         stands_for (final (run i σ)) oz' ∧
         (∀ z, oz' = Some z →
            directory (final (run i σ)) = History.directory (Zipper.here z)).
Proof.
  intros [Hinv <-] Hadm. exists (abs (state (final (run i σ)))).
  assert (stands_for (final (run i σ)) (abs (state (final (run i σ))))) as Hst
    by (split; [by apply inv_run | done]).
  split_and!; [apply run_simulates; [apply Hinv | done] | done|].
  intros z Hz. rewrite Hz in Hst. by apply stands_for_Some in Hst as (_ & _ & ?).
Qed.

(** ** Runs *)

(** The labelled transitions are the transitions of the explorer. *)
Lemma step_labelled σ σ' : step σ σ' ↔ ∃ l, labelled l σ σ'.
Proof.
  split; [destruct 1; eauto using labelled|].
  intros [l []]; [by apply step_intent | by eapply step_watch_fired | apply step_env].
Qed.

Lemma reachable_labelled dir e σ :
  reachable dir e σ ↔ ∃ ls, labelled_run ls (init_store dir e) σ.
Proof. apply rtc_traced, step_labelled. Qed.

(** The labels of a sequence of admissible intents label its run. *)
Lemma labelled_run_all l σ :
  admissible_all l σ → labelled_run (labels_of l σ) σ (run_all l σ).
Proof.
  revert σ. induction l as [|i l IH]; intros σ; [constructor|].
  intros [Hadm Hall]. eapply traced_cons; [by apply labelled_intent | by apply IH].
Qed.

(** Every labelled transition makes its move on the zipper. *)
Lemma labelled_simulates l σ σ' oz :
  stands_for σ oz → labelled l σ σ' →
  ∃ oz', Spec.step l oz = Some oz' ∧ stands_for σ' oz'.
Proof.
  intros [Hinv <-] Hstep. destruct Hstep as [i σ Hadm|h σ Hlive|e σ].
  - exists (abs (state (final (run i σ)))).
    split; [apply run_simulates; [apply Hinv | done] | split; [by apply inv_run | done]].
  - exists (abs (state σ)). split; [done|].
    split; [by apply inv_load | apply abs_frame; by autorewrite with explorer].
  - by exists (abs (state σ)).
Qed.

(** The moves of a run, made in their order on the zipper the first store
    stands for, build the zipper the last store stands for. *)
Lemma labelled_run_simulates ls σ σ' :
  inv σ → labelled_run ls σ σ' →
  Spec.run ls (abs (state σ)) = Some (abs (state σ')) ∧ inv σ'.
Proof.
  intros Hinv Hrun.
  destruct (simulation_star labelled Spec.step stands_for labelled_simulates
              ls σ σ' (abs (state σ))) as (oz & Hoz & Hinv' & <-); done.
Qed.

(** C8: every run of the explorer is a run of the history machine, move
    for move.  A reachable store is reached by a labelled run, in which
    every transition carries the move [label_of] reads off its intent
    (stay, for a callback of the watch or a change of the filesystem); and
    for every labelled run that reaches it, the machine makes these moves
    in this order from the empty history, each of them possible, and ends
    in the zipper the store stands for.  The array and the cursor are
    those of that zipper and the committed directory is the directory of
    its current record. *)
Theorem reachable_simulates dir e σ :
  reachable dir e σ →
  (∃ ls, labelled_run ls (init_store dir e) σ) ∧
  (∀ ls, labelled_run ls (init_store dir e) σ →
     Spec.run ls None = Some (abs (state σ))) ∧
  match abs (state σ) with
  | Some z =>
      histories (state σ) = Zipper.to_list z ∧
      historyIndex (state σ) = Z.of_nat (Zipper.position z) ∧
      directory σ = History.directory (Zipper.here z)
  | None => histories (state σ) = [] ∧ historyIndex (state σ) = -1
  end.
Proof.
  intros Hr. pose proof (proj1 (reachable_labelled dir e σ) Hr) as [ls Hls].
  destruct (labelled_run_simulates _ _ _ (inv_init dir e) Hls) as [_ Hinv].
  split_and!; [by exists ls | |].
  - intros ls' Hls'. by apply (labelled_run_simulates _ _ _ (inv_init dir e)) in Hls' as [? _].
  - assert (stands_for σ (abs (state σ))) as Hst by done.
    destruct (abs (state σ)); [by apply stands_for_Some | by apply stands_for_None].
Qed.

(** ** The machine is simulated *)

Lemma left_back z z' :
  Zipper.left z = Some z' → length (Zipper.back z) = S (length (Zipper.back z')).
Proof. unfold Zipper.left. destruct (Zipper.back z); [done|]. by intros [= <-]. Qed.

Lemma right_forward z z' :
  Zipper.right z = Some z' → length (Zipper.forward z) = S (length (Zipper.forward z')).
Proof. unfold Zipper.right. destruct (Zipper.forward z); [done|]. by intros [= <-]. Qed.

Lemma go_S move (n : nat) z :
  Zipper.go move (S n) z = move z ≫= Zipper.go move n.
Proof. done. Qed.

(** A walk of [k + 1] places needs that many records. *)
Lemma go_left_enabled (k : nat) z z' :
  Zipper.go Zipper.left (S k) z = Some z' → (k < length (Zipper.back z))%nat.
Proof.
  revert z. induction k as [|k IH]; intros z Hgo; rewrite go_S in Hgo;
    destruct (Zipper.left z) as [z1|] eqn:Hl; try done;
    apply left_back in Hl; [lia|]. apply IH in Hgo. lia.
Qed.

Lemma go_right_enabled (k : nat) z z' :
  Zipper.go Zipper.right (S k) z = Some z' → (k < length (Zipper.forward z))%nat.
Proof.
  revert z. induction k as [|k IH]; intros z Hgo; rewrite go_S in Hgo;
    destruct (Zipper.right z) as [z1|] eqn:Hl; try done;
    apply right_forward in Hl; [lia|]. apply IH in Hgo. lia.
Qed.

(** The moves [intent_of] names an intent for: all but the visit of
    [undefined] from a committed directory. *)
Lemma intent_of_None l σ :
  intent_of l σ = None ↔ l = Spec.Visit None ∧ directory σ ≠ None.
Proof.
  destruct l as [[d|]| | | |]; simpl; try case_decide; intuition congruence.
Qed.

(** An enabled move that has an intent is made by the run of that intent. *)
Lemma intent_of_simulates l i oz' σ :
  wf σ → Spec.step l (abs (state σ)) = Some oz' → intent_of l σ = Some i →
  admissible i (state σ) ∧ label_of i σ = l ∧ abs (state (final (run i σ))) = oz'.
Proof.
  intros Hwf Hstep Hi.
  cut (admissible i (state σ) ∧ label_of i σ = l).
  { intros [Hadm Hl]. split_and!; [done..|].
    pose proof (run_simulates i σ Hwf Hadm) as Hrun. rewrite Hl, Hstep in Hrun.
    by simplify_eq. }
  destruct l as [d|k|k|v|]; simpl in Hi;
    [case_decide; [|destruct d]|..]; simplify_eq/=; unfold visit_label;
    rewrite ?bool_decide_eq_false_2, ?andb_false_r, ?Nat2Z.id by done; try done;
    destruct (abs (state σ)) as [z|] eqn:Hz; simplify_eq/=;
    (split; [|done]); destruct (abs_Some _ _ Hz) as [_ Hp];
    destruct (abs_parts _ _ Hz) as (_ & _ & Hlen); unfold Zipper.position in Hp.
  - change (Zipper.left z ≫= Zipper.go Zipper.left k)
      with (Zipper.go Zipper.left (S k) z) in Hstep.
    destruct (Zipper.go Zipper.left (S k) z) eqn:Hgo; [|done].
    apply go_left_enabled in Hgo. lia.
  - change (Zipper.right z ≫= Zipper.go Zipper.right k)
      with (Zipper.go Zipper.right (S k) z) in Hstep.
    destruct (Zipper.go Zipper.right (S k) z) eqn:Hgo; [|done].
    apply go_right_enabled in Hgo. lia.
  - lia.
Qed.

(** C9: the explorer can make every move of the history machine: when a
    move is possible on the zipper a well-formed store stands for, the
    intent [intent_of] names is admissible, [label_of] reads that move off
    it, and its run ends in a store that stands for the result of the
    move.  The only move [intent_of] names no intent for is the visit of
    [undefined] from a store that has a committed directory. *)
Theorem machine_simulated l oz' σ :
  wf σ → Spec.step l (abs (state σ)) = Some oz' →
  match intent_of l σ with
  | Some i =>
      admissible i (state σ) ∧ label_of i σ = l ∧
      abs (state (final (run i σ))) = oz'
  | None => l = Spec.Visit None ∧ directory σ ≠ None
  end.
Proof.
  intros Hwf Hstep. destruct (intent_of l σ) as [i|] eqn:Hi;
    [by apply intent_of_simulates | by apply intent_of_None].
Qed.

End Simulation.

(** ** The simulation at the concrete environment *)

Lemma intent_simulates_witness :
  stands_for store0 None ∧
  ∃ oz', Spec.step (label_of InitDirectory store0) None = Some oz' ∧
         stands_for (final (run InitDirectory store0)) oz' ∧
         (∀ z, oz' = Some z →
            directory (final (run InitDirectory store0)) =
              History.directory (Zipper.here z)).
Proof.
  assert (stands_for store0 None) as Hst by (split; [apply inv_init | reflexivity]).
  split; [exact Hst|]. exact (intent_simulates InitDirectory store0 None Hst I).
Defined.

(** The tour makes three visits and goes back two places. *)
Lemma tour_labels :
  labels_of tour store0 =
    [Spec.Visit (Some "/a"); Spec.Visit (Some "/a/b"); Spec.Visit (Some "/a/c");
     Spec.Back 1].
Proof. by vm_compute. Qed.

Lemma reachable_simulates_witness :
  reachable (Some "/a") env0 (run_all tour store0) ∧
  Spec.run [Spec.Visit (Some "/a"); Spec.Visit (Some "/a/b"); Spec.Visit (Some "/a/c");
            Spec.Back 1] None =
    Some (abs (state (run_all tour store0))).
Proof.
  assert (reachable (Some "/a") env0 (run_all tour store0)) as Hr
    by exact (rtc_run_all tour store0 tour_admissible).
  split; [exact Hr|].
  destruct (reachable_simulates (Some "/a") env0 _ Hr) as (_ & Hall & _).
  apply Hall. rewrite <- tour_labels. exact (labelled_run_all tour store0 tour_admissible).
Defined.

Lemma machine_simulated_witness :
  let oz' :=
    Some {| Zipper.back := []; Zipper.here := Zipper.fresh (Some "/a");
            Zipper.forward := [Zipper.fresh (Some "/a/b"); Zipper.fresh (Some "/a/c")] |} in
  Spec.step (Spec.Back 1) (abs (state store_abc)) = Some oz' ∧
  admissible (BackDirectory 1) (state store_abc) ∧
  abs (state (final (run (BackDirectory 1) store_abc))) = oz'.
Proof.
  intros oz'.
  assert (Spec.step (Spec.Back 1) (abs (state store_abc)) = Some oz') as Hstep
    by (vm_compute; reflexivity).
  split; [exact Hstep|].
  destruct (machine_simulated (Spec.Back 1) oz' store_abc wf_store_abc Hstep)
    as (Hadm & _ & Habs).
  exact (conj Hadm Habs).
Defined.
