(* ===== verification/View.v ===== *)
(** * What the module state depends on

    The trace of calls to the collaborators records what happened, and the
    handle of a watch is a name: no action reads the trace, and the only
    use of the variable [watcher] is to close what it holds.  The relation
    [view_eq] relates two stores that agree on the module state, the
    committed directory and the environment.  Every action is [Proper] for
    it: what the view can read after an action is determined by what it
    could read before.  The instances are composed from those of the
    monad's operations, as the actions are composed from the operations.

    The callback of the watch reloads the listing.  When the items are
    already the listing of the committed directory, in order, the reload
    stores them again; so in a filesystem that stays as it is, a run with
    callbacks among its intents ([react_all]) leaves the view of the run
    without them. *)

From stdpp Require Import base tactics list strings gmap.
From Stdlib Require Import ZArith Lia.
From S2P Require Import Prelude JsString Act Model SortEngine Actions Fixture Listing.
From S2P Require Import Sorting FileContract HistoryStack Explorer Moves Typed Activation.
From S2P Require Import Ordered.

#[local] Open Scope Z_scope.
#[local] Open Scope act_scope.

Definition view_eq (σ1 σ2 : Store) : Prop :=
  state σ1 = state σ2 ∧ directory σ1 = directory σ2 ∧ env σ1 = env σ2.

Infix "≈" := view_eq (at level 70, no associativity).

(** What the explorer reacts to while the filesystem stays as it is: a
    dispatch of the view, or the callback of the watch. *)
Inductive Input := Dispatched (i : Intent) | WatchFired.

Definition intents (l : list Input) : list Intent :=
  omap (λ x, match x with Dispatched i => Some i | WatchFired => None end) l.

(** Two outcomes leave by the same exit, with the same value, in related
    stores. *)
Definition outcome_eq {A} (o1 o2 : outcome Store Exn A) : Prop :=
  match o1, o2 with
  | Done a1 σ1, Done a2 σ2 => a1 = a2 ∧ σ1 ≈ σ2
  | Raised e1 σ1, Raised e2 σ2 => e1 = e2 ∧ σ1 ≈ σ2
  | _, _ => False
  end.

(** An action [respects] the view when related stores give related
    outcomes. *)
Abbreviation respects m := (Proper (view_eq ==> outcome_eq) m).

#[export] Instance view_eq_equiv : Equivalence view_eq.
Proof.
  unfold view_eq. split.
  - by intros σ.
  - by intros σ1 σ2 (-> & -> & ->).
  - by intros σ1 σ2 σ3 (-> & -> & ->).
Qed.

#[export] Instance outcome_eq_equiv {A} : Equivalence (@outcome_eq A).
Proof.
  split.
  - by intros [].
  - intros [] []; simpl; try done; by intros [-> ->].
  - intros [] [] []; simpl; try done; by intros [-> ->] [-> ->].
Qed.

(** ** What reads and writes respect the view *)

#[export] Instance state_proper : Proper (view_eq ==> eq) state.
Proof. by intros σ1 σ2 (? & _). Qed.

#[export] Instance directory_proper : Proper (view_eq ==> eq) directory.
Proof. by intros σ1 σ2 (_ & ? & _). Qed.

#[export] Instance env_proper : Proper (view_eq ==> eq) env.
Proof. by intros σ1 σ2 (_ & _ & ?). Qed.

#[export] Instance with_state_proper m : Proper (view_eq ==> view_eq) (with_state m).
Proof. intros σ1 σ2 (Hs & ? & ?). split_and!; simpl; [by rewrite Hs | done..]. Qed.

#[export] Instance with_trace_proper e : Proper (view_eq ==> view_eq) (with_trace e).
Proof. by intros σ1 σ2 (? & ? & ?). Qed.

#[export] Instance setDirectory_proper d : Proper (view_eq ==> view_eq) (setDirectory d).
Proof. by intros σ1 σ2 (? & ? & ?). Qed.

#[export] Instance with_env_proper e : Proper (view_eq ==> view_eq) (with_env e).
Proof. by intros σ1 σ2 (? & ? & ?). Qed.

#[export] Instance final_proper {A} : Proper (outcome_eq ==> view_eq) (@final Store Exn A).
Proof. intros [] []; simpl; try done; by intros [_ ?]. Qed.

#[export] Instance raised_proper {A} : Proper (outcome_eq ==> eq) (@raised Store Exn A).
Proof. by intros [] []. Qed.

(** ** The operations of the monad *)

Section Combinators.
Context {A B : Type}.

Lemma ret_respects (a : A) : respects (ret a).
Proof. by intros σ1 σ2 Hσ. Qed.

Lemma throw_respects (e : Exn) : respects (throw (A:=A) e).
Proof. by intros σ1 σ2 Hσ. Qed.

Lemma gets_respects (f : Store → A) : Proper (view_eq ==> eq) f → respects (gets f).
Proof. intros Hf σ1 σ2 Hσ. simpl. by rewrite Hσ. Qed.

Lemma modify_respects (f : Store → Store) :
  Proper (view_eq ==> view_eq) f → respects (modify f).
Proof. intros Hf σ1 σ2 Hσ. simpl. by rewrite Hσ. Qed.

Lemma bind_respects (m : Action A) (k : A → Action B) :
  respects m → (∀ a, respects (k a)) → respects (bind m k).
Proof.
  intros Hm Hk σ1 σ2 Hσ. unfold bind. specialize (Hm σ1 σ2 Hσ).
  destruct (m σ1), (m σ2); simpl in Hm; try done; destruct Hm as [-> Hs];
    first [done | by apply Hk].
Qed.

Lemma try_catch_respects (m : Action A) (h : Exn → Action A) :
  respects m → (∀ e, respects (h e)) → respects (try_catch m h).
Proof.
  intros Hm Hh σ1 σ2 Hσ. unfold try_catch. specialize (Hm σ1 σ2 Hσ).
  destruct (m σ1), (m σ2); simpl in Hm; try done; destruct Hm as [-> Hs];
    first [done | by apply Hh].
Qed.

End Combinators.

Lemma when_respects (b : bool) (m : Action unit) : respects m → respects (when b m).
Proof. destruct b; [done|]. intros _. apply ret_respects. Qed.

(** Breaks an action into its operations. *)
Ltac respects_step :=
  first
    [ apply gets_respects; apply _
    | apply modify_respects; first [apply _ | by intros ?? (? & ? & ?)]
    | apply throw_respects
    | apply when_respects
    | apply try_catch_respects; [|intros ?]
    | match goal with |- Proper _ (if ?b then _ else _) => destruct b end
    | match goal with |- Proper _ (match ?x with _ => _ end) => destruct x end
    | match goal with |- Proper _ (ret _) => apply ret_respects end
    | apply bind_respects; [|intros ?] ].

Ltac respects_tac := repeat respects_step.

(** The same, with the actions already shown to respect the view. *)
Ltac respects_with known := repeat first [ known | respects_step ].

(** ** The actions *)

Section Actions.
Context `{!ArraySort}.

(** The handle [watcher] holds decides what is closed, not what is seen. *)
Lemma close_watcher_respects : respects close_watcher.
Proof.
  intros σ1 σ2 (? & ? & ?). unfold close_watcher, bind, gets, modify, ret.
  by destruct (watcher σ1), (watcher σ2).
Qed.

Lemma fs_watch_respects dir : respects (fs_watch dir).
Proof. unfold fs_watch. respects_tac. Qed.

Lemma load_respects : respects load.
Proof.
  unfold load, list_items.
  respects_with ltac:(first [apply close_watcher_respects | apply fs_watch_respects]).
Qed.

Lemma restoreDirectory_respects i : respects (restoreDirectory i).
Proof. unfold restoreDirectory. respects_with ltac:(apply load_respects). Qed.

Lemma changeDirectory_respects dirpath force : respects (changeDirectory dirpath force).
Proof. unfold changeDirectory. respects_with ltac:(apply restoreDirectory_respects). Qed.

(** Every intent respects the view. *)
#[local] Instance run_proper i : respects (run i).
Proof.
  destruct i; simpl;
    unfold initDirectory, changeParentDirectory, changeHomeDirectory,
      changeSelectedDirectory, backDirectory, forwardDirectory, setScrollTop,
      openDirectory, action, showViewer, select, selectFirst, selectLast,
      selectPrevious, selectNext, selectIndex, select, search, changeSortKey, sort;
    respects_with
      ltac:(first [apply changeDirectory_respects | apply restoreDirectory_respects]).
Qed.

(** A restore overwrites what an earlier restore wrote. *)
Lemma restoreDirectory_absorbs i j h σ :
  js_nth (histories (state σ)) i = Some h →
  is_Some (js_nth (histories (state σ)) j) →
  final (restoreDirectory i (final (restoreDirectory j σ))) ≈
  final (restoreDirectory i σ).
Proof.
  intros Hi [hj Hj].
  destruct (restoreDirectory_state j hj σ Hj) as [Hs1 He1].
  destruct (restoreDirectory_final j hj σ Hj) as (_ & Hhs1 & _).
  destruct (restoreDirectory_final i h σ Hi) as (_ & _ & _ & Hd & _).
  assert (js_nth (histories (state (final (restoreDirectory j σ)))) i = Some h) as Hi1
    by (by rewrite Hhs1).
  destruct (restoreDirectory_final i h _ Hi1) as (_ & _ & _ & Hd1 & _).
  destruct (restoreDirectory_state i h σ Hi) as [Hs He].
  destruct (restoreDirectory_state i h _ Hi1) as [Hs' He'].
  split_and!; [|congruence..]. rewrite Hs', Hs, Hs1. unfold listed. simpl.
  by rewrite He1.
Qed.

(** A reload overwrites what the reload before it wrote. *)
Lemma load_absorbs σ : final (load (final (load σ))) ≈ final (load σ).
Proof.
  split_and!; [|(by autorewrite with explorer)..].
  rewrite (load_state (final (load σ))), load_items.
  rewrite (listed_frame σ (final (load σ))) by by autorewrite with explorer.
  rewrite (load_state σ). unfold sortOption. simpl. by rewrite load_items.
Qed.

(** Reloads after the first change the handles of the watch and nothing
    the view can read. *)
Lemma reloads_absorb n σ :
  reloads (S n) σ ≈ final (load σ) ∧
  (fs_watch_ok (env σ) (directory σ) = true →
   next_watch (reloads (S n) σ) = (next_watch σ + S n)%nat).
Proof.
  induction n as [|n [IHv IHw]]; [split; [done|]|split].
  - intros Hok. destruct (load_watch σ) as [_ Hw]. rewrite Hok in Hw.
    destruct Hw as (_ & _ & Hn). simpl. lia.
  - change (reloads (S (S n)) σ) with (final (load (reloads (S n) σ))).
    etrans; [|apply load_absorbs]. by apply final_proper, load_respects.
  - intros Hok. change (reloads (S (S n)) σ) with (final (load (reloads (S n) σ))).
    destruct (load_watch (reloads (S n) σ)) as [_ Hw].
    destruct IHv as (_ & Hd & He). rewrite He, Hd in Hw.
    autorewrite with explorer in Hw. rewrite Hok in Hw.
    destruct Hw as (_ & _ & ->). rewrite IHw by done. lia.
Qed.

(** The reload of items that are fresh and in order stores them again. *)
Lemma load_invisible σ :
  FileContract (env σ) → fresh σ → ordered σ → final (load σ) ≈ σ.
Proof.
  intros He Hf Ho. split_and!; [|apply load_directory|apply load_env].
  rewrite load_state, load_items.
  rewrite (array_sort_characterised _ _ (items (state σ)));
    [by destruct (state σ) | by apply listed_names | done | done].
Qed.

(** C22: the reloads of a burst of filesystem events coalesce: after any
    number of firings of the watch in an unchanged filesystem the view is
    the one a single reload leaves, so a debounced callback would show
    the same; what a redundant reload costs is a watch closed and a fresh
    one armed.  When the items are the listing of the committed directory,
    in the order of the sort option, with a filesystem that keeps the
    contract of the File utility, the view is the one of before: a
    callback of the watch for a change that does not concern the listing
    is invisible. *)
Theorem reload_coalesces n σ :
  reloads (S n) σ ≈ final (load σ) ∧
  (fs_watch_ok (env σ) (directory σ) = true →
   next_watch (reloads (S n) σ) = (next_watch σ + S n)%nat) ∧
  (FileContract (env σ) → fresh σ → ordered σ → reloads (S n) σ ≈ σ).
Proof.
  destruct (reloads_absorb n σ) as [Hv Hw]. split_and!; [done..|].
  intros He Hf Ho. etrans; [exact Hv | by apply load_invisible].
Qed.

(** Going back and then forward leaves the view of a fresh visit of the
    current record. *)
Lemma back_forward_absorbs offset σ :
  wf σ → 0 ≤ offset < historyIndex (state σ) →
  final (forwardDirectory offset (final (backDirectory offset σ))) ≈
  final (restoreDirectory (historyIndex (state σ)) σ).
Proof.
  intros Hwf Hoff. pose proof (wf_cursor_ok _ Hwf) as [_ Hhi].
  destruct (js_nth_in_range (histories (state σ)) (historyIndex (state σ)))
    as [_ [h Hh]]; [lia|].
  destruct (js_nth_in_range (histories (state σ))
              (historyIndex (state σ) - 1 - offset)) as [_ [hj Hj]]; [lia|].
  destruct (backDirectory_final offset hj σ) as (_ & Hhs & Hi & _);
    [apply canBackDirectory_true; lia | done |].
  rewrite (forwardDirectory_go offset (final (backDirectory offset σ)))
    by (apply canForwardDirectory_true; rewrite Hhs, Hi; lia).
  rewrite Hi, backDirectory_go by (apply canBackDirectory_true; lia).
  replace (historyIndex (state σ) - 1 - offset + 1 + offset)
    with (historyIndex (state σ)) by lia.
  by eapply restoreDirectory_absorbs.
Qed.

(** C5: back and forward are inverse.  In a well-formed store, going back
    with an offset inside the back list and then forward with the same
    offset raises nothing on the way and returns the cursor and the
    committed directory to what they were, with the records unchanged;
    the view is the one a fresh visit of the current record leaves: the
    committed directory listed again, the query cleared, the selection
    kept. *)
Theorem back_forward_view offset σ :
  wf σ → 0 ≤ offset < historyIndex (state σ) →
  let σ1 := final (backDirectory offset σ) in
  let σ2 := final (forwardDirectory offset σ1) in
  raised (backDirectory offset σ) = false ∧
  raised (forwardDirectory offset σ1) = false ∧
  histories (state σ2) = histories (state σ) ∧
  historyIndex (state σ2) = historyIndex (state σ) ∧
  directory σ2 = directory σ ∧
  σ2 ≈ final (restoreDirectory (historyIndex (state σ)) σ).
Proof.
  intros Hwf Hoff.
  destruct (back_forward_inverse offset σ Hwf Hoff) as (? & ? & ? & ? & ?).
  split_and!; [done..|by apply back_forward_absorbs].
Qed.

(** ** Callbacks among the intents *)

Definition react (x : Input) (σ : Store) : Store :=
  match x with
  | Dispatched i => final (run i σ)
  | WatchFired => final (load σ)
  end.

Definition react_all (l : list Input) (σ : Store) : Store :=
  foldl (λ σ x, react x σ) σ l.

(** The stores in which a reload stores the items again: the invariants
    hold, the filesystem keeps its contract, the items are the listing of
    the committed directory, in order. *)
Definition settled (σ : Store) : Prop :=
  inv σ ∧ FileContract (env σ) ∧ fresh σ ∧ ordered σ.

Lemma settled_react x σ :
  match x with Dispatched i => admissible i (state σ) | WatchFired => True end →
  settled σ → settled (react x σ).
Proof.
  intros Hadm (Hinv & He & Hf & Ho). destruct x as [i|]; simpl.
  - split_and!; [by apply inv_run | by apply (stable_run (λ σ, FileContract (env σ)) i σ (proj1 Hinv))
                | by apply (stable_run fresh i σ (proj1 Hinv))
                | by apply (stable_run ordered i σ (proj1 Hinv))].
  - split_and!; [by apply inv_load | by rewrite load_env | apply load_fresh
                | by apply (stable_load ordered)].
Qed.

(** The reactions to a sequence with callbacks, against the run of its
    intents alone. *)
Lemma react_all_view l σ1 σ2 :
  σ1 ≈ σ2 → settled σ1 → admissible_all (intents l) σ2 →
  react_all l σ1 ≈ run_all (intents l) σ2 ∧ settled (react_all l σ1).
Proof.
  revert σ1 σ2. induction l as [|[i|] l IH]; intros σ1 σ2 Hv Hs; simpl; [done|..].
  - intros [Hadm Hl].
    assert (admissible i (state σ1)) as Hadm1 by (by rewrite (state_proper _ _ Hv)).
    apply IH; [by apply final_proper, run_proper | by apply (settled_react (Dispatched i)) | done].
  - intros Hl. destruct Hs as (Hinv & He & Hf & Ho).
    apply IH; [|by apply (settled_react WatchFired) | done].
    etrans; [by apply load_invisible | done].
Qed.

(** C21: in a filesystem that stays as it is, the callbacks of the watch
    are invisible.  From a store that keeps the invariants, with a
    filesystem that keeps the contract of the File utility and items that
    are the listing of the committed directory in the order of the sort
    option, a sequence of admissible intents with callbacks of the watch
    anywhere among them leaves the view the intents alone leave: the same
    module state and committed directory.  Callbacks may be dropped,
    delayed or repeated without any effect on what the user sees. *)
Theorem callbacks_invisible l σ :
  settled σ → admissible_all (intents l) σ →
  react_all l σ ≈ run_all (intents l) σ ∧ settled (react_all l σ).
Proof. intros Hs Hl. by apply react_all_view. Qed.

(** C26: what the view can read after a sequence of intents (the module
    state and the committed directory, in the same environment), and how
    the next intent ends, are determined by what the view could read
    before: the trace of earlier calls and the handles of the watches
    have no influence. *)
Theorem view_determined l i σ1 σ2 :
  σ1 ≈ σ2 →
  run_all l σ1 ≈ run_all l σ2 ∧
  outcome_eq (run i (run_all l σ1)) (run i (run_all l σ2)).
Proof.
  intros Hσ. assert (run_all l σ1 ≈ run_all l σ2) as Hl.
  { revert σ1 σ2 Hσ. induction l as [|j l IH]; intros σ1 σ2 Hσ; simpl; [done|].
    apply IH. by rewrite Hσ. }
  split; [done | by rewrite Hl].
Qed.

End Actions.

(** The trace is not part of the view. *)
Lemma with_trace_view e σ : σ ≈ with_trace e σ.
Proof. done. Qed.

Lemma back_forward_view_witness :
  wf store_abc ∧
  directory (final (forwardDirectory 1 (final (backDirectory 1 store_abc)))) =
    directory store_abc ∧
  final (forwardDirectory 1 (final (backDirectory 1 store_abc))) ≈
  final (restoreDirectory (historyIndex (state store_abc)) store_abc).
Proof.
  assert (0 ≤ 1 < historyIndex (state store_abc)) as Hoff by (by vm_compute).
  destruct (back_forward_view 1 store_abc wf_store_abc Hoff) as (_ & _ & _ & _ & Hd & Hv).
  exact (conj wf_store_abc (conj Hd Hv)).
Defined.

Lemma view_determined_witness :
  store_abc ≈ with_trace FocusExplorerTable store_abc ∧
  run_all [BackDirectory 0] store_abc ≈
    run_all [BackDirectory 0] (with_trace FocusExplorerTable store_abc).
Proof.
  assert (store_abc ≈ with_trace FocusExplorerTable store_abc) as Hv
    by apply with_trace_view.
  split; [exact Hv|].
  exact (proj1 (view_determined [BackDirectory 0] InitDirectory _ _ Hv)).
Defined.

(** Three callbacks of the watch in [/a], with nothing changed on disk. *)
Lemma reload_coalesces_witness :
  FileContract (env store_a) ∧ fresh store_a ∧ reloads 3 store_a ≈ store_a.
Proof.
  destruct store_a_ready as (_ & He & Hf).
  assert (ordered store_a) as Ho.
  { apply (reachable_ordered_items (Some "/a") env0). rewrite <- store_a_run.
    apply rtc_once. exact (step_intent InitDirectory store0 I). }
  exact (conj He (conj Hf (proj2 (proj2 (reload_coalesces 2 store_a)) He Hf Ho))).
Defined.

Lemma settled_store_a : settled store_a.
Proof.
  destruct store_a_ready as (Hinv & He & Hf). split_and!; [done..|].
  apply (reachable_ordered_items (Some "/a") env0). rewrite <- store_a_run.
  apply rtc_once. exact (step_intent InitDirectory store0 I).
Qed.

(** A visit of [/a/b] and the way back, with four callbacks on the way. *)
Definition busy : list Input :=
  [WatchFired; Dispatched (ChangeDirectory "/a/b"); WatchFired; WatchFired;
   Dispatched (BackDirectory 0); WatchFired].

Lemma callbacks_invisible_witness :
  settled store_a ∧
  react_all busy store_a ≈ run_all [ChangeDirectory "/a/b"; BackDirectory 0] store_a.
Proof.
  split; [exact settled_store_a|].
  refine (proj1 (callbacks_invisible busy store_a settled_store_a _)).
  vm_compute. done.
Defined.
